(** * Code Context Graph engine: a shallow embedding and its properties

    The development follows [src/genius/ccg_builder.py] (the entity graph,
    the two-pass assembler, the diagram projector and the query) and
    [src/parser_engine.py] (the per-language extractors).

    Modelling conventions.
    - A Python [str] is a [string]; one [ascii] stands for one character.
    - A Python [dict] is an insertion-ordered association list with unique
      keys ([PyDict]): iteration order is observable in the code (callers
      scan, query results, tie-breaks of the diagram), so the order is kept.
    - A Python [set] is iterated in an order the language leaves open; the
      order is the parameter [set_iter] of class [SetOrder].
    - Mutation of the graph object is explicit state passing. *)

From Stdlib Require Import List String Ascii Bool Arith ZArith Lia Permutation Sorted.
Import ListNotations.

Local Open Scope string_scope.
Local Open Scope list_scope.

Set Implicit Arguments.

(** ** Strings *)

Module PyStr.

Infix "+++" := String.append (at level 60, right associativity).

(** The double quote and the line feed, which string literals cannot hold
    conveniently. *)
Definition dquote : string := String "034"%char EmptyString.
Definition nl : string := String "010"%char EmptyString.

(** [needle in hay] on Python strings. *)
Fixpoint contains (needle hay : string) : bool :=
  String.prefix needle hay
  || match hay with
     | EmptyString => false
     | String _ hay' => contains needle hay'
     end.

(** Truthiness of a string: non-empty. *)
Definition truthy (s : string) : bool :=
  match s with EmptyString => false | _ => true end.

(** [s.replace(old, new)] for a non-empty [old]: left to right, without
    overlap.  [skip] counts the characters of a match still to be passed. *)
Fixpoint replace_from (old new s : string) (skip : nat) : string :=
  match s with
  | EmptyString => EmptyString
  | String c s' =>
      match skip with
      | S k => replace_from old new s' k
      | O =>
          if String.prefix old s
          then new +++ replace_from old new s' (String.length old - 1)
          else String c (replace_from old new s' 0)
      end
  end.

Definition replace (old new s : string) : string := replace_from old new s 0.

Fixpoint take (n : nat) (s : string) : string :=
  match n, s with
  | S k, String c s' => String c (take k s')
  | _, _ => EmptyString
  end.

Fixpoint drop (n : nat) (s : string) : string :=
  match n, s with
  | S k, String _ s' => drop k s'
  | _, _ => s
  end.

Definition option_string_eqb (o : option string) (s : string) : bool :=
  match o with Some x => String.eqb x s | None => false end.

End PyStr.
Import PyStr.

(** ** Insertion-ordered dictionaries *)

Module PyDict.
Section Dict.
Variables K V : Type.
Variable eqb : K -> K -> bool.

Definition t := list (K * V).

(** [d.get(k)] *)
Fixpoint get (k : K) (d : t) : option V :=
  match d with
  | [] => None
  | (k', v) :: d' => if eqb k' k then Some v else get k d'
  end.

(** [d.get(k, dflt)] *)
Definition get_default (k : K) (d : t) (dflt : V) : V :=
  match get k d with Some v => v | None => dflt end.

(** [k in d] *)
Definition mem (k : K) (d : t) : bool :=
  match get k d with Some _ => true | None => false end.

(** [d[k] = v]: an existing key keeps its position, a new key goes last. *)
Fixpoint set (k : K) (v : V) (d : t) : t :=
  match d with
  | [] => [(k, v)]
  | (k', v') :: d' => if eqb k' k then (k', v) :: d' else (k', v') :: set k v d'
  end.

Definition keys (d : t) : list K := map fst d.
Definition values (d : t) : list V := map snd d.

End Dict.
End PyDict.

Definition sdict (V : Type) := PyDict.t string V.
Definition sget {V} := @PyDict.get string V String.eqb.
Definition sget_default {V} := @PyDict.get_default string V String.eqb.
Definition smem {V} := @PyDict.mem string V String.eqb.
Definition sset {V} := @PyDict.set string V String.eqb.

(** [d[k].append(x)] on a [defaultdict(list)]. *)
Definition sappend (k x : string) (d : sdict (list string)) : sdict (list string) :=
  sset k (sget_default k d [] ++ [x]) d.

Definition pair_eqb (a b : string * string) : bool :=
  String.eqb (fst a) (fst b) && String.eqb (snd a) (snd b).

(** ** The entity graph ([class CodeContextGraph]) *)

(** The dictionary stored per node.  The assembler always writes the four
    keys; readers use [.get] with defaults, so the fields are optional. *)
Record entity_data := mk_entity_data {
  e_name : option string;
  e_type : option string;
  e_language : option string;
  e_file_path : option string
}.

(** The empty dictionary [{}]. *)
Definition empty_entity : entity_data := mk_entity_data None None None None.

Record CodeContextGraph := mk_ccg {
  nodes : sdict entity_data;                           (* {entity_id: entity_data} *)
  edges : sdict (list string);                         (* {from_id: [to_ids]} *)
  edge_types : PyDict.t (string * string) string;      (* {(from, to): type} *)
  file_entities : sdict (list string)                  (* {file_path: [entity_ids]} *)
}.

(** [CodeContextGraph()] *)
Definition ccg_init : CodeContextGraph := mk_ccg [] [] [] [].

Definition add_node (entity_id : string) (data : entity_data)
    (g : CodeContextGraph) : CodeContextGraph :=
  let nodes' := sset entity_id data (nodes g) in
  let file_path := match e_file_path data with Some p => p | None => "" end in
  if truthy file_path
  then mk_ccg nodes' (edges g) (edge_types g)
         (sappend file_path entity_id (file_entities g))
  else mk_ccg nodes' (edges g) (edge_types g) (file_entities g).

Definition add_edge (from_id to_id edge_type : string)
    (g : CodeContextGraph) : CodeContextGraph :=
  if smem from_id (nodes g) && smem to_id (nodes g)
  then mk_ccg (nodes g)
         (sappend from_id to_id (edges g))
         (PyDict.set pair_eqb (from_id, to_id) edge_type (edge_types g))
         (file_entities g)
  else g.

Definition get_entity (entity_id : string) (g : CodeContextGraph) : entity_data :=
  sget_default entity_id (nodes g) empty_entity.

Definition get_callers (entity_id : string) (g : CodeContextGraph) : list string :=
  fold_left
    (fun callers '(from_id, to_ids) =>
       if existsb (String.eqb entity_id) to_ids then callers ++ [from_id] else callers)
    (edges g) [].

Definition get_callees (entity_id : string) (g : CodeContextGraph) : list string :=
  sget_default entity_id (edges g) [].

(** [sum(len(edges) for edges in self.edges.values())] *)
Definition edge_total (e : sdict (list string)) : nat :=
  fold_left (fun acc to_ids => acc + List.length to_ids) (PyDict.values e) 0.

(** [avg_connections] is the float quotient of the two components. *)
Record ccg_stats := mk_stats {
  node_count : nat;
  edge_count : nat;
  file_count : nat;
  avg_connections : nat * nat
}.

Definition get_stats (g : CodeContextGraph) : ccg_stats :=
  mk_stats (List.length (nodes g)) (edge_total (edges g))
    (List.length (file_entities g))
    (edge_total (edges g), Nat.max (List.length (nodes g)) 1).

(** The serialised snapshot returned by [to_dict]. *)
Record ccg_dict := mk_ccg_dict {
  d_nodes : sdict entity_data;
  d_edges : sdict (list string);
  d_edge_types : sdict string;
  d_stats : ccg_stats
}.

Definition to_dict (g : CodeContextGraph) : ccg_dict :=
  mk_ccg_dict (nodes g) (edges g)
    (fold_left (fun acc '(k, v) => sset (fst k +++ "->" +++ snd k) v acc)
       (edge_types g) [])
    (get_stats g).

(** ** Extraction records

    One record per file, as [parse_source_file] returns it and as
    [summarize_repo] completes it with [path].  A list field that is absent
    reads as [[]] everywhere ([pfile.get('funcs', [])]), so list fields are
    plain lists; [path] and [type] read as [''] when absent.  [error] and
    [content] are tested for truthiness and for presence, so they are
    optional. *)
Record parsed_file := mk_parsed_file {
  p_path : string;
  p_type : string;
  p_error : option string;
  p_funcs : list string;
  p_classes : list string;
  p_structs : list string;
  p_enums : list string;
  p_traits : list string;
  p_walkers : list string;
  p_nodes : list string;
  p_abilities : list string;
  p_globals : list string;
  p_edges : list string;
  p_imports : list string;
  p_content : option string
}.

(** [pfile.get('error')] as a condition. *)
Definition has_error (pfile : parsed_file) : bool :=
  match p_error pfile with Some e => truthy e | None => false end.

(** ** The graph assembler ([build_code_context_graph]) *)

(** The kinds of entity the assembler writes into the ['type'] key. *)
Inductive entity_kind :=
  | KFunction | KClass | KStruct | KNode | KWalker | KAbility.

Definition kind_name (k : entity_kind) : string :=
  match k with
  | KFunction => "function" | KClass => "class" | KStruct => "struct"
  | KNode => "node" | KWalker => "walker" | KAbility => "ability"
  end.

(** The text the id carries between ["::"] and the name: the jac kinds are
    written into the id, the other kinds are not. *)
Definition kind_prefix (k : entity_kind) : string :=
  match k with
  | KNode => "node:" | KWalker => "walker:" | KAbility => "ability:"
  | KFunction | KClass | KStruct => ""
  end.

(** [f"{file_path}::{name}"], [f"{file_path}::node:{name}"], ... *)
Definition entity_id (file_path : string) (k : entity_kind) (name : string) : string :=
  file_path +++ "::" +++ kind_prefix k +++ name.

(** The dictionary literal passed to [add_node]. *)
Definition entity_record (name : string) (k : entity_kind) (language file_path : string)
    : entity_data :=
  mk_entity_data (Some name) (Some (kind_name k)) (Some language) (Some file_path).

(** One [for name in pfile.get(..., []): ccg.add_node(...)] loop. *)
Definition add_entities (file_path language : string) (k : entity_kind)
    (names : list string) (g : CodeContextGraph) : CodeContextGraph :=
  fold_left
    (fun g name => add_node (entity_id file_path k name)
                     (entity_record name k language file_path) g)
    names g.

(** Body of the pass 1 loop. *)
Definition pass1_file (g : CodeContextGraph) (pfile : parsed_file) : CodeContextGraph :=
  if has_error pfile then g
  else
    let file_path := p_path pfile in
    let file_type := p_type pfile in
    if String.eqb file_type "python" then
      let g := add_entities file_path "python" KFunction (p_funcs pfile) g in
      add_entities file_path "python" KClass (p_classes pfile) g
    else if String.eqb file_type "jac" then
      let g := add_entities file_path "jac" KNode (p_nodes pfile) g in
      let g := add_entities file_path "jac" KWalker (p_walkers pfile) g in
      add_entities file_path "jac" KAbility (p_abilities pfile) g
    else if String.eqb file_type "javascript" then
      let g := add_entities file_path "javascript" KFunction (p_funcs pfile) g in
      add_entities file_path "javascript" KClass (p_classes pfile) g
    else if String.eqb file_type "rust" then
      let g := add_entities file_path "rust" KFunction (p_funcs pfile) g in
      add_entities file_path "rust" KStruct (p_structs pfile) g
    else g.

Definition pass1 (parsed_files : list parsed_file) (g : CodeContextGraph)
    : CodeContextGraph :=
  fold_left pass1_file parsed_files g.

(** The test guarding [add_edge] in pass 2. *)
Definition name_in_content (entity_name content : string) : bool :=
  contains entity_name content && Nat.ltb 3 (String.length entity_name).

(** The innermost loop of pass 2, over the entities of one other file. *)
Definition link_others (entity_name content entity_id : string)
    (other_entities : list string) (g : CodeContextGraph) : CodeContextGraph :=
  fold_left
    (fun g other_entity_id =>
       if name_in_content entity_name content
       then add_edge other_entity_id entity_id "calls" g
       else g)
    other_entities g.

(** The loop over [ccg.file_entities.items()], which skips the file itself. *)
Definition link_files (file_path entity_name content entity_id : string)
    (items : sdict (list string)) (g : CodeContextGraph) : CodeContextGraph :=
  fold_left
    (fun g '(other_file_path, other_entities) =>
       if String.eqb other_file_path file_path then g
       else link_others entity_name content entity_id other_entities g)
    items g.

(** Body of the loop over [current_entities]. *)
Definition link_entity (file_path content : string) (g : CodeContextGraph)
    (entity_id : string) : CodeContextGraph :=
  let entity := get_entity entity_id g in
  let entity_name := match e_name entity with Some n => n | None => "" end in
  link_files file_path entity_name content entity_id (file_entities g) g.

(** Body of the pass 2 loop.  [file_entities] is read from the live graph,
    as the code does. *)
Definition pass2_file (g : CodeContextGraph) (pfile : parsed_file) : CodeContextGraph :=
  match p_content pfile with
  | None => g
  | Some content =>
    if has_error pfile then g
    else
      let file_path := p_path pfile in
      let current_entities := sget_default file_path (file_entities g) [] in
      fold_left (link_entity file_path content) current_entities g
  end.

Definition pass2 (parsed_files : list parsed_file) (g : CodeContextGraph)
    : CodeContextGraph :=
  fold_left pass2_file parsed_files g.

Definition build_code_context_graph (parsed_files : list parsed_file) : ccg_dict :=
  let ccg := ccg_init in
  let ccg := pass1 parsed_files ccg in
  let ccg := pass2 parsed_files ccg in
  to_dict ccg.

(** ** Iteration order of sets

    Python leaves the iteration order of a [set] open; CPython derives it
    from the hashes of the elements, which for strings are salted per
    interpreter process.  Within one process the order is a function of the
    sequence of insertions.  [set_iter l] is the order in which the set built
    by inserting the elements of [l] is iterated: each element once. *)
Class SetOrder := {
  set_iter : list string -> list string;
  set_iter_NoDup : forall l, NoDup (set_iter l);
  set_iter_In : forall l x, In x (set_iter l) <-> In x l
}.

(** One admissible order: first insertion first. *)
Fixpoint first_seen (seen l : list string) : list string :=
  match l with
  | [] => []
  | x :: l' =>
      if existsb (String.eqb x) seen then first_seen seen l'
      else x :: first_seen (x :: seen) l'
  end.

(** ** The diagram projector ([generate_mermaid_diagram]) *)

(** [sorted(items, key=lambda x: x[1], reverse=True)]: descending by the
    second component, elements with equal keys in their original order. *)
Fixpoint insert_desc (x : string * nat) (l : list (string * nat)) : list (string * nat) :=
  match l with
  | [] => [x]
  | y :: l' => if Nat.ltb (snd x) (snd y) then y :: insert_desc x l' else x :: y :: l'
  end.

Definition sorted_desc (l : list (string * nat)) : list (string * nat) :=
  fold_right insert_desc [] l.

(** The slice [l[:n]]: a negative [n] counts from the end. *)
Definition slice_to {A} (n : Z) (l : list A) : list A :=
  if (0 <=? n)%Z then firstn (Z.to_nat n) l
  else firstn (List.length l - Z.to_nat (- n)) l.

(** [node_id.replace('::', '_').replace(':', '_').replace('/', '_').replace('.', '_')] *)
Definition clean_id (node_id : string) : string :=
  replace "." "_" (replace "/" "_" (replace ":" "_" (replace "::" "_" node_id))).

(** The two lines emitted for one selected node. *)
Definition node_lines (node_id : string) (node_data : entity_data) : string :=
  let name := match e_name node_data with Some n => n | None => node_id end in
  let node_type := match e_type node_data with Some t => t | None => "unknown" end in
  let clean := clean_id node_id in
  if String.eqb node_type "class" then
    ("    " +++ clean +++ "[" +++ dquote +++ name +++ "\n(class)" +++ dquote +++ "]" +++ nl)
    +++ ("    style " +++ clean +++ " fill:#e1f5ff,stroke:#01579b" +++ nl)
  else if String.eqb node_type "node" || String.eqb node_type "walker" then
    ("    " +++ clean +++ "{" +++ dquote +++ name +++ "\n(" +++ node_type +++ ")"
       +++ dquote +++ "}" +++ nl)
    +++ ("    style " +++ clean +++ " fill:#fff3e0,stroke:#e65100" +++ nl)
  else
    ("    " +++ clean +++ "(" +++ dquote +++ name +++ "\n(" +++ node_type +++ ")"
       +++ dquote +++ ")" +++ nl)
    +++ ("    style " +++ clean +++ " fill:#f3e5f5,stroke:#4a148c" +++ nl).

Definition edge_line (from_id to_id : string) : string :=
  "    " +++ clean_id from_id +++ " --> " +++ clean_id to_id +++ nl.

Definition mermaid_header : string := "graph TD" +++ nl.

Section Projector.
Context {SO : SetOrder}.

(** [{node_id: len(edges.get(node_id, [])) for node_id in nodes}] *)
Definition node_connections (ccg : ccg_dict) : sdict nat :=
  fold_left
    (fun acc node_id => sset node_id (List.length (sget_default node_id (d_edges ccg) [])) acc)
    (PyDict.keys (d_nodes ccg)) [].

Definition top_nodes (ccg : ccg_dict) (max_nodes : Z) : list (string * nat) :=
  slice_to max_nodes (sorted_desc (node_connections ccg)).

(** The set [top_node_ids], given by the sequence of its insertions. *)
Definition top_node_ids (ccg : ccg_dict) (max_nodes : Z) : list string :=
  map fst (top_nodes ccg max_nodes).

(** The first loop.  [nodes[node_id]] raises [KeyError] on a missing key:
    [None]. *)
Definition emit_nodes (nodes : sdict entity_data) (ids : list string)
    (mermaid : string) : option string :=
  fold_left
    (fun acc node_id =>
       match acc with
       | None => None
       | Some mermaid =>
           match sget node_id nodes with
           | None => None
           | Some node_data => Some (mermaid +++ node_lines node_id node_data)
           end
       end)
    ids (Some mermaid).

(** The second loop; the state is the text and the set [added_edges]. *)
Definition emit_edges (edges : sdict (list string)) (top ids : list string)
    (mermaid : string) : string * list (string * string) :=
  fold_left
    (fun st from_id =>
       fold_left
         (fun '(mermaid, added_edges) to_id =>
            if existsb (String.eqb to_id) top
               && negb (existsb (pair_eqb (from_id, to_id)) added_edges)
            then (mermaid +++ edge_line from_id to_id, (from_id, to_id) :: added_edges)
            else (mermaid, added_edges))
         (sget_default from_id edges []) st)
    ids (mermaid, []).

Definition generate_mermaid_diagram (ccg : ccg_dict) (max_nodes : Z) : option string :=
  let nodes := d_nodes ccg in
  let edges := d_edges ccg in
  let top := top_node_ids ccg max_nodes in
  match emit_nodes nodes (set_iter top) mermaid_header with
  | None => None
  | Some mermaid => Some (fst (emit_edges edges top (set_iter top) mermaid))
  end.

End Projector.

(** ** The graph query ([query_ccg]) *)

Inductive query_block :=
  | BInfo (entity : entity_data)
  | BCallees (entity : entity_data) (calls : list entity_data)
  | BCallers (entity : entity_data) (called_by : list (option entity_data)).

Inductive query_result :=
  | QError (message : string)
  | QResults (results : list query_block).

Definition matching_entities (nodes : sdict entity_data) (entity_name : string)
    : list (string * entity_data) :=
  filter (fun '(eid, data) => option_string_eqb (e_name data) entity_name) nodes.

(** [[nodes.get(cid) for cid in callees if cid in nodes]] *)
Definition callee_data (nodes : sdict entity_data) (callees : list string)
    : list entity_data :=
  flat_map (fun cid => match sget cid nodes with Some d => [d] | None => [] end) callees.

(** The scan of [edges.items()] for one entity id. *)
Definition caller_data (nodes : sdict entity_data) (edges : sdict (list string))
    (entity_id : string) : list (option entity_data) :=
  fold_left
    (fun callers '(from_id, to_ids) =>
       if existsb (String.eqb entity_id) to_ids
       then callers ++ [sget from_id nodes] else callers)
    edges [].

Definition query_ccg (ccg : ccg_dict) (query_type entity_name : string) : query_result :=
  let nodes := d_nodes ccg in
  let edges := d_edges ccg in
  match matching_entities nodes entity_name with
  | [] => QError ("Entity " +++ dquote +++ entity_name +++ dquote +++ " not found")
  | matching =>
      QResults
        (fold_left
           (fun results '(entity_id, data) =>
              if String.eqb query_type "info" then results ++ [BInfo data]
              else if String.eqb query_type "callees" then
                let callees := sget_default entity_id edges [] in
                results ++ [BCallees data (callee_data nodes callees)]
              else if String.eqb query_type "callers" then
                results ++ [BCallers data (caller_data nodes edges entity_id)]
              else results)
           matching [])
  end.

(** ** The source extractor ([parser_engine.py])

    [re.findall] and [ast.parse] belong to the Python library.  The
    extractors are written over them as parameters; [Regex] below is an
    executable model of [re.findall] for the patterns of this file, used to
    run the extractors on concrete text. *)

Module Regex.

Definition code_in (lo hi : nat) (c : ascii) : bool :=
  Nat.leb lo (nat_of_ascii c) && Nat.leb (nat_of_ascii c) hi.

(** [\s] and [\w] on the characters below 128. *)
Definition is_space (c : ascii) : bool := code_in 9 13 c || code_in 28 32 c.
Definition is_word (c : ascii) : bool :=
  code_in 48 57 c || code_in 65 90 c || code_in 97 122 c || Ascii.eqb c "_".
Definition is_char (x c : ascii) : bool := Ascii.eqb x c.
Definition not_char (x c : ascii) : bool := negb (Ascii.eqb x c).

(** The pattern language the file uses.  Every group of the file has the
    form [(class+)]. *)
Inductive item :=
  | Lit (s : string)
  | Boundary
  | One (p : ascii -> bool)
  | Opt (p : ascii -> bool)
  | Many (p : ascii -> bool) (min : nat) (greedy : bool)
  | Capture (p : ascii -> bool).

(** Length of the longest prefix of [s] made of [p] characters. *)
Fixpoint run (p : ascii -> bool) (s : string) : nat :=
  match s with
  | String c s' => if p c then S (run p s') else 0
  | EmptyString => 0
  end.

(** The repetition counts a quantifier tries, in the order it tries them. *)
Definition counts (min max : nat) (greedy : bool) : list nat :=
  let up := seq min (S max - min) in
  if greedy then rev up else up.

Definition last_char (prev : option ascii) (n : nat) (s : string) : option ascii :=
  match n with
  | O => prev
  | S k => match String.get k s with Some c => Some c | None => prev end
  end.

Definition word_at (c : option ascii) : bool :=
  match c with Some c => is_word c | None => false end.

Definition head (s : string) : option ascii :=
  match s with String c _ => Some c | EmptyString => None end.

(** All the ways [items] match a prefix of [s], in the order a
    backtracking matcher finds them: the captured text and the number of
    characters consumed.  [prev] is the character before [s]. *)
Fixpoint matches (items : list item) (prev : option ascii) (s cap : string)
    : list (string * nat) :=
  match items with
  | [] => [(cap, 0)]
  | Lit l :: r =>
      if String.prefix l s
      then map (fun '(c, n) => (c, String.length l + n))
             (matches r (last_char prev (String.length l) s)
                (drop (String.length l) s) cap)
      else []
  | Boundary :: r =>
      if xorb (word_at prev) (word_at (head s)) then matches r prev s cap else []
  | One p :: r =>
      match s with
      | String c s' =>
          if p c then map (fun '(c', n) => (c', 1 + n)) (matches r (Some c) s' cap)
          else []
      | EmptyString => []
      end
  | Opt p :: r =>
      match s with
      | String c s' =>
          (if p c then map (fun '(c', n) => (c', 1 + n)) (matches r (Some c) s' cap)
           else [])
          ++ matches r prev s cap
      | EmptyString => matches r prev s cap
      end
  | Many p min greedy :: r =>
      flat_map
        (fun k => map (fun '(c, n) => (c, k + n))
                    (matches r (last_char prev k s) (drop k s) cap))
        (counts min (run p s) greedy)
  | Capture p :: r =>
      flat_map
        (fun k => map (fun '(c, n) => (c, k + n))
                    (matches r (last_char prev k s) (drop k s) (take k s)))
        (counts 1 (run p s) true)
  end.

(** [re.findall] for a pattern with one group that cannot match the empty
    string: scan from the left, resume after each match. *)
Fixpoint findall_from (items : list item) (prev : option ascii) (s : string)
    (skip : nat) : list string :=
  match s with
  | EmptyString => []
  | String c s' =>
      match skip with
      | S k => findall_from items (Some c) s' k
      | O =>
          match matches items prev s EmptyString with
          | (cap, n) :: _ => cap :: findall_from items (Some c) s' (n - 1)
          | [] => findall_from items (Some c) s' 0
          end
      end
  end.

Definition findall (items : list item) (s : string) : list string :=
  findall_from items None s 0.

Definition keyword (kw : string) : list item :=
  [Boundary; Lit kw; Many is_space 1 true; Capture is_word].

Definition is_quote (c : ascii) : bool := Ascii.eqb c "'" || Ascii.eqb c "034".

(** The patterns of [parser_engine.py], by their source text. *)
Definition patterns : list (string * list item) :=
  [ ("\bfunction\s+(\w+)", keyword "function");
    ("\bconst\s+(\w+)\s*=\s*\([^)]*\)\s*=>",
     keyword "const"
     ++ [Many is_space 0 true; Lit "="; Many is_space 0 true; Lit "(";
         Many (not_char ")") 0 true; Lit ")"; Many is_space 0 true; Lit "=>"]);
    ("\bclass\s+(\w+)", keyword "class");
    ("import\s+.*?from\s+[\'" +++ dquote +++ "]([^\'" +++ dquote +++ "]+)[\'"
       +++ dquote +++ "]",
     [Lit "import"; Many is_space 1 true; Many (not_char "010") 0 false;
      Lit "from"; Many is_space 1 true; One is_quote;
      Capture (fun c => negb (is_quote c)); One is_quote]);
    ("require\([\'" +++ dquote +++ "]([^\'" +++ dquote +++ "]+)[\'" +++ dquote
       +++ "]\)",
     [Lit "require("; One is_quote; Capture (fun c => negb (is_quote c));
      One is_quote; Lit ")"]);
    ("\bfn\s+(\w+)", keyword "fn");
    ("\bstruct\s+(\w+)", keyword "struct");
    ("\benum\s+(\w+)", keyword "enum");
    ("\btrait\s+(\w+)", keyword "trait");
    ("use\s+([^;]+);",
     [Lit "use"; Many is_space 1 true; Capture (not_char ";"); Lit ";"]);
    ("\bwalker\s+(\w+)\s*[{:]?",
     keyword "walker" ++ [Many is_space 0 true;
                          Opt (fun c => is_char "{" c || is_char ":" c)]);
    ("\bnode\s+(\w+)\s*[{:]?",
     keyword "node" ++ [Many is_space 0 true;
                        Opt (fun c => is_char "{" c || is_char ":" c)]);
    ("\benum\s+(\w+)\s*[{:]?",
     keyword "enum" ++ [Many is_space 0 true;
                        Opt (fun c => is_char "{" c || is_char ":" c)]);
    ("\bcan\s+(\w+)\s+with",
     keyword "can" ++ [Many is_space 1 true; Lit "with"]);
    ("\bglob\s+(\w+)\s*=",
     keyword "glob" ++ [Many is_space 0 true; Lit "="]);
    ("import:py\s+from\s+(\w+)",
     [Lit "import:py"; Many is_space 1 true; Lit "from"; Many is_space 1 true;
      Capture is_word]);
    ("import:jac\s+from\s+(\w+)",
     [Lit "import:jac"; Many is_space 1 true; Lit "from"; Many is_space 1 true;
      Capture is_word]);
    ("import\s+from\s+[\w.]+\s*{\s*([^}]+)\s*}",
     [Lit "import"; Many is_space 1 true; Lit "from"; Many is_space 1 true;
      Many (fun c => is_word c || is_char "." c) 1 true; Many is_space 0 true;
      Lit "{"; Many is_space 0 true; Capture (not_char "}");
      Many is_space 0 true; Lit "}"]);
    ("\bedge\s+(\w+)", keyword "edge") ].

(** [re.findall(pattern, text)] on the patterns above. *)
Definition re_findall (pattern text : string) : list string :=
  match PyDict.get String.eqb pattern patterns with
  | Some items => findall items text
  | None => []
  end.

End Regex.

(** The part of a Python syntax tree the extractor looks at. *)
#[warnings="-register-all"]
Inductive py_ast :=
  | FunctionDef (name : string) (body : list py_ast)
  | ClassDef (name : string) (body : list py_ast)
  | Import (names : list string)
  | ImportFrom (module : option string)
  | OtherNode (children : list py_ast).

Definition ast_children (t : py_ast) : list py_ast :=
  match t with
  | FunctionDef _ body | ClassDef _ body | OtherNode body => body
  | Import _ | ImportFrom _ => []
  end.

Fixpoint ast_size (t : py_ast) : nat :=
  match t with
  | FunctionDef _ body | ClassDef _ body | OtherNode body =>
      S (fold_right (fun c acc => ast_size c + acc) 0 body)
  | Import _ | ImportFrom _ => 1
  end.

(** [ast.walk]: breadth first, from a queue; [fuel] bounds the nodes taken. *)
Fixpoint walk_queue (fuel : nat) (queue : list py_ast) : list py_ast :=
  match fuel, queue with
  | S f, node :: rest => node :: walk_queue f (rest ++ ast_children node)
  | _, _ => []
  end.

Definition ast_walk (tree : py_ast) : list py_ast :=
  walk_queue (ast_size tree) [tree].

(** What [ast.parse] does with a text. *)
Inductive parse_outcome :=
  | Parsed (tree : py_ast)
  | SyntaxError (message : string)
  | OtherException (message : string).

Section Extractor.
Context {SO : SetOrder}.
Variable re_findall : string -> string -> list string.
Variable ast_parse : string -> parse_outcome.

(** [list(set(l))] *)
Definition list_set (l : list string) : list string := set_iter l.

(** [inl] is an exception leaving the function. *)
Definition parse_python (code : string) : string + parsed_file :=
  match ast_parse code with
  | Parsed tree =>
      let funcs :=
        flat_map (fun n => match n with FunctionDef name _ => [name] | _ => [] end)
          (ast_walk tree) in
      let classes :=
        flat_map (fun n => match n with ClassDef name _ => [name] | _ => [] end)
          (ast_walk tree) in
      let imports :=
        fold_left
          (fun imports node =>
             match node with
             | Import names => imports ++ names
             | ImportFrom (Some module) =>
                 if truthy module then imports ++ [module] else imports
             | _ => imports
             end)
          (ast_walk tree) [] in
      inr (mk_parsed_file "" "python" None funcs classes [] [] [] [] [] [] [] []
             imports (Some code))
  | SyntaxError e =>
      inr (mk_parsed_file "" "python" (Some ("Parse error: " +++ e))
             [] [] [] [] [] [] [] [] [] [] [] (Some code))
  | OtherException e => inl e
  end.

Definition parse_javascript (code : string) : parsed_file :=
  let funcs := re_findall "\bfunction\s+(\w+)" code in
  let arrow_funcs := re_findall "\bconst\s+(\w+)\s*=\s*\([^)]*\)\s*=>" code in
  let funcs := funcs ++ arrow_funcs in
  let classes := re_findall "\bclass\s+(\w+)" code in
  let imports :=
    re_findall ("import\s+.*?from\s+[\'" +++ dquote +++ "]([^\'" +++ dquote
                  +++ "]+)[\'" +++ dquote +++ "]") code in
  let imports :=
    imports ++ re_findall ("require\([\'" +++ dquote +++ "]([^\'" +++ dquote
                             +++ "]+)[\'" +++ dquote +++ "]\)") code in
  mk_parsed_file "" "javascript" None (list_set funcs) (list_set classes)
    [] [] [] [] [] [] [] [] (list_set imports) (Some code).

Definition parse_rust (code : string) : parsed_file :=
  let funcs := re_findall "\bfn\s+(\w+)" code in
  let structs := re_findall "\bstruct\s+(\w+)" code in
  let enums := re_findall "\benum\s+(\w+)" code in
  let traits := re_findall "\btrait\s+(\w+)" code in
  let imports := re_findall "use\s+([^;]+);" code in
  mk_parsed_file "" "rust" None (list_set funcs) [] (list_set structs)
    (list_set enums) (list_set traits) [] [] [] [] [] imports (Some code).

Definition parse_jac (content : string) : parsed_file :=
  let walkers := re_findall "\bwalker\s+(\w+)\s*[{:]?" content in
  let nodes := re_findall "\bnode\s+(\w+)\s*[{:]?" content in
  let enums := re_findall "\benum\s+(\w+)\s*[{:]?" content in
  let abilities := re_findall "\bcan\s+(\w+)\s+with" content in
  let globals_vars := re_findall "\bglob\s+(\w+)\s*=" content in
  let imports := re_findall "import:py\s+from\s+(\w+)" content in
  let imports := imports ++ re_findall "import:jac\s+from\s+(\w+)" content in
  let imports :=
    imports ++ re_findall "import\s+from\s+[\w.]+\s*{\s*([^}]+)\s*}" content in
  let edges := re_findall "\bedge\s+(\w+)" content in
  mk_parsed_file "" "jac" None [] [] [] (list_set enums) [] (list_set walkers)
    (list_set nodes) (list_set abilities) (list_set globals_vars) (list_set edges)
    imports (Some content).

Definition parse_generic (content : string) : parsed_file :=
  mk_parsed_file "" "unknown" None [] [] [] [] [] [] [] [] [] [] []
    (Some (take 500 content)).

(** [ext] is the suffix of the path; [file] is the text read from it, or
    the message of the exception raised while reading. *)
Definition parse_source_file (ext : string) (file : string + string) : parsed_file :=
  let error_record e :=
    mk_parsed_file "" "error" (Some e) [] [] [] [] [] [] [] [] [] [] [] (Some "") in
  match file with
  | inl e => error_record e
  | inr code =>
      if String.eqb ext ".py" then
        match parse_python code with
        | inr r => r
        | inl e => error_record e
        end
      else if String.eqb ext ".js" then parse_javascript code
      else if String.eqb ext ".rs" then parse_rust code
      else if String.eqb ext ".jac" then parse_jac code
      else parse_generic code
  end.

End Extractor.

(** ** What the specification says a query answers

    The three answers of section 4.5, stated separately from the code. *)

(** The records of the ids of [ids] that name a node, in order. *)
Inductive resolved (nodes : sdict entity_data) : list string -> list entity_data -> Prop :=
  | resolved_nil : resolved nodes [] []
  | resolved_hit cid ids d ds :
      sget cid nodes = Some d -> resolved nodes ids ds ->
      resolved nodes (cid :: ids) (d :: ds)
  | resolved_miss cid ids ds :
      sget cid nodes = None -> resolved nodes ids ds ->
      resolved nodes (cid :: ids) ds.

(** The ids whose adjacency list holds [id], in the order of the mapping. *)
Definition spec_pointing_to (edges : sdict (list string)) (id : string) : list string :=
  map fst (filter (fun p => if in_dec string_dec id (snd p) then true else false) edges).

Inductive answers (ccg : ccg_dict) (query_type : string)
    : string * entity_data -> query_block -> Prop :=
  | answers_info id d :
      query_type = "info" -> answers ccg query_type (id, d) (BInfo d)
  | answers_callees id d ds :
      query_type = "callees" ->
      resolved (d_nodes ccg) (sget_default id (d_edges ccg) []) ds ->
      answers ccg query_type (id, d) (BCallees d ds)
  | answers_callers id d :
      query_type = "callers" ->
      answers ccg query_type (id, d)
        (BCallers d (map (fun from_id => sget from_id (d_nodes ccg))
                       (spec_pointing_to (d_edges ccg) id))).

(** ** Auxiliary notions for the statements *)

(** A name without [":"], as every identifier matched by [\w+] is. *)
Fixpoint no_colon (s : string) : bool :=
  match s with
  | EmptyString => true
  | String c s' => negb (Ascii.eqb c ":") && no_colon s'
  end.

(** The kinds written into the id. *)
Definition jac_kind (k : entity_kind) : bool :=
  match k with
  | KNode | KWalker | KAbility => true
  | KFunction | KClass | KStruct => false
  end.

(** The loops of pass 1 for one record, in the order of the code: the kind
    each loop writes and the list it runs over. *)
Definition node_fields (pfile : parsed_file) : list (entity_kind * list string) :=
  if String.eqb (p_type pfile) "python" then
    [(KFunction, p_funcs pfile); (KClass, p_classes pfile)]
  else if String.eqb (p_type pfile) "jac" then
    [(KNode, p_nodes pfile); (KWalker, p_walkers pfile); (KAbility, p_abilities pfile)]
  else if String.eqb (p_type pfile) "javascript" then
    [(KFunction, p_funcs pfile); (KClass, p_classes pfile)]
  else if String.eqb (p_type pfile) "rust" then
    [(KFunction, p_funcs pfile); (KStruct, p_structs pfile)]
  else [].

(** The id without its last colon and the name. *)
Definition kind_stem (k : entity_kind) : string :=
  match k with
  | KNode => "::node" | KWalker => "::walker" | KAbility => "::ability"
  | KFunction | KClass | KStruct => ":"
  end.

(** The calls of [add_node] pass 1 makes for one record, in order. *)
Definition writes_of (pfile : parsed_file) : list (string * entity_data) :=
  if has_error pfile then []
  else
    flat_map
      (fun '(k, names) =>
         map (fun name => (entity_id (p_path pfile) k name,
                           entity_record name k (p_type pfile) (p_path pfile)))
           names)
      (node_fields pfile).

Definition add_nodes (ws : list (string * entity_data)) (g : CodeContextGraph)
    : CodeContextGraph :=
  fold_left (fun g w => add_node (fst w) (snd w) g) ws g.

(** The adjacency test: [to_id] is listed under [from_id]. *)
Definition has_edge (e : sdict (list string)) (from_id to_id : string) : Prop :=
  In to_id (sget_default from_id e []).

(** Following the words of the specification (section 4.3): the substring
    test of pass 2 as the specification describes it.  For a scanning record
    with text and an entity [to_id] of its file, an entity [from_id] of
    another file is linked when the name of [from_id], the candidate, is
    longer than 3 characters and occurs in the text of the scanning file. *)
Definition spec_calls_edge (parsed_files : list parsed_file) (g : CodeContextGraph)
    (from_id to_id : string) : bool :=
  existsb
    (fun pfile =>
       negb (has_error pfile)
       && match p_content pfile with
          | None => false
          | Some content =>
              existsb (String.eqb to_id)
                (sget_default (p_path pfile) (file_entities g) [])
              && existsb
                   (fun '(other_file_path, other_entities) =>
                      negb (String.eqb other_file_path (p_path pfile))
                      && existsb (String.eqb from_id) other_entities)
                   (file_entities g)
              && (let target_name :=
                    match e_name (get_entity from_id g) with Some n => n | None => "" end in
                  Nat.ltb 3 (String.length target_name) && contains target_name content)
          end)
    parsed_files.

(** The name pass 2 reads for an entity id. *)
Definition stored_name (g : CodeContextGraph) (entity_id : string) : string :=
  match e_name (get_entity entity_id g) with Some n => n | None => "" end.

(** The edges one scanning record adds. *)
Definition links (g : CodeContextGraph) (pfile : parsed_file) (f t : string) : Prop :=
  exists content,
    p_content pfile = Some content /\ has_error pfile = false
    /\ In t (sget_default (p_path pfile) (file_entities g) [])
    /\ name_in_content (stored_name g t) content = true
    /\ (exists q others,
          In (q, others) (file_entities g) /\ q <> p_path pfile /\ In f others)
    /\ In f (PyDict.keys (nodes g)) /\ In t (PyDict.keys (nodes g)).

(** Equality of two dictionaries as Python's [==] decides it: the same
    keys with the same values, in whatever order they were inserted. *)
Definition dict_equal {V} (d d' : sdict V) : Prop :=
  NoDup (PyDict.keys d) /\ NoDup (PyDict.keys d')
  /\ forall k, sget k d = sget k d'.

Definition snapshot_equal (ccg ccg' : ccg_dict) : Prop :=
  dict_equal (d_nodes ccg) (d_nodes ccg')
  /\ dict_equal (d_edges ccg) (d_edges ccg')
  /\ dict_equal (d_edge_types ccg) (d_edge_types ccg')
  /\ d_stats ccg = d_stats ccg'.

(** The number of outgoing edges the projector ranks a node by. *)
Definition out_degree (ccg : ccg_dict) (node_id : string) : nat :=
  List.length (sget_default node_id (d_edges ccg) []).

(** No two nodes are equally connected. *)
Definition no_ties (ccg : ccg_dict) : Prop :=
  NoDup (map (out_degree ccg) (PyDict.keys (d_nodes ccg))).

(** The projector's ranking order on the entries of [node_connections]. *)
Definition ranks_before (x y : string * nat) : Prop := snd y < snd x.

(** ** Sample inputs *)

Definition sample_node : entity_data :=
  entity_record "run" KFunction "python" "a.py".

(** A python record with functions [funcs] and, when given, its text. *)
Definition python_file (path : string) (funcs : list string) (content : option string)
    : parsed_file :=
  mk_parsed_file path "python" None funcs [] [] [] [] [] [] [] [] [] [] content.

(** A rust record as [parse_rust] shapes it. *)
Definition rust_file (path : string) (funcs structs enums traits : list string)
    (content : string) : parsed_file :=
  mk_parsed_file path "rust" None funcs [] structs enums traits [] [] [] [] [] []
    (Some content).

(** The two records of the end-to-end scenario of the specification.  The
    scenario gives a text for [main.py] only; the text of [models.py] is a
    parameter. *)
Definition main_py : parsed_file :=
  python_file "main.py" ["run_server"]
    (Some ("def run_server():" +++ nl +++ "    init_app()")).

Definition models_py (content : option string) : parsed_file :=
  python_file "models.py" ["init_app"] content.

Definition scenario_graph : ccg_dict :=
  build_code_context_graph
    [main_py; models_py (Some ("def init_app():" +++ nl +++ "    pass"))].

(** Two python files that do not mention each other. *)
Definition util_py : parsed_file :=
  python_file "util.py" ["helper"] (Some ("def helper():" +++ nl +++ "    return 1")).

Definition core_py : parsed_file :=
  python_file "core.py" ["compute_total"]
    (Some ("def compute_total():" +++ nl +++ "    return 2")).

(** A text with the same [use] statement twice. *)
Definition rust_two_uses : string := "use std::io;" +++ nl +++ "use std::io;".

(** [class A: def run(self): pass] and [class B: def run(self): pass] as
    [ast.parse] returns them. *)
Definition two_methods_code : string :=
  "class A:" +++ nl +++ "    def run(self): pass" +++ nl
  +++ "class B:" +++ nl +++ "    def run(self): pass".

Definition two_methods : py_ast :=
  OtherNode [ClassDef "A" [FunctionDef "run" []]; ClassDef "B" [FunctionDef "run" []]].

Definition queue_size (queue : list py_ast) : nat :=
  fold_right (fun c acc => ast_size c + acc) 0 queue.

(** One snapshot written with its nodes in two insertion orders. *)
Definition snapshot_ab : ccg_dict :=
  mk_ccg_dict
    [("a.py::load", entity_record "load" KFunction "python" "a.py");
     ("b.py::Store", entity_record "Store" KClass "python" "b.py")]
    [("a.py::load", ["b.py::Store"])]
    [("a.py::load->b.py::Store", "calls")]
    (mk_stats 2 1 2 (1, 2)).

Definition snapshot_ba : ccg_dict :=
  mk_ccg_dict
    [("b.py::Store", entity_record "Store" KClass "python" "b.py");
     ("a.py::load", entity_record "load" KFunction "python" "a.py")]
    [("a.py::load", ["b.py::Store"])]
    [("a.py::load->b.py::Store", "calls")]
    (mk_stats 2 1 2 (1, 2)).

(** A rust text and a jac text with every construct the extractors match. *)
Definition rust_sample : string :=
  "use std::io;" +++ nl +++ "pub struct Point { x: i32 }" +++ nl
  +++ "enum Color { Red }" +++ nl +++ "trait Shape { fn area(&self) -> f64; }" +++ nl
  +++ "fn main() { let p = Point { x: 1 }; }" +++ nl +++ "fn main() {}".

Definition jac_sample : string :=
  "import:py from os, path;" +++ nl +++ "import:jac from helpers, x;" +++ nl
  +++ "import from a.b { x, y }" +++ nl +++ "glob counter = 0;" +++ nl
  +++ "enum Mode { A }" +++ nl +++ "edge follows {}" +++ nl
  +++ "node Session { can start with entry {} }" +++ nl
  +++ "walker Session: can visit with Session entry {}".

(** ** Notions for the further properties *)

(** The graphs the class can hold when every edge type passed to
    [add_edge] satisfies [L]: the empty graph and what the two mutators
    make of it. *)
Inductive reachable_with (L : string -> Prop) : CodeContextGraph -> Prop :=
  | reachable_init : reachable_with L ccg_init
  | reachable_add_node id data g :
      reachable_with L g -> reachable_with L (add_node id data g)
  | reachable_add_edge from_id to_id edge_type g :
      L edge_type -> reachable_with L g ->
      reachable_with L (add_edge from_id to_id edge_type g).

(** The graphs the class can hold. *)
Definition reachable (g : CodeContextGraph) : Prop := reachable_with (fun _ => True) g.

(** The key [to_dict] gives the type of the edge [(from, to)]. *)
Definition flat_key (k : string * string) : string := fst k +++ "->" +++ snd k.

(** What the four dictionaries of a graph have to do with each other. *)
Record consistent (g : CodeContextGraph) : Prop := mk_consistent {
  nodes_unique : NoDup (PyDict.keys (nodes g));
  edges_unique : NoDup (PyDict.keys (edges g));
  files_unique : NoDup (PyDict.keys (file_entities g));
  edge_ends : forall f t, has_edge (edges g) f t ->
      In f (PyDict.keys (nodes g)) /\ In t (PyDict.keys (nodes g));
  edge_labelled : forall f t, has_edge (edges g) f t <->
      exists ty, PyDict.get pair_eqb (f, t) (edge_types g) = Some ty;
  adjacency_filled : forall f tos, In (f, tos) (edges g) -> tos <> [];
  file_listed : forall p ids, In (p, ids) (file_entities g) ->
      p <> "" /\ ids <> [] /\ forall id, In id ids -> In id (PyDict.keys (nodes g))
}.


(** A block of a query answer that lost nothing: every id of the adjacency
    list has its record in [calls], no entry of [called_by] is [None]. *)
Definition complete_block (ccg : ccg_dict) (b : query_block) : Prop :=
  match b with
  | BInfo _ => True
  | BCallees d ds =>
      exists id, sget id (d_nodes ccg) = Some d
                 /\ List.length ds = List.length (sget_default id (d_edges ccg) [])
  | BCallers _ os => Forall (fun o => o <> None) os
  end.


(** The blocks [query_ccg] appends for one matching entity. *)
Definition answer_blocks (ccg : ccg_dict) (query_type : string)
    (m : string * entity_data) : list query_block :=
  let '(entity_id, data) := m in
  if String.eqb query_type "info" then [BInfo data]
  else if String.eqb query_type "callees" then
    [BCallees data (callee_data (d_nodes ccg) (sget_default entity_id (d_edges ccg) []))]
  else if String.eqb query_type "callers" then
    [BCallers data (caller_data (d_nodes ccg) (d_edges ccg) entity_id)]
  else [].

(** The graph object at the end of [build_code_context_graph], before
    [to_dict]. *)
Definition built_graph (parsed_files : list parsed_file) : CodeContextGraph :=
  pass2 parsed_files (pass1 parsed_files ccg_init).


(** The records of the example at the end of [ccg_builder.py]: no record
    carries a text. *)
Definition sample_parsed_files : list parsed_file :=
  [ mk_parsed_file "main.py" "python" None ["main"; "init_app"; "run_server"]
      ["Application"] [] [] [] [] [] [] [] [] [] None;
    mk_parsed_file "models.py" "python" None ["load_model"; "save_model"]
      ["Model"; "Dataset"] [] [] [] [] [] [] [] [] [] None ].

(** The file path a write of pass 1 carries. *)
Definition write_path (w : string * entity_data) : string :=
  match e_file_path (snd w) with Some p => p | None => "" end.


(** The pairs the inner loop of the second loop of the projector emits for
    one [from_id], given the pairs emitted before. *)
Fixpoint new_pairs (top : list string) (from_id : string) (to_ids : list string)
    (added : list (string * string)) : list (string * string) :=
  match to_ids with
  | [] => []
  | to_id :: rest =>
      if existsb (String.eqb to_id) top
         && negb (existsb (pair_eqb (from_id, to_id)) added)
      then (from_id, to_id) :: new_pairs top from_id rest ((from_id, to_id) :: added)
      else new_pairs top from_id rest added
  end.

(** The pairs the whole second loop emits. *)
Fixpoint all_pairs (edges : sdict (list string)) (top ids : list string)
    (added : list (string * string)) : list (string * string) :=
  match ids with
  | [] => []
  | from_id :: rest =>
      let ps := new_pairs top from_id (sget_default from_id edges []) added in
      ps ++ all_pairs edges top rest (rev ps ++ added)
  end.

Definition pair_line (p : string * string) : string := edge_line (fst p) (snd p).

(** The ranking of the projector, ties allowed. *)
Definition ranks_not_after (x y : string * nat) : Prop := snd y <= snd x.

(** The number of elements of the slice [l[:n]] of a list of [len]. *)
Definition slice_length (n : Z) (len : nat) : nat :=
  if (0 <=? n)%Z then Nat.min (Z.to_nat n) len else len - Z.to_nat (- n).

(** Pass 1 wrote the id [id] for a record of path [p]. *)
Definition written (parsed_files : list parsed_file) (id p : string) : Prop :=
  exists w, In w (flat_map writes_of parsed_files) /\ fst w = id /\ write_path w = p.

(** [parsed['path'] = ...] of [summarize_repo]: the record with its path
    set. *)
Definition with_path (path : string) (r : parsed_file) : parsed_file :=
  mk_parsed_file path (p_type r) (p_error r) (p_funcs r) (p_classes r) (p_structs r)
    (p_enums r) (p_traits r) (p_walkers r) (p_nodes r) (p_abilities r) (p_globals r)
    (p_edges r) (p_imports r) (p_content r).

(** The runs of [parse_source_file] that end in an error record: reading the
    file raised, or [ast.parse] did not return a tree for a [.py] file. *)
Definition extraction_failed (ast_parse : string -> parse_outcome)
    (ext : string) (file : string + string) : Prop :=
  match file with
  | inl _ => True
  | inr code => ext = ".py" /\ forall tree, ast_parse code <> Parsed tree
  end.

(** Every node of a tree, the tree itself first. *)
Fixpoint ast_nodes (t : py_ast) : list py_ast :=
  t :: match t with
       | FunctionDef _ body | ClassDef _ body | OtherNode body => flat_map ast_nodes body
       | Import _ | ImportFrom _ => []
       end.

(** The two filters of [parse_python]. *)
Definition function_name (n : py_ast) : list string :=
  match n with FunctionDef name _ => [name] | _ => [] end.

Definition class_name (n : py_ast) : list string :=
  match n with ClassDef name _ => [name] | _ => [] end.

(** The ids pass 1 writes for a jac record, loop after loop. *)
Definition jac_ids (r : parsed_file) : list string :=
  map (entity_id (p_path r) KNode) (p_nodes r)
  ++ map (entity_id (p_path r) KWalker) (p_walkers r)
  ++ map (entity_id (p_path r) KAbility) (p_abilities r).

(** [c in s] for a single character. *)
Fixpoint has_char (c : ascii) (s : string) : bool :=
  match s with
  | EmptyString => false
  | String x s' => Ascii.eqb c x || has_char c s'
  end.

(** No name of a record holds a colon, as it is for names matched by
    [\w+] and for Python identifiers. *)
Definition clean_names (parsed_files : list parsed_file) : Prop :=
  forall r k names name,
    In r parsed_files -> In (k, names) (node_fields r) -> In name names ->
    no_colon name = true.

(** * Properties *)

(** ** Dictionaries *)

Module PyDictFacts.
Section Facts.
Variables K V : Type.
Variable eqb : K -> K -> bool.
Hypothesis eqb_eq : forall a b, eqb a b = true <-> a = b.

Local Abbreviation get := (PyDict.get eqb).
Local Abbreviation set := (PyDict.set eqb).
Local Abbreviation keys := (@PyDict.keys K V).

Lemma eqb_refl k : eqb k k = true.
Proof. now apply eqb_eq. Qed.

Lemma eqb_neq a b : a <> b -> eqb a b = false.
Proof.
  intros Hne. destruct (eqb a b) eqn:E; [|reflexivity].
  apply eqb_eq in E. contradiction.
Qed.

Lemma get_set_eq k v (d : PyDict.t K V) : get k (set k v d) = Some v.
Proof.
  induction d as [|[k' v'] d IH]; simpl.
  - now rewrite eqb_refl.
  - destruct (eqb k' k) eqn:E; simpl; rewrite E; [reflexivity | exact IH].
Qed.

Lemma get_set_ne k k' v (d : PyDict.t K V) :
  k <> k' -> get k' (set k v d) = get k' d.
Proof.
  intros Hne. induction d as [|[k0 v0] d IH]; simpl.
  - now rewrite (eqb_neq Hne).
  - destruct (eqb k0 k) eqn:E; simpl.
    + apply eqb_eq in E. subst k0. now rewrite (eqb_neq Hne).
    + now rewrite IH.
Qed.

Lemma get_Some_In k v (d : PyDict.t K V) : get k d = Some v -> In (k, v) d.
Proof.
  induction d as [|[k' v'] d IH]; simpl; [discriminate|].
  destruct (eqb k' k) eqn:E.
  - apply eqb_eq in E. intros [= ->]. subst. now left.
  - intros H. right. now apply IH.
Qed.

Lemma get_None_keys k (d : PyDict.t K V) : get k d = None <-> ~ In k (keys d).
Proof.
  induction d as [|[k' v'] d IH]; simpl.
  - tauto.
  - destruct (eqb k' k) eqn:E.
    + apply eqb_eq in E. split; [discriminate | intros H; exfalso; apply H; now left].
    + rewrite IH. split.
      * intros H [H1 | H1]; [|tauto]. subst. now rewrite eqb_refl in E.
      * tauto.
Qed.

Lemma mem_keys k (d : PyDict.t K V) : PyDict.mem eqb k d = true <-> In k (keys d).
Proof.
  unfold PyDict.mem. destruct (get k d) eqn:E.
  - split; [|reflexivity]. intros _. apply get_Some_In in E.
    apply (in_map fst) in E. exact E.
  - apply get_None_keys in E. split; [discriminate | contradiction].
Qed.

Lemma keys_set_present k v (d : PyDict.t K V) :
  In k (keys d) -> keys (set k v d) = keys d.
Proof.
  induction d as [|[k' v'] d IH]; simpl; [contradiction|].
  intros H. destruct (eqb k' k) eqn:E; simpl; [reflexivity|].
  f_equal. apply IH. destruct H as [H | H]; [|exact H].
  subst. now rewrite eqb_refl in E.
Qed.

Lemma set_absent k v (d : PyDict.t K V) : ~ In k (keys d) -> set k v d = d ++ [(k, v)].
Proof.
  induction d as [|[k' v'] d IH]; simpl; [reflexivity|].
  intros H. destruct (eqb k' k) eqn:E.
  - apply eqb_eq in E. exfalso. apply H. now left.
  - f_equal. apply IH. tauto.
Qed.

Lemma keys_set_incl k v (d : PyDict.t K V) k' :
  In k' (keys (set k v d)) <-> k' = k \/ In k' (keys d).
Proof.
  induction d as [|[k0 v0] d IH]; simpl.
  - intuition.
  - destruct (eqb k0 k) eqn:E; simpl.
    + apply eqb_eq in E. subst. intuition.
    + rewrite IH. intuition.
Qed.

Lemma keys_set_NoDup k v (d : PyDict.t K V) : NoDup (keys d) -> NoDup (keys (set k v d)).
Proof.
  induction d as [|[k0 v0] d IH]; simpl; intros H.
  - constructor; [tauto | constructor].
  - inversion H; subst. destruct (eqb k0 k) eqn:E; simpl.
    + now constructor.
    + constructor; [|now apply IH].
      rewrite keys_set_incl. intros [-> | Hin]; [|contradiction].
      now rewrite eqb_refl in E.
Qed.

Lemma In_get_NoDup k v (d : PyDict.t K V) :
  NoDup (keys d) -> In (k, v) d -> get k d = Some v.
Proof.
  induction d as [|[k0 v0] d IH]; simpl; [contradiction|].
  intros Hnd [H | H].
  - inversion H; subst. now rewrite eqb_refl.
  - inversion Hnd; subst. destruct (eqb k0 k) eqn:E.
    + apply eqb_eq in E. subst. exfalso. apply H2.
      apply (in_map fst) in H. exact H.
    + now apply IH.
Qed.

End Facts.
End PyDictFacts.

Lemma pair_eqb_eq (a b : string * string) : pair_eqb a b = true <-> a = b.
Proof.
  destruct a as [a1 a2], b as [b1 b2]. unfold pair_eqb. simpl.
  rewrite andb_true_iff, !String.eqb_eq. split; [intros [-> ->] | intros [= -> ->]]; auto.
Qed.

(** The string-keyed instances used below. *)
Section StringKeys.
Variable V : Type.
Implicit Types (d : sdict V) (k : string).

Lemma sget_sset_eq k v d : sget k (sset k v d) = Some v.
Proof. apply PyDictFacts.get_set_eq, String.eqb_eq. Qed.

Lemma sget_sset_ne k k' v d : k <> k' -> sget k' (sset k v d) = sget k' d.
Proof. apply PyDictFacts.get_set_ne, String.eqb_eq. Qed.

Lemma smem_keys k d : smem k d = true <-> In k (PyDict.keys d).
Proof. apply PyDictFacts.mem_keys, String.eqb_eq. Qed.

Lemma smem_false_keys k d : smem k d = false <-> ~ In k (PyDict.keys d).
Proof. rewrite <- smem_keys. destruct (smem k d); intuition congruence. Qed.

Lemma sset_keys_present k v d : In k (PyDict.keys d) -> PyDict.keys (sset k v d) = PyDict.keys d.
Proof. apply PyDictFacts.keys_set_present, String.eqb_eq. Qed.

Lemma sset_keys k v d k' :
  In k' (PyDict.keys (sset k v d)) <-> k' = k \/ In k' (PyDict.keys d).
Proof. apply PyDictFacts.keys_set_incl, String.eqb_eq. Qed.

Lemma sset_NoDup k v d : NoDup (PyDict.keys d) -> NoDup (PyDict.keys (sset k v d)).
Proof. apply PyDictFacts.keys_set_NoDup, String.eqb_eq. Qed.

Lemma sget_In k v d : sget k d = Some v -> In (k, v) d.
Proof. apply PyDictFacts.get_Some_In, String.eqb_eq. Qed.

Lemma sget_None k d : sget k d = None <-> ~ In k (PyDict.keys d).
Proof. apply PyDictFacts.get_None_keys, String.eqb_eq. Qed.

Lemma In_sget k v d : NoDup (PyDict.keys d) -> In (k, v) d -> sget k d = Some v.
Proof. apply PyDictFacts.In_get_NoDup, String.eqb_eq. Qed.

End StringKeys.

Lemma sappend_get_eq k x d : sget k (sappend k x d) = Some (sget_default k d [] ++ [x]).
Proof. unfold sappend. apply sget_sset_eq. Qed.

Lemma sappend_get_ne k k' x d : k <> k' -> sget k' (sappend k x d) = sget k' d.
Proof. unfold sappend. apply sget_sset_ne. Qed.

(** ** The entity graph *)

(** C6. [add_edge] leaves the whole graph as it is when [from_id] or [to_id]
    is not a node.  When both are nodes it appends [to_id] to the adjacency
    list of [from_id] and sets the entry [(from_id, to_id)] of the type
    index; the nodes, the file index and every other entry stay. *)
Theorem add_edge_spec (g : CodeContextGraph) (from_id to_id edge_type : string) :
  (~ In from_id (PyDict.keys (nodes g)) \/ ~ In to_id (PyDict.keys (nodes g)) ->
   add_edge from_id to_id edge_type g = g)
  /\
  (In from_id (PyDict.keys (nodes g)) -> In to_id (PyDict.keys (nodes g)) ->
   let g' := add_edge from_id to_id edge_type g in
   nodes g' = nodes g
   /\ file_entities g' = file_entities g
   /\ sget from_id (edges g') = Some (sget_default from_id (edges g) [] ++ [to_id])
   /\ (forall k, k <> from_id -> sget k (edges g') = sget k (edges g))
   /\ PyDict.get pair_eqb (from_id, to_id) (edge_types g') = Some edge_type
   /\ (forall p, p <> (from_id, to_id) ->
       PyDict.get pair_eqb p (edge_types g') = PyDict.get pair_eqb p (edge_types g))).
Proof.
  split.
  - intros H. unfold add_edge.
    destruct H as [H | H]; apply smem_false_keys in H; rewrite H;
      [reflexivity | now rewrite andb_false_r].
  - intros Hf Ht. unfold add_edge.
    apply smem_keys in Hf, Ht. rewrite Hf, Ht. cbn.
    repeat split.
    + apply sappend_get_eq.
    + intros k Hk. apply sappend_get_ne. congruence.
    + apply PyDictFacts.get_set_eq, pair_eqb_eq.
    + intros p Hp. apply PyDictFacts.get_set_ne; [apply pair_eqb_eq | congruence].
Qed.

Lemma add_edge_spec_witness :
  add_edge "a.py::run" "b.py::missing" "calls" (add_node "a.py::run" sample_node ccg_init)
  = add_node "a.py::run" sample_node ccg_init.
Proof.
  apply (proj1 (add_edge_spec (add_node "a.py::run" sample_node ccg_init)
                  "a.py::run" "b.py::missing" "calls")).
  right. vm_compute. intros [H | []]. discriminate H.
Defined.

(** C10. [add_node] on an id that is already a node, with a non-empty
    [file_path], replaces the stored record and adds no node, and it appends
    the id to the bucket of that file once more: an id already in the bucket
    is then listed at least twice. *)
Theorem add_node_again (g : CodeContextGraph) (id : string) (data : entity_data)
    (file_path : string) :
  e_file_path data = Some file_path ->
  file_path <> "" ->
  In id (PyDict.keys (nodes g)) ->
  let g' := add_node id data g in
  let bucket := sget_default file_path (file_entities g) [] in
  sget id (nodes g') = Some data
  /\ PyDict.keys (nodes g') = PyDict.keys (nodes g)
  /\ sget file_path (file_entities g') = Some (bucket ++ [id])
  /\ (In id bucket ->
      2 <= count_occ string_dec (sget_default file_path (file_entities g') []) id).
Proof.
  intros Hfp Hne Hin. unfold add_node. rewrite Hfp.
  destruct file_path as [|c fp]; [congruence|]. cbn [truthy nodes file_entities].
  repeat split.
  - apply sget_sset_eq.
  - now apply sset_keys_present.
  - apply sappend_get_eq.
  - intros Hb. unfold sget_default at 1, PyDict.get_default.
    fold (@sget (list string)). rewrite sappend_get_eq.
    rewrite count_occ_app. cbn. destruct (string_dec id id); [|congruence].
    apply (count_occ_In string_dec) in Hb. lia.
Qed.

Lemma add_node_again_witness :
  let g := add_node "a.py::run" sample_node ccg_init in
  sget "a.py" (file_entities (add_node "a.py::run" sample_node g))
  = Some ["a.py::run"; "a.py::run"].
Proof.
  intros g.
  destruct (@add_node_again g "a.py::run" sample_node "a.py") as (_ & _ & H & _).
  - reflexivity.
  - discriminate.
  - vm_compute. now left.
  - exact H.
Defined.

(** ** The graph query *)

Lemma fold_left_snoc {A B} (f : A -> list B) (l : list A) (acc : list B) :
  fold_left (fun acc x => acc ++ f x) l acc = acc ++ flat_map f l.
Proof.
  revert acc. induction l as [|x l IH]; intros acc; simpl.
  - now rewrite app_nil_r.
  - now rewrite IH, app_assoc.
Qed.

Lemma fold_left_pointwise {A B} (f g : A -> B -> A) (l : list B) (a : A) :
  (forall a x, f a x = g a x) -> fold_left f l a = fold_left g l a.
Proof.
  intros H. revert a. induction l as [|x l IH]; intros a; simpl; [reflexivity|].
  now rewrite H, IH.
Qed.

Lemma existsb_eqb_in_dec (id : string) (l : list string) :
  existsb (String.eqb id) l = if in_dec string_dec id l then true else false.
Proof.
  destruct (in_dec string_dec id l) as [H | H].
  - apply existsb_exists. exists id. split; [exact H | apply String.eqb_refl].
  - destruct (existsb (String.eqb id) l) eqn:E; [|reflexivity].
    apply existsb_exists in E. destruct E as (x & Hx & E).
    apply String.eqb_eq in E. subst. contradiction.
Qed.

Lemma caller_data_spec nodes edges id :
  caller_data nodes edges id
  = map (fun from_id => sget from_id nodes) (spec_pointing_to edges id).
Proof.
  unfold caller_data, spec_pointing_to.
  enough (H : forall acc,
             fold_left
               (fun callers '(from_id, to_ids) =>
                  if existsb (String.eqb id) to_ids
                  then callers ++ [sget from_id nodes] else callers)
               edges acc
             = acc ++ map (fun from_id => sget from_id nodes)
                        (map fst (filter (fun p => if in_dec string_dec id (snd p)
                                                   then true else false) edges)))
    by apply (H []).
  induction edges as [|[f tos] edges IH]; intros acc; simpl.
  - now rewrite app_nil_r.
  - rewrite IH, existsb_eqb_in_dec.
    destruct (in_dec string_dec id tos); simpl; [|reflexivity].
    now rewrite <- app_assoc.
Qed.

Lemma callee_data_resolved nodes ids : resolved nodes ids (callee_data nodes ids).
Proof.
  induction ids as [|cid ids IH]; simpl; [constructor|].
  destruct (sget cid nodes) eqn:E; simpl.
  - now apply resolved_hit.
  - now apply resolved_miss.
Qed.

Lemma matching_entities_In nodes name id d :
  In (id, d) (matching_entities nodes name) <-> In (id, d) nodes /\ e_name d = Some name.
Proof.
  unfold matching_entities. rewrite filter_In.
  unfold option_string_eqb. destruct (e_name d) as [n|].
  - rewrite String.eqb_eq. intuition congruence.
  - intuition congruence.
Qed.

Lemma query_blocks ccg query_type ms :
  query_type = "info" \/ query_type = "callees" \/ query_type = "callers" ->
  Forall2 (answers ccg query_type) ms
    (flat_map
       (fun '(entity_id, data) =>
          if String.eqb query_type "info" then [BInfo data]
          else if String.eqb query_type "callees" then
            [BCallees data
               (callee_data (d_nodes ccg) (sget_default entity_id (d_edges ccg) []))]
          else if String.eqb query_type "callers" then
            [BCallers data (caller_data (d_nodes ccg) (d_edges ccg) entity_id)]
          else [])
       ms).
Proof.
  intros Hq. induction ms as [|[id d] ms IH]; simpl; [constructor|].
  destruct Hq as [-> | [-> | ->]]; simpl; constructor; try assumption.
  - now constructor.
  - constructor; [reflexivity | apply callee_data_resolved].
  - rewrite caller_data_spec. now constructor.
Qed.

(** C9. For the three query kinds, [query_ccg] answers with the error shape,
    whose message quotes the queried name, exactly when no node carries that
    name.  Otherwise it answers with one block per node of that name, in the
    order of the node mapping: the node's record for [info]; the record and
    the records of the ids of its adjacency list that are nodes for
    [callees]; the record and, for each id whose adjacency list holds the
    node's id, the lookup of that id among the nodes for [callers]. *)
Theorem query_ccg_spec (ccg : ccg_dict) (query_type entity_name : string) :
  query_type = "info" \/ query_type = "callees" \/ query_type = "callers" ->
  let matching := matching_entities (d_nodes ccg) entity_name in
  let not_found := QError ("Entity " +++ dquote +++ entity_name +++ dquote +++ " not found") in
  (forall id d, In (id, d) matching <-> In (id, d) (d_nodes ccg) /\ e_name d = Some entity_name)
  /\ ((forall id d, In (id, d) (d_nodes ccg) -> e_name d <> Some entity_name) <->
      query_ccg ccg query_type entity_name = not_found)
  /\ ((exists message, query_ccg ccg query_type entity_name = QError message) ->
      query_ccg ccg query_type entity_name = not_found)
  /\ ((exists id d, In (id, d) (d_nodes ccg) /\ e_name d = Some entity_name) ->
      exists blocks,
        query_ccg ccg query_type entity_name = QResults blocks
        /\ Forall2 (answers ccg query_type) matching blocks).
Proof.
  intros Hq matching not_found.
  assert (Hin : forall id d, In (id, d) matching <->
                              In (id, d) (d_nodes ccg) /\ e_name d = Some entity_name)
    by (intros; apply matching_entities_In).
  assert (Hres : matching <> [] ->
                 query_ccg ccg query_type entity_name
                 = QResults (flat_map
       (fun '(entity_id, data) =>
          if String.eqb query_type "info" then [BInfo data]
          else if String.eqb query_type "callees" then
            [BCallees data
               (callee_data (d_nodes ccg) (sget_default entity_id (d_edges ccg) []))]
          else if String.eqb query_type "callers" then
            [BCallers data (caller_data (d_nodes ccg) (d_edges ccg) entity_id)]
          else [])
       matching)).
  { intros Hne. unfold query_ccg. fold matching.
    destruct matching as [|m ms] eqn:Em; [congruence|].
    f_equal. rewrite <- (app_nil_l (flat_map _ _)). rewrite <- fold_left_snoc.
    apply fold_left_pointwise. intros acc [id d].
    destruct (String.eqb query_type "info"); [reflexivity|].
    destruct (String.eqb query_type "callees"); [reflexivity|].
    destruct (String.eqb query_type "callers"); [reflexivity|].
    now rewrite app_nil_r. }
  assert (Herr : matching = [] -> query_ccg ccg query_type entity_name = not_found).
  { intros E. unfold query_ccg. fold matching. now rewrite E. }
  split; [exact Hin|]. split; [|split].
  - split.
    + intros Hnone. apply Herr. destruct matching as [|[id d] ms]; [reflexivity|].
      exfalso. destruct (proj1 (Hin id d)) as [H1 H2]; [now left|].
      exact (Hnone id d H1 H2).
    + intros Hq' id d H1 H2. destruct matching as [|m ms] eqn:Em.
      * apply (proj2 (Hin id d)). now split.
      * rewrite Hres in Hq' by congruence. discriminate.
  - intros [message Hm]. destruct matching as [|m ms] eqn:Em.
    + now apply Herr.
    + rewrite Hres in Hm by congruence. discriminate.
  - intros (id & d & H1 & H2).
    assert (Hne : matching <> []).
    { intros E. assert (H : In (id, d) matching) by (apply Hin; now split).
      rewrite E in H. exact H. }
    eexists. split; [now apply Hres|]. now apply query_blocks.
Qed.

Lemma query_ccg_spec_witness :
  exists blocks,
    query_ccg scenario_graph "callers" "init_app" = QResults blocks
    /\ Forall2 (answers scenario_graph "callers")
         (matching_entities (d_nodes scenario_graph) "init_app") blocks.
Proof.
  apply (proj2 (proj2 (proj2
           (@query_ccg_spec scenario_graph "callers" "init_app"
              (or_intror (or_intror eq_refl)))))).
  exists "models.py::init_app", (entity_record "init_app" KFunction "python" "models.py").
  split; [|reflexivity]. vm_compute. right. now left.
Defined.

(** ** Set orders *)

Lemma first_seen_In seen l x :
  In x (first_seen seen l) <-> In x l /\ ~ In x seen.
Proof.
  revert seen. induction l as [|y l IH]; intros seen; simpl; [tauto|].
  rewrite existsb_eqb_in_dec. destruct (in_dec string_dec y seen) as [Hy | Hy].
  - rewrite IH. split; [tauto|]. intros [[-> | H] Hn]; [contradiction | tauto].
  - simpl. rewrite IH. simpl. split.
    + intros [-> | (H1 & H2)]; [tauto|]. split; [tauto|]. intros H3. apply H2. now right.
    + intros [[-> | H1] H2]; [now left|].
      destruct (string_dec y x) as [-> | Hne]; [now left|].
      right. split; [exact H1|]. intros [H3 | H3]; [congruence | contradiction].
Qed.

Lemma first_seen_NoDup seen l : NoDup (first_seen seen l).
Proof.
  revert seen. induction l as [|y l IH]; intros seen; simpl; [constructor|].
  destruct (existsb (String.eqb y) seen); [apply IH|].
  constructor; [|apply IH]. rewrite first_seen_In. intros [_ H]. apply H. now left.
Qed.

#[export] Instance first_seen_order : SetOrder.
Proof.
  refine {| set_iter := first_seen [] |}.
  - intros l. apply first_seen_NoDup.
  - intros l x. rewrite first_seen_In. simpl. tauto.
Defined.

Lemma set_iter_length {SO : SetOrder} (l : list string) :
  List.length (set_iter l) <= List.length l.
Proof.
  apply NoDup_incl_length; [apply set_iter_NoDup|].
  intros x. apply set_iter_In.
Qed.

Lemma set_iter_nil {SO : SetOrder} : set_iter [] = [].
Proof.
  destruct (set_iter []) as [|x l] eqn:E; [reflexivity|].
  assert (H : In x (set_iter [])) by (rewrite E; now left).
  apply (proj1 (set_iter_In [] x)) in H. simpl in H. contradiction.
Qed.

(** ** The diagram projector *)

Lemma append_assoc (a b c : string) : (a +++ b) +++ c = a +++ (b +++ c).
Proof. induction a as [|x a IH]; simpl; [reflexivity | now rewrite IH]. Qed.

Lemma append_nil_r (a : string) : a +++ "" = a.
Proof. induction a as [|x a IH]; simpl; [reflexivity | now rewrite IH]. Qed.

Lemma insert_desc_perm x l : Permutation (insert_desc x l) (x :: l).
Proof.
  induction l as [|y l IH]; simpl; [reflexivity|].
  destruct (Nat.ltb (snd x) (snd y)); [|reflexivity].
  rewrite IH. apply perm_swap.
Qed.

Lemma sorted_desc_perm l : Permutation (sorted_desc l) l.
Proof.
  induction l as [|x l IH]; simpl; [reflexivity|].
  rewrite insert_desc_perm. now constructor.
Qed.

Lemma slice_to_In {A} (n : Z) (l : list A) x : In x (slice_to n l) -> In x l.
Proof.
  unfold slice_to. intros H.
  destruct (0 <=? n)%Z;
    match type of H with In _ (firstn ?k _) =>
      rewrite <- (firstn_skipn k l); apply in_or_app; now left
    end.
Qed.

Lemma slice_to_length {A} (n : Z) (l : list A) :
  (0 <= n)%Z -> List.length (slice_to n l) <= Z.to_nat n.
Proof.
  intros Hn. unfold slice_to. destruct (Z.leb_spec 0 n); [|lia].
  apply firstn_le_length.
Qed.

Section ProjectorFacts.
Context {SO : SetOrder}.

Lemma node_connections_keys ccg id :
  In id (PyDict.keys (node_connections ccg)) -> In id (PyDict.keys (d_nodes ccg)).
Proof.
  unfold node_connections.
  enough (H : forall ks (acc : sdict nat),
             In id (PyDict.keys
                      (fold_left
                         (fun acc node_id =>
                            sset node_id
                              (List.length (sget_default node_id (d_edges ccg) [])) acc)
                         ks acc)) ->
             In id ks \/ In id (PyDict.keys acc)).
  { intros Hin. apply H in Hin. destruct Hin as [Hin | []]. exact Hin. }
  induction ks as [|k ks IH]; intros acc; simpl; [tauto|].
  intros Hin. apply IH in Hin. destruct Hin as [Hin | Hin]; [tauto|].
  apply sset_keys in Hin. destruct Hin as [-> | Hin]; tauto.
Qed.

Lemma top_node_ids_nodes ccg max_nodes id :
  In id (top_node_ids ccg max_nodes) -> In id (PyDict.keys (d_nodes ccg)).
Proof.
  unfold top_node_ids, top_nodes. intros Hin.
  apply in_map_iff in Hin. destruct Hin as ([id' n] & <- & Hin).
  apply slice_to_In in Hin.
  apply (Permutation_in _ (sorted_desc_perm _)) in Hin.
  apply node_connections_keys. apply (in_map fst) in Hin. exact Hin.
Qed.

Lemma top_node_ids_length ccg max_nodes :
  (0 <= max_nodes)%Z -> List.length (top_node_ids ccg max_nodes) <= Z.to_nat max_nodes.
Proof.
  intros Hn. unfold top_node_ids. rewrite length_map. now apply slice_to_length.
Qed.

(** The first loop neither raises nor skips: one block per id. *)
Lemma emit_nodes_blocks nodes ids mermaid :
  (forall id, In id ids -> In id (PyDict.keys nodes)) ->
  exists decls,
    emit_nodes nodes ids mermaid = Some (mermaid +++ String.concat "" decls)
    /\ List.length decls = List.length ids
    /\ Forall (fun s => exists id d, sget id nodes = Some d /\ s = node_lines id d) decls.
Proof.
  unfold emit_nodes. revert mermaid.
  induction ids as [|id ids IH]; intros mermaid Hin; simpl.
  - exists []. simpl. rewrite append_nil_r. repeat split. constructor.
  - destruct (sget id nodes) as [d|] eqn:E.
    + destruct (IH (mermaid +++ node_lines id d)) as (decls & H1 & H2 & H3).
      { intros id' H. apply Hin. now right. }
      exists (node_lines id d :: decls). repeat split.
      * rewrite H1, append_assoc. f_equal. f_equal.
        destruct decls; simpl; [now rewrite append_nil_r | reflexivity].
      * simpl. now rewrite H2.
      * constructor; [|exact H3]. now exists id, d.
    + exfalso. apply sget_None in E. apply E, Hin. now left.
Qed.

(** The second loop only appends edge lines. *)
Lemma emit_edges_lines edges top ids mermaid :
  exists lines,
    fst (emit_edges edges top ids mermaid) = mermaid +++ String.concat "" lines
    /\ Forall (fun s => exists from_id to_id, s = edge_line from_id to_id) lines
    /\ (ids = [] -> lines = []).
Proof.
  unfold emit_edges. generalize (@nil (string * string)) as added.
  revert mermaid. induction ids as [|from_id ids IH]; intros mermaid added; simpl.
  - exists []. simpl. rewrite append_nil_r. repeat split. constructor.
  - assert (Hin : forall tos m (a : list (string * string)),
               exists ls a',
                 fold_left
                   (fun '(mermaid, added_edges) to_id =>
                      if existsb (String.eqb to_id) top
                         && negb (existsb (pair_eqb (from_id, to_id)) added_edges)
                      then (mermaid +++ edge_line from_id to_id,
                            (from_id, to_id) :: added_edges)
                      else (mermaid, added_edges))
                   tos (m, a) = (m +++ String.concat "" ls, a')
                 /\ Forall (fun s => exists f t, s = edge_line f t) ls).
    { induction tos as [|to_id tos IHt]; intros m a; simpl.
      - exists [], a. simpl. rewrite append_nil_r. split; [reflexivity | constructor].
      - destruct (existsb (String.eqb to_id) top
                  && negb (existsb (pair_eqb (from_id, to_id)) a)).
        + destruct (IHt (m +++ edge_line from_id to_id) ((from_id, to_id) :: a))
            as (ls & a' & H1 & H2).
          exists (edge_line from_id to_id :: ls), a'. split.
          * rewrite H1, append_assoc. f_equal. f_equal.
            destruct ls; simpl; [now rewrite append_nil_r | reflexivity].
          * constructor; [now exists from_id, to_id | exact H2].
        + apply IHt. }
    destruct (Hin (sget_default from_id edges []) mermaid added) as (ls & a' & H1 & H2).
    rewrite H1.
    destruct (IH (mermaid +++ String.concat "" ls) a') as (lines & H3 & H4 & _).
    exists (ls ++ lines). split; [|split].
    + rewrite H3, append_assoc. f_equal.
      clear. induction ls as [|l ls IHl]; simpl; [reflexivity|].
      destruct ls as [|l' ls]; simpl in *.
      * destruct lines; simpl; [now rewrite append_nil_r | reflexivity].
      * rewrite append_assoc. f_equal. exact IHl.
    + apply Forall_app. now split.
    + discriminate.
Qed.

(** C8. For [max_nodes >= 0] the projector returns a text (no [KeyError]):
    the header, then one declaration block per selected node, at most
    [max_nodes] of them, then edge lines.  With [max_nodes = 0], and whenever
    the selected set is empty, the text is the header alone. *)
Theorem mermaid_bounded (ccg : ccg_dict) (max_nodes : Z) :
  (0 <= max_nodes)%Z ->
  exists decls lines,
    generate_mermaid_diagram ccg max_nodes
    = Some (mermaid_header +++ String.concat "" decls +++ String.concat "" lines)
    /\ Forall (fun s => exists id d, sget id (d_nodes ccg) = Some d /\ s = node_lines id d)
         decls
    /\ Forall (fun s => exists from_id to_id, s = edge_line from_id to_id) lines
    /\ List.length decls <= Z.to_nat max_nodes
    /\ (max_nodes = 0%Z \/ top_node_ids ccg max_nodes = [] ->
        generate_mermaid_diagram ccg max_nodes = Some mermaid_header).
Proof.
  intros Hn. unfold generate_mermaid_diagram.
  destruct (@emit_nodes_blocks (d_nodes ccg) (set_iter (top_node_ids ccg max_nodes))
              mermaid_header) as (decls & H1 & H2 & H3).
  { intros id Hin. apply (proj1 (set_iter_In _ _)) in Hin.
    now apply top_node_ids_nodes in Hin. }
  destruct (emit_edges_lines (d_edges ccg) (top_node_ids ccg max_nodes)
              (set_iter (top_node_ids ccg max_nodes))
              (mermaid_header +++ String.concat "" decls)) as (lines & H4 & H5 & H6).
  exists decls, lines. rewrite H1, H4, append_assoc.
  repeat split; try assumption.
  - rewrite H2. etransitivity; [apply set_iter_length|]. now apply top_node_ids_length.
  - intros Hempty.
    assert (Htop : top_node_ids ccg max_nodes = []).
    { destruct Hempty as [-> | H]; [|exact H].
      unfold top_node_ids, top_nodes, slice_to. reflexivity. }
    rewrite Htop, set_iter_nil in *.
    destruct decls; [|discriminate]. rewrite (H6 eq_refl). reflexivity.
Qed.

End ProjectorFacts.

Lemma mermaid_bounded_witness :
  generate_mermaid_diagram scenario_graph 0 = Some mermaid_header.
Proof.
  destruct (@mermaid_bounded first_seen_order scenario_graph 0%Z) as (d & l & _ & _ & _ & _ & H).
  - lia.
  - apply H. now left.
Defined.

(** ** Entity ids *)

Lemma list_ascii_append (a b : string) :
  list_ascii_of_string (a +++ b) = list_ascii_of_string a ++ list_ascii_of_string b.
Proof. induction a as [|c a IH]; simpl; [reflexivity | now rewrite IH]. Qed.

Lemma list_ascii_inj (a b : string) :
  list_ascii_of_string a = list_ascii_of_string b -> a = b.
Proof.
  intros H. rewrite <- (string_of_list_ascii_of_string a),
    <- (string_of_list_ascii_of_string b). now rewrite H.
Qed.

Lemma append_inv_head (p a b : string) : p +++ a = p +++ b -> a = b.
Proof. induction p as [|c p IH]; simpl; [auto | intros [= H]; auto]. Qed.

Lemma no_colon_append (a b : string) : no_colon (a +++ String ":" b) = false.
Proof. induction a as [|c a IH]; simpl; [reflexivity | now rewrite IH, andb_false_r]. Qed.

(** A text splits in one way only at its last colon. *)
Lemma split_last_colon (a b n1 n2 : string) :
  no_colon n1 = true -> no_colon n2 = true ->
  a +++ ":" +++ n1 = b +++ ":" +++ n2 -> a = b /\ n1 = n2.
Proof.
  intros H1 H2. revert b.
  induction a as [|c a IH]; intros [|d b]; simpl; intros [= E].
  - now split.
  - subst n1. now rewrite no_colon_append in H1.
  - subst n2. now rewrite no_colon_append in H2.
  - subst d. match goal with H : _ = _ |- _ => apply IH in H end. intuition congruence.
Qed.

Lemma entity_id_stem p k n : entity_id p k n = (p +++ kind_stem k) +++ ":" +++ n.
Proof. unfold entity_id. destruct k; simpl; now rewrite append_assoc. Qed.

Lemma kind_stem_inj p1 k1 p2 k2 :
  p1 +++ kind_stem k1 = p2 +++ kind_stem k2 ->
  p1 = p2 /\ kind_prefix k1 = kind_prefix k2.
Proof.
  intros H. apply (f_equal list_ascii_of_string) in H.
  rewrite !list_ascii_append in H. apply (f_equal (@rev ascii)) in H.
  rewrite !rev_app_distr in H.
  destruct k1, k2; simpl in H; try discriminate H;
    (split; [|reflexivity]); apply list_ascii_inj;
    rewrite <- (rev_involutive (list_ascii_of_string p1)),
      <- (rev_involutive (list_ascii_of_string p2));
    f_equal; congruence.
Qed.

(** C4, as the code has it.  The id is a function of the file path, the
    kind and the name.  For names without a colon, equal ids have equal file
    paths, equal names and equal kind prefixes: the jac kinds (node, walker,
    ability) are told apart, the kinds function, class and struct are not.
    A jac node and a jac walker of one name in one file have different ids. *)
Theorem entity_id_injective (p1 p2 : string) (k1 k2 : entity_kind) (n1 n2 : string) :
  no_colon n1 = true -> no_colon n2 = true ->
  ((p1, k1, n1) = (p2, k2, n2) -> entity_id p1 k1 n1 = entity_id p2 k2 n2)
  /\ (entity_id p1 k1 n1 = entity_id p2 k2 n2 ->
      p1 = p2 /\ n1 = n2 /\ kind_prefix k1 = kind_prefix k2
      /\ (jac_kind k1 = true -> k1 = k2))
  /\ entity_id p1 KNode n1 <> entity_id p1 KWalker n1.
Proof.
  intros H1 H2. split; [|split].
  - intros [= -> -> ->]. reflexivity.
  - rewrite !entity_id_stem. intros H.
    apply split_last_colon in H; [|assumption..]. destruct H as [Hs ->].
    apply kind_stem_inj in Hs. destruct Hs as [-> Hk].
    repeat split; [exact Hk|].
    destruct k1, k2; simpl in *; congruence.
  - unfold entity_id. intros H. apply append_inv_head in H. discriminate H.
Qed.

Lemma entity_id_injective_witness :
  entity_id "app.jac" KNode "Session" <> entity_id "app.jac" KWalker "Session".
Proof.
  apply (@entity_id_injective "app.jac" "app.jac" KNode KWalker "Session" "Session");
    reflexivity.
Defined.

(** C4 as stated fails: a function and a class of one name in one python
    file are two triples with one id. *)
Lemma entity_id_collision :
  ~ (forall p1 k1 n1 p2 k2 n2,
        entity_id p1 k1 n1 = entity_id p2 k2 n2 -> (p1, k1, n1) = (p2, k2, n2)).
Proof.
  intros H. specialize (H "a.py" KFunction "Foo" "a.py" KClass "Foo" eq_refl).
  discriminate H.
Qed.

(** ** Pass 1 *)

Lemma fold_left_map {A B C} (f : A -> B -> A) (h : C -> B) (l : list C) (a : A) :
  fold_left f (map h l) a = fold_left (fun a x => f a (h x)) l a.
Proof. revert a. induction l as [|x l IH]; intros a; simpl; [reflexivity | apply IH]. Qed.

Lemma add_entities_writes path language k names g :
  add_entities path language k names g
  = add_nodes (map (fun name => (entity_id path k name,
                                 entity_record name k language path)) names) g.
Proof. unfold add_entities, add_nodes. now rewrite fold_left_map. Qed.

Lemma add_nodes_app ws1 ws2 g : add_nodes (ws1 ++ ws2) g = add_nodes ws2 (add_nodes ws1 g).
Proof. unfold add_nodes. apply fold_left_app. Qed.

(** One branch of the dispatch on the language tag: in the branch taken the
    loops of the code are the writes listed for that language. *)
Ltac language_branch :=
  match goal with
  | |- context [String.eqb (p_type ?r) ?lang] =>
      destruct (String.eqb_spec (p_type r) lang) as [-> | _];
      [simpl; rewrite !add_nodes_app, !add_entities_writes; reflexivity|]
  end.

Lemma pass1_file_writes g pfile : pass1_file g pfile = add_nodes (writes_of pfile) g.
Proof.
  unfold pass1_file, writes_of, node_fields.
  destruct (has_error pfile); [reflexivity|].
  repeat language_branch. reflexivity.
Qed.

Lemma pass1_writes rs g : pass1 rs g = add_nodes (flat_map writes_of rs) g.
Proof.
  unfold pass1. revert g. induction rs as [|r rs IH]; intros g; simpl; [reflexivity|].
  now rewrite IH, pass1_file_writes, add_nodes_app.
Qed.

Lemma add_node_nodes id d g : nodes (add_node id d g) = sset id d (nodes g).
Proof. unfold add_node. now destruct (truthy _). Qed.

Lemma add_node_edges id d g : edges (add_node id d g) = edges g.
Proof. unfold add_node. now destruct (truthy _). Qed.

Lemma add_nodes_keys ws g id :
  In id (PyDict.keys (nodes (add_nodes ws g)))
  <-> In id (map fst ws) \/ In id (PyDict.keys (nodes g)).
Proof.
  unfold add_nodes. revert g. induction ws as [|[i d] ws IH]; intros g; simpl; [tauto|].
  rewrite IH, add_node_nodes, sset_keys. intuition.
Qed.

Lemma add_nodes_values ws g id d :
  sget id (nodes (add_nodes ws g)) = Some d ->
  In (id, d) ws \/ sget id (nodes g) = Some d.
Proof.
  unfold add_nodes. revert g. induction ws as [|[i d'] ws IH]; intros g; simpl; [tauto|].
  intros H. apply IH in H. destruct H as [H | H]; [tauto|].
  rewrite add_node_nodes in H. destruct (string_dec i id) as [-> | Hne].
  - rewrite sget_sset_eq in H. injection H as ->. now left; left.
  - rewrite sget_sset_ne in H by exact Hne. now right.
Qed.

Lemma add_nodes_NoDup ws g :
  NoDup (PyDict.keys (nodes g)) -> NoDup (PyDict.keys (nodes (add_nodes ws g))).
Proof.
  unfold add_nodes. revert g. induction ws as [|[i d] ws IH]; intros g H; simpl; [exact H|].
  apply IH. rewrite add_node_nodes. now apply sset_NoDup.
Qed.

Lemma writes_of_In pfile id d :
  In (id, d) (writes_of pfile) <->
  has_error pfile = false
  /\ exists k names name,
      In (k, names) (node_fields pfile) /\ In name names
      /\ id = entity_id (p_path pfile) k name
      /\ d = entity_record name k (p_type pfile) (p_path pfile).
Proof.
  unfold writes_of. destruct (has_error pfile).
  - simpl. split; [tauto | intros [H _]; discriminate H].
  - rewrite in_flat_map. split.
    + intros ([k names] & H1 & H2). apply in_map_iff in H2.
      destruct H2 as (name & [= <- <-] & H2). split; [reflexivity|].
      now exists k, names, name.
    + intros (_ & k & names & name & H1 & H2 & -> & ->).
      exists (k, names). split; [exact H1|]. apply in_map_iff. now exists name.
Qed.

Lemma link_others_frame name content id others g :
  nodes (link_others name content id others g) = nodes g
  /\ file_entities (link_others name content id others g) = file_entities g.
Proof.
  unfold link_others. revert g.
  induction others as [|o others IH]; intros g; simpl; [now split|].
  destruct (IH (if name_in_content name content then add_edge o id "calls" g else g))
    as [-> ->].
  destruct (name_in_content name content); [|now split].
  unfold add_edge. now destruct (smem o (nodes g) && smem id (nodes g)).
Qed.

Lemma link_files_frame path name content id items g :
  nodes (link_files path name content id items g) = nodes g
  /\ file_entities (link_files path name content id items g) = file_entities g.
Proof.
  unfold link_files. revert g.
  induction items as [|[q others] items IH]; intros g; simpl; [now split|].
  destruct (IH (if String.eqb q path then g
                else link_others name content id others g)) as [-> ->].
  destruct (String.eqb q path); [now split | apply link_others_frame].
Qed.

Lemma link_entity_frame path content g id :
  nodes (link_entity path content g id) = nodes g
  /\ file_entities (link_entity path content g id) = file_entities g.
Proof. unfold link_entity. apply link_files_frame. Qed.

Lemma pass2_file_frame g pfile :
  nodes (pass2_file g pfile) = nodes g
  /\ file_entities (pass2_file g pfile) = file_entities g.
Proof.
  unfold pass2_file. destruct (p_content pfile) as [content|]; [|now split].
  destruct (has_error pfile); [now split|].
  generalize (sget_default (p_path pfile) (file_entities g) []) as ids.
  intros ids. revert g.
  induction ids as [|id ids IH]; intros g; simpl; [now split|].
  destruct (IH (link_entity (p_path pfile) content g id)) as [-> ->].
  apply link_entity_frame.
Qed.

(** Pass 2 writes edges only. *)
Lemma pass2_frame rs g :
  nodes (pass2 rs g) = nodes g /\ file_entities (pass2 rs g) = file_entities g.
Proof.
  unfold pass2. revert g. induction rs as [|r rs IH]; intros g; simpl; [now split|].
  destruct (IH (pass2_file g r)) as [-> ->]. apply pass2_file_frame.
Qed.

Lemma build_nodes rs :
  d_nodes (build_code_context_graph rs) = nodes (add_nodes (flat_map writes_of rs) ccg_init).
Proof.
  unfold build_code_context_graph, to_dict. simpl.
  now rewrite (proj1 (pass2_frame rs _)), pass1_writes.
Qed.

Lemma add_nodes_untouched ws g id :
  ~ In id (map fst ws) -> sget id (nodes (add_nodes ws g)) = sget id (nodes g).
Proof.
  unfold add_nodes. revert g. induction ws as [|[i d] ws IH]; intros g H; simpl;
    [reflexivity|].
  simpl in H. rewrite IH by tauto. rewrite add_node_nodes.
  apply sget_sset_ne. tauto.
Qed.

(** The last write of an id in a sequence of writes. *)
Lemma last_occurrence {V} (ws : list (string * V)) (id : string) :
  In id (map fst ws) ->
  exists before d after, ws = before ++ (id, d) :: after /\ ~ In id (map fst after).
Proof.
  induction ws as [|[k v] ws IH]; simpl; [contradiction|].
  intros H. destruct (in_dec string_dec id (map fst ws)) as [Hin | Hout].
  - destruct (IH Hin) as (before & d & after & -> & Hafter).
    now exists ((k, v) :: before), d, after.
  - destruct H as [-> | H]; [|contradiction].
    now exists [], v, ws.
Qed.

(** After a sequence of writes to the empty graph, an id carries the record
    of its last write. *)
Lemma add_nodes_last ws id d :
  sget id (nodes (add_nodes ws ccg_init)) = Some d
  <-> exists before after, ws = before ++ (id, d) :: after /\ ~ In id (map fst after).
Proof.
  assert (Hback : forall before after d',
             ~ In id (map fst after) ->
             sget id (nodes (add_nodes (before ++ (id, d') :: after) ccg_init)) = Some d').
  { intros before after d' Hafter.
    rewrite add_nodes_app. change ((id, d') :: after) with ([(id, d')] ++ after).
    rewrite add_nodes_app, (@add_nodes_untouched after _ id Hafter).
    unfold add_nodes at 1. simpl. rewrite add_node_nodes. apply sget_sset_eq. }
  split.
  - intros H.
    assert (Hin : In id (map fst ws)).
    { destruct (in_dec string_dec id (map fst ws)) as [Hin | Hout]; [exact Hin|].
      rewrite (@add_nodes_untouched ws _ id Hout) in H. discriminate H. }
    destruct (@last_occurrence _ ws id Hin) as (before & d' & after & -> & Hafter).
    rewrite (Hback before after d' Hafter) in H. injection H as <-.
    now exists before, after.
  - intros (before & after & -> & Hafter). now apply Hback.
Qed.

(** C3, as the code has it.  Pass 1 writes one node per id: for every item
    of the lists [node_fields] names, of every record without an error, a
    node under the id of the kind-prefix rule; every node of the graph is
    the record (name, kind, language, file path) of such an item, and it is
    the record of the last write made under its id: an id carries the record
    [d] exactly when [(id, d)] is a write of pass 1 that no later write of
    the same id follows.  The lists are: functions and classes for python
    and javascript, functions and structs for rust, and nodes, walkers and
    abilities for jac; no other list of a record yields nodes. *)
Theorem pass1_inserts (parsed_files : list parsed_file) :
  let graph := build_code_context_graph parsed_files in
  (forall pfile k names name,
      In pfile parsed_files -> has_error pfile = false ->
      In (k, names) (node_fields pfile) -> In name names ->
      In (entity_id (p_path pfile) k name) (PyDict.keys (d_nodes graph)))
  /\ (forall id d,
        sget id (d_nodes graph) = Some d ->
        exists pfile k names name,
          In pfile parsed_files /\ has_error pfile = false
          /\ In (k, names) (node_fields pfile) /\ In name names
          /\ id = entity_id (p_path pfile) k name
          /\ d = entity_record name k (p_type pfile) (p_path pfile))
  /\ (forall id d,
        sget id (d_nodes graph) = Some d
        <-> exists before after,
              flat_map writes_of parsed_files = before ++ (id, d) :: after
              /\ ~ In id (map fst after))
  /\ NoDup (PyDict.keys (d_nodes graph))
  /\ (forall pfile,
        (p_type pfile = "python" \/ p_type pfile = "javascript" ->
         node_fields pfile = [(KFunction, p_funcs pfile); (KClass, p_classes pfile)])
        /\ (p_type pfile = "rust" ->
            node_fields pfile = [(KFunction, p_funcs pfile); (KStruct, p_structs pfile)])
        /\ (p_type pfile = "jac" ->
            node_fields pfile = [(KNode, p_nodes pfile); (KWalker, p_walkers pfile);
                                 (KAbility, p_abilities pfile)])).
Proof.
  intros graph. unfold graph. rewrite build_nodes.
  split; [|split; [|split; [|split]]].
  - intros pfile k names name Hin Herr Hf Hn.
    apply add_nodes_keys. left. apply in_map_iff.
    exists (entity_id (p_path pfile) k name,
            entity_record name k (p_type pfile) (p_path pfile)).
    split; [reflexivity|]. apply in_flat_map. exists pfile. split; [exact Hin|].
    apply writes_of_In. split; [exact Herr|]. now exists k, names, name.
  - intros id d H. apply add_nodes_values in H. destruct H as [H | H]; [|discriminate H].
    apply in_flat_map in H. destruct H as (pfile & Hin & H).
    apply writes_of_In in H. destruct H as (Herr & k & names & name & H1 & H2 & H3 & H4).
    now exists pfile, k, names, name.
  - intros id d. apply add_nodes_last.
  - apply add_nodes_NoDup. constructor.
  - intros pfile. unfold node_fields. repeat split.
    + intros [-> | ->]; reflexivity.
    + intros ->. reflexivity.
    + intros ->. reflexivity.
Qed.

(** A function and a class of one python file with one name share an id;
    the class, written later, is the record kept. *)
Example pass1_keeps_last :
  sget "a.py::Foo"
    (d_nodes (build_code_context_graph
                [mk_parsed_file "a.py" "python" None ["Foo"] ["Foo"] [] [] [] [] [] [] [] []
                   [] None]))
  = Some (entity_record "Foo" KClass "python" "a.py").
Proof. reflexivity. Qed.

(** C3 as stated fails: an enum of a rust record gets no node. *)
Lemma rust_enum_not_inserted :
  ~ (forall parsed_files pfile e,
        In pfile parsed_files -> has_error pfile = false ->
        p_type pfile = "rust" -> In e (p_enums pfile) ->
        exists id d,
          sget id (d_nodes (build_code_context_graph parsed_files)) = Some d
          /\ e_name d = Some e).
Proof.
  intros H.
  destruct (H [rust_file "lib.rs" [] [] ["Color"] [] "enum Color { Red }"]
              (rust_file "lib.rs" [] [] ["Color"] [] "enum Color { Red }") "Color")
    as (id & d & Hget & _); try reflexivity; try (now left).
  discriminate Hget.
Qed.

(** ** Pass 2 on the end-to-end scenario *)

(** The graph of the scenario, by the answer of the substring test on the
    text of [models.py]. *)
Lemma scenario_build (c : option string) :
  build_code_context_graph [main_py; models_py c]
  = if match c with
       | Some content => name_in_content "init_app" content
       | None => false
       end
    then build_code_context_graph [main_py; models_py (Some "init_app")]
    else build_code_context_graph [main_py; models_py None].
Proof.
  destruct c as [content|]; [|reflexivity].
  unfold build_code_context_graph, pass2, pass1. simpl fold_left.
  match goal with
  | |- to_dict (pass2_file ?g _) = _ =>
      let v := eval vm_compute in g in change g with v
  end.
  unfold pass2_file at 1. cbn -[name_in_content].
  destruct (name_in_content "init_app" content); reflexivity.
Qed.

(** C2, as the code has it.  Whatever text the record of [models.py]
    carries, if any, the scenario yields two nodes, a [calls] edge from
    [models.py::init_app] to [main.py::run_server] (from the entity of the
    other file to the entity of the scanning file [main.py]) and an edge
    count of at least one. *)
Theorem scenario_edge (content : option string) :
  let graph := build_code_context_graph [main_py; models_py content] in
  PyDict.keys (d_nodes graph) = ["main.py::run_server"; "models.py::init_app"]
  /\ node_count (d_stats graph) = 2
  /\ In "main.py::run_server" (sget_default "models.py::init_app" (d_edges graph) [])
  /\ sget "models.py::init_app->main.py::run_server" (d_edge_types graph) = Some "calls"
  /\ 1 <= edge_count (d_stats graph).
Proof.
  intros graph. unfold graph. rewrite scenario_build.
  destruct (match content with
            | Some c => name_in_content "init_app" c
            | None => false
            end); vm_compute; repeat split; auto.
Qed.

(** C2 as stated fails on the two records as the scenario gives them:
    [models.py] carries no text, is never a scanning file, and no edge
    leaves [main.py::run_server]. *)
Lemma scenario_direction :
  ~ (let graph := build_code_context_graph [main_py; models_py None] in
     node_count (d_stats graph) = 2
     /\ In "models.py::init_app" (sget_default "main.py::run_server" (d_edges graph) [])
     /\ 1 <= edge_count (d_stats graph)).
Proof. vm_compute. intros (_ & H & _). exact H. Qed.

(** The edge in the other direction, [main.py::run_server] to
    [models.py::init_app], is recorded exactly when the record of
    [models.py] carries a text in which [init_app] occurs. *)
Lemma scenario_reverse_edge (content : option string) :
  has_edge (d_edges (build_code_context_graph [main_py; models_py content]))
    "main.py::run_server" "models.py::init_app"
  <-> exists c, content = Some c /\ contains "init_app" c = true.
Proof.
  rewrite scenario_build. destruct content as [c|].
  - unfold name_in_content. destruct (contains "init_app" c) eqn:E.
    + split; [intros _; now exists c | intros _; vm_compute; now left].
    + split; [vm_compute; tauto | intros (c' & [= <-] & H); congruence].
  - split; [vm_compute; tauto | intros (c' & H & _); discriminate H].
Qed.

(** ** Pass 2 in general *)

Lemma add_edge_has_edge o id ty g f t :
  has_edge (edges (add_edge o id ty g)) f t
  <-> has_edge (edges g) f t
      \/ (f = o /\ t = id /\ In o (PyDict.keys (nodes g)) /\ In id (PyDict.keys (nodes g))).
Proof.
  unfold add_edge, has_edge.
  destruct (smem o (nodes g)) eqn:Eo; [destruct (smem id (nodes g)) eqn:Ei|]; simpl.
  - apply smem_keys in Eo, Ei. unfold sget_default at 1, PyDict.get_default.
    fold (@sget (list string)). destruct (string_dec o f) as [-> | Hne].
    + rewrite sappend_get_eq, in_app_iff. simpl. intuition.
    + rewrite sappend_get_ne by exact Hne.
      fold (PyDict.get_default String.eqb f (edges g) []). fold (@sget_default (list string)).
      intuition congruence.
  - apply smem_false_keys in Ei. intuition.
  - apply smem_false_keys in Eo. intuition.
Qed.

Lemma link_others_has_edge name content id others g f t :
  has_edge (edges (link_others name content id others g)) f t
  <-> has_edge (edges g) f t
      \/ (name_in_content name content = true /\ t = id /\ In f others
          /\ In f (PyDict.keys (nodes g)) /\ In id (PyDict.keys (nodes g))).
Proof.
  unfold link_others. revert g.
  induction others as [|o others IH]; intros g; simpl; [tauto|].
  rewrite IH. destruct (name_in_content name content) eqn:E.
  - rewrite add_edge_has_edge.
    assert (Hn : nodes (add_edge o id "calls" g) = nodes g)
      by (unfold add_edge; now destruct (smem o (nodes g) && smem id (nodes g))).
    rewrite Hn. intuition (subst; auto).
  - intuition congruence.
Qed.

Lemma link_files_has_edge path name content id items g f t :
  has_edge (edges (link_files path name content id items g)) f t
  <-> has_edge (edges g) f t
      \/ (name_in_content name content = true /\ t = id
          /\ (exists q others, In (q, others) items /\ q <> path /\ In f others)
          /\ In f (PyDict.keys (nodes g)) /\ In id (PyDict.keys (nodes g))).
Proof.
  unfold link_files. revert g.
  induction items as [|[q others] items IH]; intros g; simpl.
  - split; [tauto|]. intros [H | (_ & _ & (q & o & [] & _) & _)]. exact H.
  - rewrite IH. destruct (String.eqb_spec q path) as [-> | Hne].
    + split.
      * intros [H | (H1 & H2 & (q & o & H3 & H4) & H5)]; [tauto|].
        right. repeat split; try tauto. exists q, o. tauto.
      * intros [H | (H1 & H2 & (q & o & [[= -> ->] | H3] & H4 & H4') & H5)];
          [tauto | congruence |].
        right. repeat split; try tauto. exists q, o. tauto.
    + rewrite (proj1 (link_others_frame name content id others g)).
      rewrite link_others_has_edge. split.
      * intros [[H | (H1 & H2 & H3 & H4)] | (H1 & H2 & (q' & o & H3 & H4) & H5)];
          [tauto | | ].
        -- right. repeat split; try tauto. exists q, others. tauto.
        -- right. repeat split; try tauto. exists q', o. tauto.
      * intros [H | (H1 & H2 & (q' & o & [[= -> ->] | H3] & H4 & H4') & H5)];
          [tauto | tauto |].
        right. repeat split; try tauto. exists q', o. tauto.
Qed.

Lemma links_frame g g' pfile f t :
  nodes g' = nodes g -> file_entities g' = file_entities g ->
  links g' pfile f t <-> links g pfile f t.
Proof.
  intros Hn Hf. unfold links, stored_name, get_entity. now rewrite Hn, Hf.
Qed.

Lemma pass2_file_has_edge g pfile f t :
  has_edge (edges (pass2_file g pfile)) f t
  <-> has_edge (edges g) f t \/ links g pfile f t.
Proof.
  unfold pass2_file, links.
  destruct (p_content pfile) as [content|];
    [|split; [tauto | intros [H | (c & H & _)]; [exact H | discriminate H]]].
  destruct (has_error pfile);
    [split; [tauto | intros [H | (c & _ & H & _)]; [exact H | discriminate H]]|].
  generalize (sget_default (p_path pfile) (file_entities g) []) as ids. intros ids.
  enough (H : forall g0,
             nodes g0 = nodes g -> file_entities g0 = file_entities g ->
             has_edge (edges (fold_left (link_entity (p_path pfile) content) ids g0)) f t
             <-> has_edge (edges g0) f t
                 \/ (In t ids /\ name_in_content (stored_name g t) content = true
                     /\ (exists q others,
                           In (q, others) (file_entities g) /\ q <> p_path pfile
                           /\ In f others)
                     /\ In f (PyDict.keys (nodes g)) /\ In t (PyDict.keys (nodes g)))).
  { rewrite (H g eq_refl eq_refl). split.
    - intros [H0 | H0]; [tauto|]. right. exists content. tauto.
    - intros [H0 | (c & [= <-] & H0)]; tauto. }
  induction ids as [|id ids IH]; intros g0 Hn Hf; simpl; [tauto|].
  destruct (link_entity_frame (p_path pfile) content g0 id) as [Hn' Hf'].
  rewrite IH by congruence.
  unfold link_entity at 1. rewrite link_files_has_edge.
  fold (stored_name g0 id).
  assert (Hs : stored_name g0 id = stored_name g id)
    by (unfold stored_name, get_entity; now rewrite Hn).
  rewrite Hs, Hn, Hf. split.
  - intros [[H | (H1 & -> & H3 & H4)] | H]; [tauto | | tauto].
    right. tauto.
  - intros [H | ([-> | H0] & H1 & H2 & H3)]; [tauto | | tauto].
    left. right. tauto.
Qed.

(** What pass 2 does: an edge [f -> t] is recorded exactly when some
    record with text and without error has [t] in the bucket of its path,
    the name stored for [t] itself passes the test against that text, and
    [f] is listed under another path. *)
Lemma pass2_has_edge rs g f t :
  has_edge (edges (pass2 rs g)) f t
  <-> has_edge (edges g) f t \/ exists pfile, In pfile rs /\ links g pfile f t.
Proof.
  unfold pass2. revert g. induction rs as [|r rs IH]; intros g; simpl.
  - split; [tauto | intros [H | (p & [] & _)]; exact H].
  - rewrite IH, pass2_file_has_edge.
    destruct (pass2_file_frame g r) as [Hn Hf]. split.
    + intros [[H | H] | (p & H1 & H2)]; [tauto | right; exists r; tauto |].
      right. exists p. split; [tauto|]. exact (proj1 (@links_frame g _ p f t Hn Hf) H2).
    + intros [H | (p & [-> | H1] & H2)]; [tauto | tauto |].
      right. exists p. split; [exact H1|]. exact (proj2 (@links_frame g _ p f t Hn Hf) H2).
Qed.

Lemma add_nodes_edges ws g : edges (add_nodes ws g) = edges g.
Proof.
  unfold add_nodes. revert g. induction ws as [|w ws IH]; intros g; simpl; [reflexivity|].
  now rewrite IH, add_node_edges.
Qed.

(** Pass 2 of a whole build. *)
Corollary build_has_edge rs f t :
  has_edge (d_edges (build_code_context_graph rs)) f t
  <-> exists pfile, In pfile rs /\ links (pass1 rs ccg_init) pfile f t.
Proof.
  unfold build_code_context_graph, to_dict. simpl. rewrite pass2_has_edge.
  assert (He : edges (pass1 rs ccg_init) = [])
    by (now rewrite pass1_writes, add_nodes_edges).
  unfold has_edge at 1. rewrite He. simpl. tauto.
Qed.

(** The test of the specification does fire: in the scenario the text of
    [main.py] names [init_app]. *)
Example spec_calls_edge_scenario :
  spec_calls_edge [main_py; models_py None] (pass1 [main_py; models_py None] ccg_init)
    "models.py::init_app" "main.py::run_server" = true.
Proof. reflexivity. Qed.

(** C1 on the code.  For two files that do not mention each other, pass 2
    records an edge in each direction, because the name it tests against the
    text of the scanning file is the name of that file's own entity; the
    test over the name of the entity of the other file, which the
    specification describes, links nothing here. *)
Theorem pass2_tests_own_name :
  let parsed_files := [util_py; core_py] in
  let graph := build_code_context_graph parsed_files in
  d_edges graph = [("core.py::compute_total", ["util.py::helper"]);
                   ("util.py::helper", ["core.py::compute_total"])]
  /\ d_edge_types graph = [("core.py::compute_total->util.py::helper", "calls");
                           ("util.py::helper->core.py::compute_total", "calls")]
  /\ spec_calls_edge parsed_files (pass1 parsed_files ccg_init)
       "core.py::compute_total" "util.py::helper" = false
  /\ spec_calls_edge parsed_files (pass1 parsed_files ccg_init)
       "util.py::helper" "core.py::compute_total" = false.
Proof. vm_compute. repeat split. Qed.

(** The two tests do not agree on every input. *)
Lemma spec_calls_edge_differs :
  ~ (forall parsed_files from_id to_id,
        has_edge (d_edges (build_code_context_graph parsed_files)) from_id to_id
        <-> spec_calls_edge parsed_files (pass1 parsed_files ccg_init) from_id to_id = true).
Proof.
  intros H.
  destruct (H [util_py; core_py] "core.py::compute_total" "util.py::helper") as [H1 _].
  assert (He : has_edge (d_edges (build_code_context_graph [util_py; core_py]))
                 "core.py::compute_total" "util.py::helper")
    by (vm_compute; now left).
  apply H1 in He. vm_compute in He. discriminate He.
Qed.

(** ** The source extractor *)

Lemma ast_size_children t : ast_size t = S (queue_size (ast_children t)).
Proof. destruct t; reflexivity. Qed.

Lemma queue_size_app q1 q2 : queue_size (q1 ++ q2) = queue_size q1 + queue_size q2.
Proof.
  unfold queue_size. induction q1 as [|t q1 IH]; simpl; [reflexivity|].
  rewrite IH. lia.
Qed.

(** The fuel of [ast_walk] suffices: the walk takes every node. *)
Lemma walk_queue_length fuel queue :
  queue_size queue <= fuel -> List.length (walk_queue fuel queue) = queue_size queue.
Proof.
  revert queue. induction fuel as [|fuel IH]; intros [|t queue] H; simpl in *;
    try reflexivity.
  - rewrite ast_size_children in H. lia.
  - rewrite ast_size_children in *. simpl. f_equal. fold (queue_size queue) in *.
    rewrite IH; rewrite queue_size_app; lia.
Qed.

Lemma ast_walk_length tree : List.length (ast_walk tree) = ast_size tree.
Proof.
  unfold ast_walk. rewrite walk_queue_length; simpl; lia.
Qed.

Section ExtractorFacts.
Context {SO : SetOrder}.
Variable re_findall : string -> string -> list string.
Variable ast_parse : string -> parse_outcome.

(** C5, as the code has it.  The lists that pass through [list(set(...))]
    hold no entry twice: functions, classes and imports of a javascript
    record; functions, structs, enums and traits of a rust record; walkers,
    nodes, enums, abilities, globals and edges of a jac record.  The other
    lists (all three lists of a python record, the imports of a rust and of
    a jac record) are returned as collected. *)
Theorem extractor_dedup (ext : string) (file : string + string) :
  let r := parse_source_file re_findall ast_parse ext file in
  (p_type r = "javascript" ->
   NoDup (p_funcs r) /\ NoDup (p_classes r) /\ NoDup (p_imports r))
  /\ (p_type r = "rust" ->
      NoDup (p_funcs r) /\ NoDup (p_structs r) /\ NoDup (p_enums r) /\ NoDup (p_traits r))
  /\ (p_type r = "jac" ->
      NoDup (p_walkers r) /\ NoDup (p_nodes r) /\ NoDup (p_enums r)
      /\ NoDup (p_abilities r) /\ NoDup (p_globals r) /\ NoDup (p_edges r)).
Proof.
  intros r. unfold r, parse_source_file.
  destruct file as [e | code]; [repeat split; discriminate|].
  destruct (String.eqb ext ".py").
  { unfold parse_python. destruct (ast_parse code); repeat split; discriminate. }
  destruct (String.eqb ext ".js");
    [repeat split; try discriminate; apply set_iter_NoDup|].
  destruct (String.eqb ext ".rs");
    [repeat split; try discriminate; apply set_iter_NoDup|].
  destruct (String.eqb ext ".jac");
    [repeat split; try discriminate; apply set_iter_NoDup|].
  repeat split; discriminate.
Qed.

End ExtractorFacts.

(** C5 as stated fails: the imports of a rust record keep a [use]
    statement that occurs twice. *)
Lemma rust_imports_keep_duplicates :
  ~ (forall (SO : SetOrder) re_findall ast_parse ext file,
        let r := parse_source_file re_findall ast_parse ext file in
        has_error r = false -> p_type r = "rust" -> NoDup (p_imports r)).
Proof.
  intros H.
  specialize (H first_seen_order Regex.re_findall (fun _ => SyntaxError "")
                ".rs" (inr rust_two_uses) eq_refl eq_refl).
  vm_compute in H. inversion H as [|x l Hx _]. apply Hx. now left.
Qed.

(** The extractors on concrete texts, with the regular expressions run by
    [Regex] and sets iterated in order of first insertion. *)
Example parse_rust_sample :
  let r := parse_source_file Regex.re_findall (fun _ => SyntaxError "") ".rs"
             (inr rust_sample) in
  (p_funcs r, p_structs r, p_enums r, p_traits r, p_imports r)
  = (["area"; "main"], ["Point"], ["Color"], ["Shape"], ["std::io"]).
Proof. reflexivity. Qed.

Example parse_jac_sample :
  let r := parse_source_file Regex.re_findall (fun _ => SyntaxError "") ".jac"
             (inr jac_sample) in
  (p_walkers r, p_nodes r, p_enums r, p_abilities r, p_globals r, p_edges r, p_imports r)
  = (["Session"], ["Session"], ["Mode"], ["start"; "visit"], ["counter"], ["follows"],
     ["os"; "helpers"; "x, y "]).
Proof. reflexivity. Qed.

(** The functions of a python record are not deduplicated either. *)
Example python_funcs_keep_duplicates :
  p_funcs (parse_source_file Regex.re_findall (fun _ => Parsed two_methods) ".py"
             (inr two_methods_code))
  = ["run"; "run"].
Proof. reflexivity. Qed.

(** ** Determinism *)

Lemma insert_desc_In x y l : In y (insert_desc x l) <-> y = x \/ In y l.
Proof.
  split; intros H.
  - apply (Permutation_in _ (insert_desc_perm x l)) in H. simpl in H. intuition.
  - apply (Permutation_in _ (Permutation_sym (insert_desc_perm x l))). simpl. intuition.
Qed.

Lemma insert_desc_sorted x l :
  Forall (fun y => snd y <> snd x) l ->
  StronglySorted ranks_before l ->
  StronglySorted ranks_before (insert_desc x l).
Proof.
  intros Hne Hs. induction Hs as [|y l Hs IH Hy]; simpl.
  - constructor; constructor.
  - inversion Hne as [|? ? Hyx Hne']; subst.
    destruct (Nat.ltb_spec (snd x) (snd y)) as [Hlt | Hge].
    + constructor; [now apply IH|].
      apply Forall_forall. intros z Hz. apply insert_desc_In in Hz.
      destruct Hz as [-> | Hz]; [exact Hlt|].
      rewrite Forall_forall in Hy. now apply Hy.
    + assert (Hxy : ranks_before x y) by (unfold ranks_before; lia).
      constructor; [now constructor|].
      constructor; [exact Hxy|].
      apply Forall_forall. intros z Hz. rewrite Forall_forall in Hy.
      specialize (Hy z Hz). unfold ranks_before in *. lia.
Qed.

Lemma sorted_desc_sorted l :
  NoDup (map snd l) -> StronglySorted ranks_before (sorted_desc l).
Proof.
  induction l as [|x l IH]; simpl; intros H; [constructor|].
  inversion H as [|? ? Hx Hl]; subst.
  apply insert_desc_sorted; [|now apply IH].
  apply Forall_forall. intros y Hy Heq.
  apply (Permutation_in _ (sorted_desc_perm l)) in Hy.
  apply Hx. rewrite <- Heq. now apply in_map.
Qed.

(** A ranking without ties orders a collection in one way only. *)
Lemma ranked_unique (l l' : list (string * nat)) :
  StronglySorted ranks_before l -> StronglySorted ranks_before l' ->
  Permutation l l' -> l = l'.
Proof.
  intros Hs. revert l'. induction Hs as [|x l Hs IH Hx]; intros l' Hs' Hp.
  - apply Permutation_nil in Hp. now subst.
  - destruct Hs' as [|y l' Hs' Hy].
    + apply Permutation_sym, Permutation_nil in Hp. discriminate Hp.
    + assert (Hxy : x = y).
      { assert (H1 : In x (y :: l')) by (apply (Permutation_in _ Hp); now left).
        assert (H2 : In y (x :: l))
          by (apply (Permutation_in _ (Permutation_sym Hp)); now left).
        destruct H1 as [H1 | H1]; [now subst|].
        destruct H2 as [H2 | H2]; [now subst|].
        rewrite Forall_forall in Hx, Hy.
        specialize (Hx y H2). specialize (Hy x H1). unfold ranks_before in *. lia. }
      subst y. f_equal. apply IH; [exact Hs'|]. now apply Permutation_cons_inv in Hp.
Qed.

Lemma sorted_desc_unique l l' :
  Permutation l l' -> NoDup (map snd l) -> sorted_desc l = sorted_desc l'.
Proof.
  intros Hp Hnd. apply ranked_unique.
  - now apply sorted_desc_sorted.
  - apply sorted_desc_sorted.
    apply (Permutation_NoDup (Permutation_map snd Hp) Hnd).
  - rewrite !sorted_desc_perm. exact Hp.
Qed.

(** The dictionary comprehension over distinct keys lists them in order. *)
Lemma comprehension_fresh (f : string -> nat) ks (acc : sdict nat) :
  NoDup ks -> (forall k, In k ks -> ~ In k (PyDict.keys acc)) ->
  fold_left (fun acc k => sset k (f k) acc) ks acc = acc ++ map (fun k => (k, f k)) ks.
Proof.
  revert acc. induction ks as [|k ks IH]; intros acc Hnd Hfresh; simpl.
  - now rewrite app_nil_r.
  - inversion Hnd as [|? ? Hk Hnd']; subst.
    unfold sset at 2. rewrite PyDictFacts.set_absent;
      [|apply String.eqb_eq | apply Hfresh; now left].
    rewrite IH; [now rewrite <- app_assoc | exact Hnd'|].
    intros k' Hk' Hin. unfold PyDict.keys in Hin. rewrite map_app, in_app_iff in Hin.
    destruct Hin as [Hin | [<- | []]]; [|contradiction].
    apply (Hfresh k'); [now right | exact Hin].
Qed.

Section DeterminismFacts.
Context {SO : SetOrder}.

Lemma node_connections_map ccg :
  NoDup (PyDict.keys (d_nodes ccg)) ->
  node_connections ccg = map (fun k => (k, out_degree ccg k)) (PyDict.keys (d_nodes ccg)).
Proof.
  intros Hnd. unfold node_connections.
  rewrite (comprehension_fresh (out_degree ccg)); [reflexivity | exact Hnd|].
  intros k _ [].
Qed.

Lemma dict_equal_keys {V} (d d' : sdict V) :
  dict_equal d d' -> Permutation (PyDict.keys d) (PyDict.keys d').
Proof.
  intros (H1 & H2 & H3). apply NoDup_Permutation; [exact H1 | exact H2|].
  intros k. rewrite <- !smem_keys. unfold smem, PyDict.mem.
  fold (@sget V). now rewrite H3.
Qed.

Lemma emit_nodes_ext nodes nodes' ids mermaid :
  (forall k, sget k nodes = sget k nodes') ->
  emit_nodes nodes ids mermaid = emit_nodes nodes' ids mermaid.
Proof.
  intros H. unfold emit_nodes. apply fold_left_pointwise.
  intros [m|] id; [now rewrite H | reflexivity].
Qed.

Lemma emit_edges_ext edges edges' top ids mermaid :
  (forall k, sget k edges = sget k edges') ->
  emit_edges edges top ids mermaid = emit_edges edges' top ids mermaid.
Proof.
  intros H. unfold emit_edges. apply fold_left_pointwise.
  intros st from_id. unfold sget_default, PyDict.get_default.
  fold (@sget (list string)). now rewrite H.
Qed.

Lemma top_nodes_equal ccg ccg' max_nodes :
  snapshot_equal ccg ccg' -> no_ties ccg ->
  top_nodes ccg max_nodes = top_nodes ccg' max_nodes.
Proof.
  intros (Hn & He & _) Hties. unfold top_nodes. f_equal.
  assert (Hdeg : forall k, out_degree ccg k = out_degree ccg' k).
  { intros k. unfold out_degree, sget_default, PyDict.get_default.
    fold (@sget (list string)). destruct He as (_ & _ & He). now rewrite He. }
  rewrite !node_connections_map by apply Hn.
  apply sorted_desc_unique.
  - rewrite (map_ext _ _ (fun k => f_equal (pair k) (eq_sym (Hdeg k)))).
    apply Permutation_map. now apply dict_equal_keys.
  - rewrite map_map. simpl. exact Hties.
Qed.

End DeterminismFacts.

(** * Further properties of the entity graph *)

Lemma In_sset {V} (k k0 : string) (v v0 : V) (d : sdict V) :
  In (k, v) (sset k0 v0 d) -> (k = k0 /\ v = v0) \/ In (k, v) d.
Proof.
  induction d as [|[k1 v1] d IH]; simpl.
  - intros [[= <- <-] | []]. now left.
  - destruct (String.eqb_spec k1 k0) as [-> | Hne]; simpl.
    + intros [[= <- <-] | H]; [now left | right; now right].
    + intros [H | H]; [right; now left|].
      apply IH in H. destruct H as [H | H]; [now left | right; now right].
Qed.

Lemma sget_default_In {V} (k : string) (d : sdict (list V)) x :
  In x (sget_default k d []) -> exists l, In (k, l) d /\ In x l.
Proof.
  unfold sget_default, PyDict.get_default. fold (@sget (list V)).
  destruct (sget k d) as [l|] eqn:E; [|intros []].
  intros H. exists l. split; [now apply sget_In | exact H].
Qed.

Lemma In_sget_default {V} (k : string) (d : sdict (list V)) l :
  NoDup (PyDict.keys d) -> In (k, l) d -> sget_default k d [] = l.
Proof.
  intros Hnd Hin. unfold sget_default, PyDict.get_default. fold (@sget (list V)).
  now rewrite (@In_sget _ k l d Hnd Hin).
Qed.

Lemma sappend_NoDup k x d : NoDup (PyDict.keys d) -> NoDup (PyDict.keys (sappend k x d)).
Proof. unfold sappend. apply sset_NoDup. Qed.

Lemma In_sappend k x d k' l :
  In (k', l) (sappend k x d) ->
  (k' = k /\ l = sget_default k d [] ++ [x]) \/ In (k', l) d.
Proof. unfold sappend. apply In_sset. Qed.

Lemma add_node_keys id data g id' :
  In id' (PyDict.keys (nodes g)) -> In id' (PyDict.keys (nodes (add_node id data g))).
Proof. intros H. rewrite add_node_nodes. apply sset_keys. now right. Qed.

Lemma consistent_init : consistent ccg_init.
Proof.
  constructor; simpl; try (now constructor).
  - intros f t. unfold has_edge. simpl. split; [intros [] | intros [ty H]; discriminate H].
  - intros f tos [].
Qed.

Lemma consistent_add_node id data g : consistent g -> consistent (add_node id data g).
Proof.
  intros [Hn He Hf Hends Hlab Hfill Hfiles].
  assert (Hedges : edges (add_node id data g) = edges g) by apply add_node_edges.
  assert (Htypes : edge_types (add_node id data g) = edge_types g)
    by (unfold add_node; now destruct (truthy _)).
  constructor; rewrite ?Hedges, ?Htypes; try assumption.
  - rewrite add_node_nodes. now apply sset_NoDup.
  - unfold add_node. destruct (truthy _); simpl; [now apply sappend_NoDup | exact Hf].
  - intros f t H. destruct (Hends f t H). split; now apply add_node_keys.
  - intros p ids Hin. unfold add_node in Hin.
    destruct (e_file_path data) as [fp|]; simpl in Hin.
    + destruct fp as [|c fp]; simpl in Hin.
      * destruct (Hfiles p ids Hin) as (H1 & H2 & H3).
        repeat split; try assumption. intros i Hi. apply add_node_keys. now apply H3.
      * apply In_sappend in Hin. destruct Hin as [[-> ->] | Hin].
        -- repeat split; [discriminate | now destruct (sget_default _ _ _) |].
           intros i Hi. apply in_app_iff in Hi. destruct Hi as [Hi | [<- | []]].
           ++ apply sget_default_In in Hi. destruct Hi as (l & Hl & Hi).
              apply add_node_keys. now apply (proj2 (proj2 (Hfiles _ _ Hl))).
           ++ rewrite add_node_nodes. apply sset_keys. now left.
        -- destruct (Hfiles p ids Hin) as (H1 & H2 & H3).
           repeat split; try assumption. intros i Hi. apply add_node_keys. now apply H3.
    + destruct (Hfiles p ids Hin) as (H1 & H2 & H3).
      repeat split; try assumption. intros i Hi. apply add_node_keys. now apply H3.
Qed.

Lemma add_edge_frame from_id to_id ty g :
  nodes (add_edge from_id to_id ty g) = nodes g
  /\ file_entities (add_edge from_id to_id ty g) = file_entities g.
Proof. unfold add_edge. now destruct (smem from_id (nodes g) && smem to_id (nodes g)). Qed.

Lemma consistent_add_edge from_id to_id ty g :
  consistent g -> consistent (add_edge from_id to_id ty g).
Proof.
  intros [Hn He Hf Hends Hlab Hfill Hfiles].
  destruct (add_edge_frame from_id to_id ty g) as [Hnodes Hfe].
  constructor; rewrite ?Hnodes, ?Hfe; try assumption.
  - unfold add_edge. destruct (_ && _); simpl; [now apply sappend_NoDup | exact He].
  - intros f t H. apply add_edge_has_edge in H.
    destruct H as [H | (-> & -> & H1 & H2)]; [now apply Hends | now split].
  - intros f t. rewrite add_edge_has_edge. unfold add_edge.
    destruct (smem from_id (nodes g)) eqn:E1; [destruct (smem to_id (nodes g)) eqn:E2|];
      simpl.
    + apply smem_keys in E1, E2.
      destruct (string_dec f from_id) as [-> | Hf1];
        [destruct (string_dec t to_id) as [-> | Ht1]|].
      * rewrite PyDictFacts.get_set_eq by apply pair_eqb_eq.
        split; [intros _; now exists ty | intros _; right; tauto].
      * rewrite PyDictFacts.get_set_ne by (try apply pair_eqb_eq; congruence).
        rewrite <- Hlab. intuition congruence.
      * rewrite PyDictFacts.get_set_ne by (try apply pair_eqb_eq; congruence).
        rewrite <- Hlab. intuition congruence.
    + apply smem_false_keys in E2. rewrite <- Hlab. intuition.
    + apply smem_false_keys in E1. rewrite <- Hlab. intuition.
  - intros f tos Hin. unfold add_edge in Hin. destruct (_ && _); simpl in Hin.
    + apply In_sappend in Hin. destruct Hin as [[-> ->] | Hin]; [|now apply (Hfill f)].
      now destruct (sget_default _ _ _).
    + now apply (Hfill f).
Qed.

(** The two mutators keep a graph consistent, whatever the edge types. *)
Lemma held_consistent (L : string -> Prop) (g : CodeContextGraph) :
  reachable_with L g -> consistent g.
Proof.
  induction 1.
  - apply consistent_init.
  - now apply consistent_add_node.
  - now apply consistent_add_edge.
Qed.

(** X1.  Every graph the class can hold is consistent: its dictionaries
    have the shape of dictionaries (each key once); an edge joins two
    nodes and has a type label, and a label belongs to an edge; no adjacency
    list and no bucket of the file index is empty; a bucket stands under a
    non-empty path and lists nodes only. *)
Theorem reachable_consistent (g : CodeContextGraph) : reachable g -> consistent g.
Proof.
  unfold reachable. induction 1 as [|id data g _ IH|f t ty g _ _ IH].
  - apply consistent_init.
  - exact (consistent_add_node id data IH).
  - exact (consistent_add_edge f t ty IH).
Qed.

Lemma reachable_consistent_witness :
  consistent (add_edge "a.py::run" "a.py::run" "calls"
                (add_node "a.py::run" sample_node ccg_init)).
Proof.
  apply reachable_consistent. unfold reachable. repeat constructor.
Defined.

Lemma get_callers_scan t g : get_callers t g = spec_pointing_to (edges g) t.
Proof.
  unfold get_callers, spec_pointing_to.
  enough (H : forall acc,
             fold_left
               (fun callers '(from_id, to_ids) =>
                  if existsb (String.eqb t) to_ids then callers ++ [from_id] else callers)
               (edges g) acc
             = acc ++ map fst (filter (fun p => if in_dec string_dec t (snd p)
                                                then true else false) (edges g)))
    by apply (H []).
  induction (edges g) as [|[f tos] e IH]; intros acc; simpl.
  - now rewrite app_nil_r.
  - rewrite IH, existsb_eqb_in_dec.
    destruct (in_dec string_dec t tos); simpl; [|reflexivity].
    now rewrite <- app_assoc.
Qed.

Lemma spec_pointing_to_In e t f :
  In f (spec_pointing_to e t) <-> exists tos, In (f, tos) e /\ In t tos.
Proof.
  unfold spec_pointing_to. rewrite in_map_iff. split.
  - intros ([f' tos] & <- & H). apply filter_In in H. destruct H as [H1 H2].
    exists tos. split; [exact H1|]. simpl in H2.
    now destruct (in_dec string_dec t tos).
  - intros (tos & H1 & H2). exists (f, tos). split; [reflexivity|].
    apply filter_In. split; [exact H1|]. simpl.
    now destruct (in_dec string_dec t tos).
Qed.

Lemma NoDup_keys_filter {V} (P : string * V -> bool) (d : sdict V) :
  NoDup (PyDict.keys d) -> NoDup (PyDict.keys (filter P d)).
Proof.
  unfold PyDict.keys. induction d as [|[k v] d IH]; simpl; intros H; [constructor|].
  inversion H as [|? ? Hk Hd]; subst. destruct (P (k, v)); simpl; [|now apply IH].
  constructor; [|now apply IH]. intros Hin. apply Hk.
  apply in_map_iff in Hin. destruct Hin as (x & Hx & Hin). apply filter_In in Hin.
  apply in_map_iff. exists x. tauto.
Qed.

Lemma has_edge_In e f t :
  NoDup (PyDict.keys e) -> (has_edge e f t <-> exists tos, In (f, tos) e /\ In t tos).
Proof.
  intros Hnd. unfold has_edge. split.
  - apply sget_default_In.
  - intros (tos & H1 & H2). now rewrite (@In_sget_default _ f e tos Hnd H1).
Qed.

(** X2.  In a graph the class can hold, the scan [get_callers] and the
    lookup [get_callees] see the same edges: [f] is a caller of [t] exactly
    when [t] is a callee of [f]; both are then nodes.  The scan names a
    caller once, however often the edge was added. *)
Theorem callers_callees (g : CodeContextGraph) (f t : string) :
  reachable g ->
  (In f (get_callers t g) <-> In t (get_callees f g))
  /\ (In f (get_callers t g) ->
      In f (PyDict.keys (nodes g)) /\ In t (PyDict.keys (nodes g)))
  /\ NoDup (get_callers t g).
Proof.
  intros Hr. apply (@held_consistent _ g) in Hr. destruct Hr as [_ He _ Hends _ _ _].
  rewrite get_callers_scan.
  assert (Hiff : In f (spec_pointing_to (edges g) t) <-> has_edge (edges g) f t)
    by (now rewrite spec_pointing_to_In, has_edge_In).
  split; [exact Hiff | split].
  - intros H. apply Hends. now apply Hiff.
  - unfold spec_pointing_to. now apply NoDup_keys_filter.
Qed.

Lemma callers_callees_witness :
  let g := add_edge "a.py::run" "a.py::run" "calls"
             (add_edge "a.py::run" "a.py::run" "calls"
                (add_node "a.py::run" sample_node ccg_init)) in
  get_callees "a.py::run" g = ["a.py::run"; "a.py::run"]
  /\ NoDup (get_callers "a.py::run" g).
Proof.
  intros g. split; [reflexivity|].
  apply (@callers_callees g "a.py::run" "a.py::run"). unfold reachable.
  repeat constructor.
Defined.

(** ** Statistics *)

Lemma edge_total_sum (e : sdict (list string)) :
  edge_total e = list_sum (map (fun p => List.length (snd p)) e).
Proof.
  unfold edge_total, PyDict.values.
  enough (H : forall l acc,
             fold_left (fun acc (to_ids : list string) => acc + List.length to_ids)
               (map snd l) acc
             = acc + list_sum (map (fun p : string * list string => List.length (snd p)) l))
    by apply (H e 0).
  induction l as [|[k v] l IH]; intros acc; simpl; [lia|]. rewrite IH. lia.
Qed.

Lemma edge_total_sset k v (e : sdict (list string)) :
  edge_total (sset k v e) + List.length (sget_default k e [])
  = edge_total e + List.length v.
Proof.
  rewrite !edge_total_sum. unfold sget_default, PyDict.get_default.
  fold (@sget (list string)).
  induction e as [|[k1 v1] e IH]; simpl; [lia|].
  destruct (String.eqb k1 k); simpl; lia.
Qed.

Lemma edge_total_sappend k x e : edge_total (sappend k x e) = S (edge_total e).
Proof.
  unfold sappend.
  pose proof (edge_total_sset k (sget_default k e [] ++ [x]) e) as H.
  rewrite length_app in H. simpl in H. lia.
Qed.

Lemma sset_length {V} k (v : V) d :
  List.length (sset k v d) = if smem k d then List.length d else S (List.length d).
Proof.
  unfold smem, PyDict.mem. fold (@sget V).
  induction d as [|[k1 v1] d IH]; simpl; [reflexivity|].
  destruct (String.eqb k1 k); simpl; [reflexivity|].
  rewrite IH. now destruct (sget k d).
Qed.

(** X3.  How the statistics follow the two mutators.  An accepted
    [add_edge] raises [edge_count] by one, also when the same edge is
    added again, and leaves the other counts; a rejected one changes
    nothing.  [add_node] raises [node_count] by one for a new id and leaves
    it for a known id; it never changes [edge_count]. *)
Theorem stats_follow_mutators (g : CodeContextGraph) :
  (forall f t ty,
      let s := get_stats g in
      let s' := get_stats (add_edge f t ty g) in
      (if smem f (nodes g) && smem t (nodes g)
       then edge_count s' = S (edge_count s)
       else edge_count s' = edge_count s)
      /\ node_count s' = node_count s /\ file_count s' = file_count s)
  /\ (forall id data,
        let s := get_stats g in
        let s' := get_stats (add_node id data g) in
        node_count s' = (if smem id (nodes g) then node_count s else S (node_count s))
        /\ edge_count s' = edge_count s
        /\ file_count s <= file_count s' <= S (file_count s)).
Proof.
  split.
  - intros f t ty. unfold add_edge.
    destruct (smem f (nodes g) && smem t (nodes g)); simpl; [|tauto].
    now rewrite edge_total_sappend.
  - intros id data. unfold add_node.
    destruct (truthy _); simpl; rewrite sset_length; repeat split; try lia.
    + unfold sappend. rewrite sset_length. destruct (smem _ _); lia.
    + unfold sappend. rewrite sset_length. destruct (smem _ _); lia.
Qed.

(** ** Graphs made by the assembler *)

Lemma reachable_with_weaken (L : string -> Prop) g : reachable_with L g -> reachable g.
Proof. unfold reachable. induction 1; now constructor. Qed.

Section PassesReach.
Let L (ty : string) : Prop := ty = "calls".

Lemma reachable_add_nodes ws g : reachable_with L g -> reachable_with L (add_nodes ws g).
Proof.
  unfold add_nodes. revert g. induction ws as [|w ws IH]; intros g H; simpl; [exact H|].
  apply IH. now constructor.
Qed.

Lemma reachable_link_others name content id others g :
  reachable_with L g -> reachable_with L (link_others name content id others g).
Proof.
  unfold link_others. revert g.
  induction others as [|o others IH]; intros g H; simpl; [exact H|].
  apply IH. destruct (name_in_content name content); [now constructor | exact H].
Qed.

Lemma reachable_link_files path name content id items g :
  reachable_with L g -> reachable_with L (link_files path name content id items g).
Proof.
  unfold link_files. revert g.
  induction items as [|[q others] items IH]; intros g H; simpl; [exact H|].
  apply IH. destruct (String.eqb q path); [exact H | now apply reachable_link_others].
Qed.

Lemma reachable_pass2_file g pfile :
  reachable_with L g -> reachable_with L (pass2_file g pfile).
Proof.
  unfold pass2_file. destruct (p_content pfile) as [content|]; [|auto].
  destruct (has_error pfile); [auto|].
  generalize (sget_default (p_path pfile) (file_entities g) []) as ids.
  intros ids. revert g. induction ids as [|id ids IH]; intros g H; simpl; [exact H|].
  apply IH. unfold link_entity. now apply reachable_link_files.
Qed.

Lemma reachable_pass2 rs g : reachable_with L g -> reachable_with L (pass2 rs g).
Proof.
  unfold pass2. revert g. induction rs as [|r rs IH]; intros g H; simpl; [exact H|].
  apply IH. now apply reachable_pass2_file.
Qed.

Lemma built_with_calls rs : reachable_with L (built_graph rs).
Proof.
  unfold built_graph. apply reachable_pass2. rewrite pass1_writes.
  apply reachable_add_nodes. constructor.
Qed.

End PassesReach.

Lemma reachable_built rs : reachable (built_graph rs).
Proof. exact (reachable_with_weaken (built_with_calls rs)). Qed.

Lemma build_of_built rs : build_code_context_graph rs = to_dict (built_graph rs).
Proof. reflexivity. Qed.

(** ** Queries on a built graph *)

Lemma query_ccg_results ccg query_type name blocks :
  query_ccg ccg query_type name = QResults blocks ->
  blocks = flat_map (answer_blocks ccg query_type) (matching_entities (d_nodes ccg) name).
Proof.
  unfold query_ccg.
  destruct (matching_entities (d_nodes ccg) name) as [|m ms]; [discriminate|].
  intros H.
  match type of H with
  | QResults ?x = _ => assert (Hb : blocks = x) by congruence
  end.
  rewrite Hb. clear H Hb.
  etransitivity; [|exact (fold_left_snoc (answer_blocks ccg query_type) (m :: ms) [])].
  match goal with
  | |- fold_left ?f ?l ?a = _ =>
      apply (@fold_left_pointwise _ _ f
               (fun acc x => acc ++ answer_blocks ccg query_type x) l a)
  end.
  intros acc [id d]. unfold answer_blocks.
  destruct (String.eqb query_type "info"); [reflexivity|].
  destruct (String.eqb query_type "callees"); [reflexivity|].
  destruct (String.eqb query_type "callers"); [reflexivity|].
  now rewrite app_nil_r.
Qed.

Lemma callee_data_length nodes ids :
  (forall id, In id ids -> In id (PyDict.keys nodes)) ->
  List.length (callee_data nodes ids) = List.length ids.
Proof.
  induction ids as [|id ids IH]; intros H; simpl; [reflexivity|].
  destruct (sget id nodes) eqn:E.
  - simpl. f_equal. apply IH. intros i Hi. apply H. now right.
  - exfalso. apply sget_None in E. apply E, H. now left.
Qed.

(** X4.  On a snapshot made by [build_code_context_graph], a query loses
    nothing: in every [callees] block [calls] has one record per entry of
    the adjacency list, and in every [callers] block no entry of
    [called_by] is [None]. *)
Theorem query_on_build (parsed_files : list parsed_file)
    (query_type entity_name : string) (blocks : list query_block) :
  let ccg := build_code_context_graph parsed_files in
  query_ccg ccg query_type entity_name = QResults blocks ->
  Forall (complete_block ccg) blocks.
Proof.
  intros ccg H. apply query_ccg_results in H. subst blocks.
  pose proof (held_consistent (reachable_built parsed_files)) as Hc.
  destruct Hc as [Hn He _ Hends _ _ _].
  apply Forall_forall. intros b Hb. apply in_flat_map in Hb.
  destruct Hb as ([id d] & Hm & Hb). apply matching_entities_In in Hm.
  destruct Hm as [Hm _]. unfold answer_blocks in Hb.
  destruct (String.eqb query_type "info"); [destruct Hb as [<- | []]; exact I|].
  destruct (String.eqb query_type "callees").
  { destruct Hb as [<- | []]. exists id. split.
    - apply In_sget; [exact Hn | exact Hm].
    - apply callee_data_length. intros t Ht. now apply (Hends id t). }
  destruct (String.eqb query_type "callers"); [|destruct Hb].
  destruct Hb as [<- | []]. simpl. rewrite caller_data_spec.
  apply Forall_forall. intros o Ho. apply in_map_iff in Ho.
  destruct Ho as (f & <- & Hf). apply spec_pointing_to_In in Hf.
  assert (Hedge : has_edge (edges (built_graph parsed_files)) f id)
    by (apply has_edge_In; assumption).
  apply Hends in Hedge. destruct Hedge as [Hf' _].
  intros Hnone. apply sget_None in Hnone. contradiction.
Qed.

Lemma query_on_build_witness :
  Forall (complete_block (build_code_context_graph [util_py; core_py]))
    [BCallers (entity_record "helper" KFunction "python" "util.py")
       [Some (entity_record "compute_total" KFunction "python" "core.py")]].
Proof.
  apply (@query_on_build [util_py; core_py] "callers" "helper"). reflexivity.
Defined.

(** ** The type index of a built graph *)

Lemma In_pair_set (k k0 : string * string) (v v0 : string)
    (d : PyDict.t (string * string) string) :
  In (k, v) (PyDict.set pair_eqb k0 v0 d) -> (k = k0 /\ v = v0) \/ In (k, v) d.
Proof.
  induction d as [|[k1 v1] d IH]; simpl.
  - intros [[= <- <-] | []]. now left.
  - destruct (pair_eqb k1 k0) eqn:E; simpl.
    + apply pair_eqb_eq in E. subst k1.
      intros [[= <- <-] | H]; [now left | right; now right].
    + intros [H | H]; [right; now left|].
      apply IH in H. destruct H as [H | H]; [now left | right; now right].
Qed.

Lemma labels_reachable (L : string -> Prop) g :
  reachable_with L g -> forall k v, In (k, v) (edge_types g) -> L v.
Proof.
  induction 1 as [|id data g Hr IH|f t ty g Hty Hr IH]; intros k v Hin.
  - destruct Hin.
  - apply (IH k v). unfold add_node in Hin. now destruct (truthy _).
  - unfold add_edge in Hin. destruct (_ && _); [|now apply (IH k v)].
    simpl in Hin. apply In_pair_set in Hin.
    destruct Hin as [[_ ->] | Hin]; [exact Hty | now apply (IH k v)].
Qed.

(** The flattened index holds a value for every key of the index, and only
    values of the index. *)
Lemma flatten_types (et : PyDict.t (string * string) string) (acc : sdict string) :
  let flat := fold_left (fun acc '(k, v) => sset (fst k +++ "->" +++ snd k) v acc) et acc in
  (forall k v, In (k, v) et -> exists v', sget (flat_key k) flat = Some v')
  /\ (forall key v, sget key flat = Some v ->
      sget key acc = Some v \/ exists k, In (k, v) et /\ flat_key k = key)
  /\ (forall key v, sget key acc = Some v -> exists v', sget key flat = Some v').
Proof.
  revert acc. induction et as [|[k0 v0] et IH]; intros acc; simpl.
  - repeat split; [intros k v [] | tauto | eauto].
  - destruct (IH (sset (fst k0 +++ "->" +++ snd k0) v0 acc)) as (H1 & H2 & H3).
    repeat split.
    + intros k v [[= -> ->] | Hin]; [|now apply (H1 k v)].
      apply (H3 _ v). apply sget_sset_eq.
    + intros key v Hget. apply H2 in Hget. destruct Hget as [Hget | (k & Hk & <-)].
      * destruct (string_dec (fst k0 +++ "->" +++ snd k0) key) as [<- | Hne].
        -- rewrite sget_sset_eq in Hget. injection Hget as ->.
           right. exists k0. split; [now left | reflexivity].
        -- rewrite sget_sset_ne in Hget by exact Hne. now left.
      * right. exists k. split; [now right | reflexivity].
    + intros key v Hget.
      destruct (string_dec (fst k0 +++ "->" +++ snd k0) key) as [<- | Hne].
      * apply (H3 _ v0). apply sget_sset_eq.
      * apply (H3 _ v). now rewrite sget_sset_ne.
Qed.

(** X5.  In the snapshot of a built graph the type index is in step with
    the edges: every recorded edge has the entry ["from->to"] with type
    [calls], and every entry of the index is [calls] and names a recorded
    edge. *)
Theorem built_types_are_calls (parsed_files : list parsed_file) :
  let ccg := build_code_context_graph parsed_files in
  (forall f t, has_edge (d_edges ccg) f t ->
               sget (f +++ "->" +++ t) (d_edge_types ccg) = Some "calls")
  /\ (forall key ty, sget key (d_edge_types ccg) = Some ty ->
        ty = "calls"
        /\ exists f t, key = f +++ "->" +++ t /\ has_edge (d_edges ccg) f t).
Proof.
  intros ccg. unfold ccg. rewrite build_of_built. unfold to_dict. simpl.
  pose proof (labels_reachable (built_with_calls parsed_files)) as Hl.
  pose proof (held_consistent (reachable_built parsed_files)) as Hc.
  destruct Hc as [_ _ _ _ Hlab _ _].
  destruct (flatten_types (edge_types (built_graph parsed_files)) []) as (H1 & H2 & _).
  split.
  - intros f t He. apply Hlab in He. destruct He as [ty Hty].
    apply PyDictFacts.get_Some_In in Hty; [|apply pair_eqb_eq].
    destruct (H1 _ _ Hty) as [v' Hv']. unfold flat_key in Hv'. simpl in Hv'.
    rewrite Hv'. f_equal. apply H2 in Hv'.
    destruct Hv' as [Hv' | (k & Hk & _)]; [discriminate Hv' | now apply (Hl k)].
  - intros key ty Hget. apply H2 in Hget.
    destruct Hget as [Hget | ([f t] & Hk & <-)]; [discriminate Hget|].
    split; [now apply (Hl (f, t))|]. exists f, t. split; [reflexivity|].
    apply Hlab.
    destruct (PyDict.get pair_eqb (f, t) (edge_types (built_graph parsed_files)))
      as [ty'|] eqn:E; [now exists ty'|].
    apply PyDictFacts.get_None_keys in E; [|apply pair_eqb_eq].
    exfalso. apply E. apply (in_map fst) in Hk. exact Hk.
Qed.

(** ** Graphs without edges *)

Lemma pass2_skips rs g :
  (forall r, In r rs -> p_content r = None \/ has_error r = true) -> pass2 rs g = g.
Proof.
  unfold pass2. revert g. induction rs as [|r rs IH]; intros g H; simpl; [reflexivity|].
  assert (Hr : pass2_file g r = g).
  { unfold pass2_file. destruct (H r (or_introl eq_refl)) as [-> | Hr]; [reflexivity|].
    rewrite Hr. now destruct (p_content r). }
  rewrite Hr. apply IH. intros r' Hr'. apply H. now right.
Qed.

Lemma add_nodes_file_keys ws g q ids :
  In (q, ids) (file_entities (add_nodes ws g)) ->
  In q (PyDict.keys (file_entities g)) \/ exists w, In w ws /\ write_path w = q.
Proof.
  unfold add_nodes. revert g. induction ws as [|w ws IH]; intros g Hin; simpl in *.
  - left. apply (in_map fst) in Hin. exact Hin.
  - apply IH in Hin. destruct Hin as [Hin | (w' & Hw & Hp)]; [|right; exists w'; tauto].
    unfold add_node in Hin.
    destruct (e_file_path (snd w)) as [fp|] eqn:E; [|now left].
    destruct (truthy fp); [|now left]. simpl in Hin.
    unfold sappend in Hin. apply sset_keys in Hin.
    destruct Hin as [-> | Hin]; [|now left].
    right. exists w. split; [now left|]. unfold write_path. now rewrite E.
Qed.

Lemma writes_of_path pfile w : In w (writes_of pfile) -> write_path w = p_path pfile.
Proof.
  destruct w as [id d]. intros H. apply writes_of_In in H.
  destruct H as (_ & k & names & name & _ & _ & _ & ->). reflexivity.
Qed.

Lemma no_edge_nil g :
  consistent g -> (forall f t, ~ has_edge (edges g) f t) -> edges g = [].
Proof.
  intros Hc Hno. destruct (edges g) as [|[f tos] e] eqn:E; [reflexivity|].
  exfalso. destruct tos as [|t tos].
  - apply (@adjacency_filled g Hc f []); [rewrite E; now left | reflexivity].
  - apply (Hno f t). unfold has_edge, sget_default, PyDict.get_default.
    simpl. rewrite String.eqb_refl. now left.
Qed.

(** X6.  When no record can be a scanning file (each lacks [content] or
    carries an error), or when all records have one path, the built graph
    has no edge at all: [edges] is empty and [edge_count] is 0. *)
Theorem no_edges_built (parsed_files : list parsed_file) :
  (forall r, In r parsed_files -> p_content r = None \/ has_error r = true)
  \/ (exists p, forall r, In r parsed_files -> p_path r = p) ->
  d_edges (build_code_context_graph parsed_files) = []
  /\ edge_count (d_stats (build_code_context_graph parsed_files)) = 0.
Proof.
  intros H.
  assert (He : edges (built_graph parsed_files) = []).
  { destruct H as [H | [p Hp]].
    - unfold built_graph. rewrite (pass2_skips _ _ H), pass1_writes.
      now rewrite add_nodes_edges.
    - apply no_edge_nil; [apply (held_consistent (reachable_built parsed_files))|].
      intros f t Hedge.
      assert (Hb : has_edge (d_edges (build_code_context_graph parsed_files)) f t)
        by exact Hedge.
      apply build_has_edge in Hb. destruct Hb as (pfile & Hin & Hl).
      destruct Hl as (content & _ & _ & _ & _ & (q & others & Hq & Hne & _) & _).
      rewrite pass1_writes in Hq. apply add_nodes_file_keys in Hq.
      destruct Hq as [[] | (w & Hw & Hwp)].
      apply in_flat_map in Hw. destruct Hw as (r & Hr & Hw).
      apply writes_of_path in Hw. apply Hne.
      rewrite <- Hwp, Hw, (Hp r Hr), (Hp pfile Hin). reflexivity. }
  rewrite build_of_built. unfold to_dict, get_stats. simpl. now rewrite He.
Qed.

Lemma no_edges_built_witness :
  d_edges (build_code_context_graph sample_parsed_files) = []
  /\ edge_count (d_stats (build_code_context_graph sample_parsed_files)) = 0.
Proof.
  apply no_edges_built. left.
  intros r [<- | [<- | []]]; now left.
Defined.

(** ** The order of the nodes and the file index *)

Lemma first_seen_ext seen seen' l :
  (forall x, In x seen <-> In x seen') -> first_seen seen l = first_seen seen' l.
Proof.
  revert seen seen'. induction l as [|y l IH]; intros seen seen' H; simpl; [reflexivity|].
  rewrite !existsb_eqb_in_dec.
  destruct (in_dec string_dec y seen) as [Hy | Hy],
           (in_dec string_dec y seen') as [Hy' | Hy'].
  - now apply IH.
  - exfalso. apply Hy'. now apply H.
  - exfalso. apply Hy. now apply H.
  - f_equal. apply IH. intros x. simpl. rewrite H. tauto.
Qed.

Lemma sset_keys_order {V} k (v : V) d :
  PyDict.keys (sset k v d)
  = if smem k d then PyDict.keys d else PyDict.keys d ++ [k].
Proof.
  destruct (smem k d) eqn:E.
  - apply sset_keys_present. now apply smem_keys.
  - apply smem_false_keys in E. unfold sset.
    rewrite PyDictFacts.set_absent; [|apply String.eqb_eq | exact E].
    unfold PyDict.keys. now rewrite map_app.
Qed.

Lemma add_nodes_order ws g :
  PyDict.keys (nodes (add_nodes ws g))
  = PyDict.keys (nodes g) ++ first_seen (PyDict.keys (nodes g)) (map fst ws).
Proof.
  unfold add_nodes. revert g. induction ws as [|[id d] ws IH]; intros g; simpl.
  - now rewrite app_nil_r.
  - rewrite IH, add_node_nodes, sset_keys_order, existsb_eqb_in_dec.
    destruct (smem id (nodes g)) eqn:E.
    + apply smem_keys in E. now destruct (in_dec string_dec id (PyDict.keys (nodes g))).
    + apply smem_false_keys in E.
      destruct (in_dec string_dec id (PyDict.keys (nodes g))); [contradiction|].
      rewrite <- app_assoc. simpl. f_equal. f_equal. apply first_seen_ext.
      intros x. rewrite in_app_iff. simpl. tauto.
Qed.

(** X7.  The nodes of a built graph stand in the order in which pass 1
    first wrote their ids: record after record and, within a record, in the
    order of the loops of its language; writing an id again does not move
    it.  Each id stands once. *)
Theorem built_node_order (parsed_files : list parsed_file) :
  PyDict.keys (d_nodes (build_code_context_graph parsed_files))
  = first_seen [] (map fst (flat_map writes_of parsed_files)).
Proof. rewrite build_nodes. apply (add_nodes_order _ ccg_init). Qed.

Lemma add_node_bucket id d g p :
  p <> "" ->
  sget_default p (file_entities (add_node id d g)) []
  = sget_default p (file_entities g) []
    ++ (if String.eqb (write_path (id, d)) p then [id] else []).
Proof.
  intros Hp. unfold write_path, add_node. cbn [snd].
  destruct (e_file_path d) as [fp|].
  - destruct (String.eqb_spec fp p) as [-> | Hne].
    + destruct p as [|c p]; [congruence|]. cbn [truthy file_entities].
      unfold sget_default at 1, PyDict.get_default. fold (@sget (list string)).
      now rewrite sappend_get_eq.
    + rewrite app_nil_r. destruct fp as [|c fp]; cbn [truthy file_entities]; [reflexivity|].
      unfold sget_default at 1, PyDict.get_default. fold (@sget (list string)).
      now rewrite sappend_get_ne.
  - destruct (String.eqb_spec "" p); [congruence|]. now rewrite app_nil_r.
Qed.

Lemma add_nodes_bucket ws g p :
  p <> "" ->
  sget_default p (file_entities (add_nodes ws g)) []
  = sget_default p (file_entities g) []
    ++ map fst (filter (fun w => String.eqb (write_path w) p) ws).
Proof.
  intros Hp. unfold add_nodes. revert g.
  induction ws as [|[id d] ws IH]; intros g; [cbn; now rewrite app_nil_r|].
  cbn [fold_left filter fst snd]. rewrite IH, (add_node_bucket id d g Hp), <- app_assoc.
  f_equal. now destruct (String.eqb (write_path (id, d)) p).
Qed.

(** X8.  The bucket of the file index for a non-empty path holds, in
    order, the id of every write pass 1 made for a record of that path, with
    its repetitions: an id written twice is listed twice. *)
Theorem built_file_index (parsed_files : list parsed_file) (p : string) :
  p <> "" ->
  sget_default p (file_entities (built_graph parsed_files)) []
  = map fst (filter (fun w => String.eqb (write_path w) p)
               (flat_map writes_of parsed_files)).
Proof.
  intros Hp. unfold built_graph.
  rewrite (proj2 (pass2_frame parsed_files _)), pass1_writes.
  now rewrite add_nodes_bucket.
Qed.

Lemma built_file_index_witness :
  sget_default "main.py" (file_entities (built_graph sample_parsed_files)) []
  = ["main.py::main"; "main.py::init_app"; "main.py::run_server"; "main.py::Application"].
Proof.
  rewrite built_file_index; [reflexivity | discriminate].
Defined.

(** * Further properties of the diagram projector *)

Lemma existsb_pair_In p l : existsb (pair_eqb p) l = true <-> In p l.
Proof.
  rewrite existsb_exists. split.
  - intros (x & Hx & E). apply pair_eqb_eq in E. now subst.
  - intros H. exists p. split; [exact H | now apply pair_eqb_eq].
Qed.

Lemma existsb_eqb_In x l : existsb (String.eqb x) l = true <-> In x l.
Proof.
  rewrite existsb_eqb_in_dec. destruct (in_dec string_dec x l); intuition discriminate.
Qed.

Lemma concat_app_lines (a b : list string) :
  String.concat "" (a ++ b) = String.concat "" a +++ String.concat "" b.
Proof.
  induction a as [|x a IH]; [reflexivity|].
  destruct a as [|y a].
  - simpl. destruct b; simpl; [now rewrite append_nil_r | reflexivity].
  - change (String.concat "" ((x :: y :: a) ++ b))
      with (x +++ "" +++ String.concat "" ((y :: a) ++ b)).
    rewrite IH. simpl. now rewrite append_assoc.
Qed.

Lemma inner_loop_pairs top from_id to_ids mermaid added :
  fold_left
    (fun '(mermaid, added_edges) to_id =>
       if existsb (String.eqb to_id) top
          && negb (existsb (pair_eqb (from_id, to_id)) added_edges)
       then (mermaid +++ edge_line from_id to_id, (from_id, to_id) :: added_edges)
       else (mermaid, added_edges))
    to_ids (mermaid, added)
  = (mermaid +++ String.concat "" (map pair_line (new_pairs top from_id to_ids added)),
     rev (new_pairs top from_id to_ids added) ++ added).
Proof.
  revert mermaid added. induction to_ids as [|t to_ids IH]; intros mermaid added; simpl.
  - now rewrite append_nil_r.
  - destruct (existsb (String.eqb t) top && negb (existsb (pair_eqb (from_id, t)) added)).
    + rewrite IH. f_equal.
      * change (map pair_line ((from_id, t) :: ?l))
          with ([edge_line from_id t] ++ map pair_line l).
        rewrite (concat_app_lines [edge_line from_id t]). simpl.
        now rewrite append_assoc.
      * simpl. now rewrite <- app_assoc.
    + apply IH.
Qed.

Lemma emit_edges_pairs edges top ids mermaid added :
  fold_left
    (fun st from_id =>
       fold_left
         (fun '(mermaid, added_edges) to_id =>
            if existsb (String.eqb to_id) top
               && negb (existsb (pair_eqb (from_id, to_id)) added_edges)
            then (mermaid +++ edge_line from_id to_id, (from_id, to_id) :: added_edges)
            else (mermaid, added_edges))
         (sget_default from_id edges []) st)
    ids (mermaid, added)
  = (mermaid +++ String.concat "" (map pair_line (all_pairs edges top ids added)),
     rev (all_pairs edges top ids added) ++ added).
Proof.
  revert mermaid added. induction ids as [|f ids IH]; intros mermaid added; simpl.
  - now rewrite append_nil_r.
  - rewrite inner_loop_pairs, IH. f_equal.
    + now rewrite map_app, concat_app_lines, append_assoc.
    + now rewrite rev_app_distr, <- app_assoc.
Qed.

Lemma new_pairs_spec top f to_ids added :
  NoDup (new_pairs top f to_ids added)
  /\ forall p, In p (new_pairs top f to_ids added)
               <-> fst p = f /\ In (snd p) to_ids /\ In (snd p) top /\ ~ In p added.
Proof.
  revert added. induction to_ids as [|t to_ids IH]; intros added; simpl.
  - split; [constructor | tauto].
  - destruct (existsb (String.eqb t) top) eqn:Et; simpl.
    + apply existsb_eqb_In in Et.
      destruct (existsb (pair_eqb (f, t)) added) eqn:Ea; simpl.
      * apply existsb_pair_In in Ea. destruct (IH added) as [Hnd Hin].
        split; [exact Hnd|]. intros [pf pt]. rewrite Hin. simpl. split; [tauto|].
        intros (-> & [-> | Ht] & H3 & H4); tauto.
      * assert (Hna : ~ In (f, t) added).
        { intros H. apply existsb_pair_In in H. congruence. }
        destruct (IH ((f, t) :: added)) as [Hnd Hin]. split.
        -- constructor; [|exact Hnd]. rewrite Hin. simpl. tauto.
        -- intros [pf pt]. simpl. rewrite Hin. simpl. split.
           ++ intros [[= <- <-] | (-> & H2 & H3 & H4)]; tauto.
           ++ intros (-> & [-> | Ht] & H3 & H4); [now left|].
              destruct (string_dec t pt) as [-> | Hne]; [now left|].
              right. repeat split; try assumption. intros [[= E] | H]; tauto.
    + destruct (IH added) as [Hnd Hin]. split; [exact Hnd|].
      intros [pf pt]. rewrite Hin. simpl. split; [tauto|].
      intros (-> & [-> | Ht] & H3 & H4); [|tauto].
      apply existsb_eqb_In in H3. congruence.
Qed.

Lemma all_pairs_spec edges top ids added :
  NoDup (all_pairs edges top ids added)
  /\ forall p, In p (all_pairs edges top ids added)
               <-> In (fst p) ids /\ has_edge edges (fst p) (snd p)
                   /\ In (snd p) top /\ ~ In p added.
Proof.
  revert added. induction ids as [|f ids IH]; intros added; simpl.
  - split; [constructor | tauto].
  - destruct (new_pairs_spec top f (sget_default f edges []) added) as [Hnd1 Hin1].
    destruct (IH (rev (new_pairs top f (sget_default f edges []) added) ++ added))
      as [Hnd2 Hin2].
    assert (Hadd : forall p,
               In p (rev (new_pairs top f (sget_default f edges []) added) ++ added)
               <-> In p (new_pairs top f (sget_default f edges []) added) \/ In p added)
      by (intros p; now rewrite in_app_iff, <- in_rev).
    split.
    + apply NoDup_app; [exact Hnd1 | exact Hnd2|].
      intros p H1 H2. apply Hin2 in H2. apply (proj2 (proj2 (proj2 H2))).
      apply Hadd. now left.
    + intros p. rewrite in_app_iff, Hin1, Hin2, Hadd, Hin1. unfold has_edge.
      destruct p as [pf pt]. simpl. split.
      * intros [(-> & H2 & H3 & H4) | (H1 & H2 & H3 & H4)]; tauto.
      * intros ([-> | H1] & H2 & H3 & H4); [tauto|].
        destruct (string_dec f pf) as [-> | Hne]; [tauto|].
        right. repeat split; try assumption. intros [(E & _) | H]; [congruence | tauto].
Qed.

Lemma insert_desc_weak x l :
  StronglySorted ranks_not_after l -> StronglySorted ranks_not_after (insert_desc x l).
Proof.
  intros Hs. induction Hs as [|y l Hs IH Hy]; simpl.
  - constructor; constructor.
  - destruct (Nat.ltb_spec (snd x) (snd y)) as [Hlt | Hge].
    + constructor; [exact IH|]. apply Forall_forall. intros z Hz.
      apply insert_desc_In in Hz. destruct Hz as [-> | Hz].
      * unfold ranks_not_after. lia.
      * rewrite Forall_forall in Hy. now apply Hy.
    + constructor; [now constructor|].
      constructor; [exact Hge|]. apply Forall_forall. intros z Hz.
      rewrite Forall_forall in Hy. specialize (Hy z Hz). unfold ranks_not_after in *. lia.
Qed.

Lemma sorted_desc_weak l : StronglySorted ranks_not_after (sorted_desc l).
Proof.
  induction l as [|x l IH]; simpl; [constructor | now apply insert_desc_weak].
Qed.

Lemma sorted_split {A} (R : A -> A -> Prop) k l x y :
  StronglySorted R l -> In x (firstn k l) -> In y (skipn k l) -> R x y.
Proof.
  intros Hs. revert k. induction Hs as [|a l Hs IH Ha]; intros k Hx Hy.
  - rewrite firstn_nil in Hx. destruct Hx.
  - destruct k as [|k]; simpl in *; [destruct Hx|].
    destruct Hx as [<- | Hx]; [|now apply (IH k)].
    rewrite Forall_forall in Ha. apply Ha.
    rewrite <- (firstn_skipn k l). apply in_or_app. now right.
Qed.

Lemma slice_to_split {A} (n : Z) (l : list A) :
  exists k, slice_to n l = firstn k l /\ List.length (slice_to n l) = slice_length n (List.length l).
Proof.
  unfold slice_to, slice_length. destruct (0 <=? n)%Z.
  - exists (Z.to_nat n). split; [reflexivity | apply length_firstn].
  - exists (List.length l - Z.to_nat (- n)). split; [reflexivity|].
    rewrite length_firstn. lia.
Qed.

(** The first loop, with the record each block was made from. *)
Lemma emit_nodes_records nodes ids mermaid :
  (forall id, In id ids -> In id (PyDict.keys nodes)) ->
  exists shown,
    emit_nodes nodes ids mermaid
    = Some (mermaid +++ String.concat "" (map (fun '(id, d) => node_lines id d) shown))
    /\ map fst shown = ids
    /\ Forall (fun '(id, d) => sget id nodes = Some d) shown.
Proof.
  unfold emit_nodes. revert mermaid.
  induction ids as [|id ids IH]; intros mermaid Hin; simpl.
  - exists []. simpl. rewrite append_nil_r. repeat split. constructor.
  - destruct (sget id nodes) as [d|] eqn:E.
    + destruct (IH (mermaid +++ node_lines id d)) as (shown & H1 & H2 & H3).
      { intros id' H. apply Hin. now right. }
      exists ((id, d) :: shown). repeat split.
      * rewrite H1, append_assoc. f_equal. f_equal.
        destruct shown as [|[? ?] ?]; simpl; [now rewrite append_nil_r | reflexivity].
      * simpl. now rewrite H2.
      * constructor; [exact E | exact H3].
    + exfalso. apply sget_None in E. apply E, Hin. now left.
Qed.

Section SelectionFacts.
Context {SO : SetOrder}.

Lemma set_iter_same_length (l : list string) :
  NoDup l -> List.length (set_iter l) = List.length l.
Proof.
  intros H. apply Permutation_length. apply NoDup_Permutation.
  - apply set_iter_NoDup.
  - exact H.
  - intros x. apply set_iter_In.
Qed.

(** X9.  The edge lines of the diagram: after the header and the blocks
    of the selected nodes, one line for each pair [(f, t)] with [f] and [t]
    both selected and [t] in the adjacency list of [f], and no pair twice,
    however often the edge was recorded.  This holds for
    every snapshot and every bound, negative bounds included. *)
Theorem diagram_edges (ccg : ccg_dict) (max_nodes : Z) :
  exists decls pairs,
    generate_mermaid_diagram ccg max_nodes
    = Some (mermaid_header +++ String.concat "" decls
            +++ String.concat "" (map pair_line pairs))
    /\ Forall (fun s => exists id d, sget id (d_nodes ccg) = Some d /\ s = node_lines id d)
         decls
    /\ NoDup pairs
    /\ forall f t,
         In (f, t) pairs
         <-> In f (top_node_ids ccg max_nodes) /\ In t (top_node_ids ccg max_nodes)
             /\ has_edge (d_edges ccg) f t.
Proof.
  unfold generate_mermaid_diagram.
  destruct (@emit_nodes_blocks (d_nodes ccg) (set_iter (top_node_ids ccg max_nodes))
              mermaid_header) as (decls & H1 & _ & Hd).
  { intros id Hin. apply (proj1 (set_iter_In _ _)) in Hin.
    now apply top_node_ids_nodes in Hin. }
  rewrite H1. unfold emit_edges. rewrite emit_edges_pairs. cbn [fst].
  exists decls, (all_pairs (d_edges ccg) (top_node_ids ccg max_nodes)
                   (set_iter (top_node_ids ccg max_nodes)) []).
  destruct (all_pairs_spec (d_edges ccg) (top_node_ids ccg max_nodes)
              (set_iter (top_node_ids ccg max_nodes)) []) as [Hnd Hin].
  split; [now rewrite append_assoc | split; [exact Hd | split; [exact Hnd|]]].
  intros f t. rewrite Hin. simpl. rewrite set_iter_In. tauto.
Qed.

(** X10.  Which nodes the diagram shows.  For a snapshot whose node
    mapping is a dictionary the projector returns a text (no [KeyError])
    for every bound; the declaration blocks are the blocks of the selected
    nodes in the order the set yields them, each node once; their number is
    the length of the slice [[:max_nodes]] of the node list, so a negative
    bound drops that many nodes from the end of the ranking instead of
    showing none; and no node left out has more outgoing edges than a node
    shown. *)
Theorem diagram_selection (ccg : ccg_dict) (max_nodes : Z) :
  NoDup (PyDict.keys (d_nodes ccg)) ->
  (exists shown lines,
      generate_mermaid_diagram ccg max_nodes
      = Some (mermaid_header
              +++ String.concat "" (map (fun '(id, d) => node_lines id d) shown)
              +++ String.concat "" lines)
      /\ map fst shown = set_iter (top_node_ids ccg max_nodes)
      /\ Forall (fun '(id, d) => sget id (d_nodes ccg) = Some d) shown
      /\ NoDup (map fst shown)
      /\ List.length shown = slice_length max_nodes (List.length (d_nodes ccg)))
  /\ (forall shown hidden,
        In shown (top_node_ids ccg max_nodes) ->
        In hidden (PyDict.keys (d_nodes ccg)) ->
        ~ In hidden (top_node_ids ccg max_nodes) ->
        out_degree ccg hidden <= out_degree ccg shown).
Proof.
  intros Hnd.
  pose proof (node_connections_map ccg Hnd) as Hnc.
  assert (Hkeys : map fst (node_connections ccg) = PyDict.keys (d_nodes ccg)).
  { rewrite Hnc, map_map. simpl. apply map_id. }
  destruct (slice_to_split max_nodes (sorted_desc (node_connections ccg)))
    as (k & Hk & Hlen).
  assert (Htop : top_node_ids ccg max_nodes
                 = firstn k (map fst (sorted_desc (node_connections ccg)))).
  { unfold top_node_ids, top_nodes. now rewrite Hk, firstn_map. }
  assert (Hperm : Permutation (map fst (sorted_desc (node_connections ccg)))
                    (PyDict.keys (d_nodes ccg))).
  { rewrite <- Hkeys. apply Permutation_map, sorted_desc_perm. }
  assert (Hnd' : NoDup (map fst (sorted_desc (node_connections ccg))))
    by (apply (Permutation_NoDup (Permutation_sym Hperm) Hnd)).
  split.
  - unfold generate_mermaid_diagram.
    destruct (@emit_nodes_records (d_nodes ccg) (set_iter (top_node_ids ccg max_nodes))
                mermaid_header) as (shown & H1 & H2 & H3).
    { intros id Hin. apply (proj1 (set_iter_In _ _)) in Hin.
      now apply top_node_ids_nodes in Hin. }
    rewrite H1.
    destruct (emit_edges_lines (d_edges ccg) (top_node_ids ccg max_nodes)
                (set_iter (top_node_ids ccg max_nodes))
                (mermaid_header
                 +++ String.concat "" (map (fun '(id, d) => node_lines id d) shown)))
      as (lines & H4 & _).
    exists shown, lines. rewrite H4, append_assoc.
    split; [reflexivity|]. split; [exact H2|]. split; [exact H3|].
    split; [rewrite H2; apply set_iter_NoDup|].
    rewrite <- (length_map fst shown), H2, set_iter_same_length.
    + unfold top_node_ids, top_nodes. rewrite length_map, Hlen.
      f_equal. rewrite (Permutation_length (sorted_desc_perm _)).
      rewrite Hnc. unfold PyDict.keys. now rewrite !length_map.
    + rewrite Htop. rewrite <- (firstn_skipn k) in Hnd'.
      now apply NoDup_app_remove_r in Hnd'.
  - intros shown hidden Hs Hh Hnot.
    unfold top_node_ids, top_nodes in Hs. rewrite Hk in Hs.
    apply in_map_iff in Hs. destruct Hs as ([s ns] & <- & Hs).
    assert (Hin : In (hidden, out_degree ccg hidden)
                    (sorted_desc (node_connections ccg))).
    { apply (Permutation_in _ (Permutation_sym (sorted_desc_perm _))).
      rewrite Hnc. apply in_map_iff. now exists hidden. }
    rewrite <- (firstn_skipn k) in Hin. apply in_app_or in Hin.
    destruct Hin as [Hin | Hin].
    + exfalso. apply Hnot. unfold top_node_ids, top_nodes. rewrite Hk.
      apply in_map_iff. now exists (hidden, out_degree ccg hidden).
    + pose proof (@sorted_split _ _ k _ _ _ (sorted_desc_weak _) Hs Hin) as Hr.
      unfold ranks_not_after in Hr. simpl in *.
      assert (Hs' : In (s, ns) (node_connections ccg)).
      { apply (Permutation_in _ (sorted_desc_perm _)).
        rewrite <- (firstn_skipn k). apply in_or_app. now left. }
      rewrite Hnc in Hs'. apply in_map_iff in Hs'.
      destruct Hs' as (s' & [= -> <-] & _). exact Hr.
Qed.

End SelectionFacts.

Lemma diagram_selection_witness :
  exists shown lines,
    generate_mermaid_diagram snapshot_ab (-1)
    = Some (mermaid_header
            +++ String.concat "" (map (fun '(id, d) => node_lines id d) shown)
            +++ String.concat "" lines)
    /\ List.length shown = 1.
Proof.
  destruct (@diagram_selection first_seen_order snapshot_ab (-1)%Z)
    as [(shown & lines & H1 & _ & _ & _ & H2) _].
  - repeat constructor; simpl; intuition discriminate.
  - exists shown, lines. split; [exact H1 | exact H2].
Defined.


(** ** The edges of a built graph, read off the records *)

Lemma consistent_add_nodes ws g : consistent g -> consistent (add_nodes ws g).
Proof.
  unfold add_nodes. revert g. induction ws as [|w ws IH]; intros g H; simpl; [exact H|].
  apply IH. now apply consistent_add_node.
Qed.

Lemma pass1_bucket rs p id :
  In id (sget_default p (file_entities (pass1 rs ccg_init)) [])
  <-> p <> "" /\ written rs id p.
Proof.
  rewrite pass1_writes. split.
  - intros Hin.
    assert (Hp : p <> "").
    { apply sget_default_In in Hin. destruct Hin as (l & Hl & _).
      pose proof (consistent_add_nodes (flat_map writes_of rs) consistent_init) as Hc.
      now destruct (@file_listed _ Hc p l Hl). }
    split; [exact Hp|].
    rewrite (add_nodes_bucket _ _ Hp) in Hin. simpl in Hin.
    apply in_map_iff in Hin. destruct Hin as (w & <- & Hw).
    apply filter_In in Hw. destruct Hw as [Hw He].
    apply String.eqb_eq in He. now exists w.
  - intros [Hp (w & Hw & <- & Hwp)].
    rewrite (add_nodes_bucket _ _ Hp). simpl.
    apply in_map. apply filter_In. split; [exact Hw|]. now apply String.eqb_eq.
Qed.

Lemma pass1_other_bucket rs p f :
  (exists q others,
      In (q, others) (file_entities (pass1 rs ccg_init)) /\ q <> p /\ In f others)
  <-> exists q, q <> "" /\ q <> p /\ written rs f q.
Proof.
  pose proof (consistent_add_nodes (flat_map writes_of rs) consistent_init) as Hc.
  rewrite <- pass1_writes in Hc. split.
  - intros (q & others & Hq & Hne & Hf). exists q.
    assert (Hb : sget_default q (file_entities (pass1 rs ccg_init)) [] = others)
      by (apply In_sget_default; [apply (files_unique Hc) | exact Hq]).
    assert (Hin : In f (sget_default q (file_entities (pass1 rs ccg_init)) []))
      by (now rewrite Hb).
    apply pass1_bucket in Hin. tauto.
  - intros (q & Hq & Hne & Hw).
    assert (Hin : In f (sget_default q (file_entities (pass1 rs ccg_init)) []))
      by (apply pass1_bucket; tauto).
    apply sget_default_In in Hin. destruct Hin as (l & Hl & Hf).
    exists q, l. tauto.
Qed.

Lemma written_node rs id p :
  written rs id p -> In id (PyDict.keys (nodes (pass1 rs ccg_init))).
Proof.
  intros (w & Hw & <- & _). rewrite pass1_writes. apply add_nodes_keys. left.
  now apply in_map.
Qed.

(** What [links] says, in terms of the records. *)
Lemma links_records rs r f t :
  links (pass1 rs ccg_init) r f t
  <-> exists content q,
        p_content r = Some content /\ has_error r = false
        /\ p_path r <> "" /\ written rs t (p_path r)
        /\ name_in_content (stored_name (pass1 rs ccg_init) t) content = true
        /\ q <> "" /\ q <> p_path r /\ written rs f q.
Proof.
  unfold links. split.
  - intros (content & Hc & He & Ht & Hn & Ho & _).
    apply pass1_bucket in Ht. apply pass1_other_bucket in Ho.
    destruct Ho as (q & Hq & Hne & Hw).
    exists content, q. tauto.
  - intros (content & q & Hc & He & Hp & Ht & Hn & Hq & Hne & Hw).
    exists content.
    split; [exact Hc|]. split; [exact He|].
    split; [apply pass1_bucket; tauto|]. split; [exact Hn|].
    split; [apply pass1_other_bucket; exists q; tauto|].
    split; [exact (written_node Hw) | exact (written_node Ht)].
Qed.

Lemma stored_name_built rs t :
  stored_name (built_graph rs) t = stored_name (pass1 rs ccg_init) t.
Proof.
  unfold stored_name, get_entity, built_graph.
  now rewrite (proj1 (pass2_frame rs _)).
Qed.

(** X11.  The edges of a built graph in terms of the records alone.  An
    edge [f -> t] is recorded exactly when some record with text and
    without error has a non-empty path under which pass 1 wrote [t], the
    name stored for [t] is longer than 3 characters and occurs in the text
    of that record, and pass 1 wrote [f] under another non-empty path.  The
    name of [f] plays no part. *)
Theorem built_edges (parsed_files : list parsed_file) (f t : string) :
  has_edge (d_edges (build_code_context_graph parsed_files)) f t
  <-> exists r content q,
        In r parsed_files
        /\ p_content r = Some content /\ has_error r = false
        /\ p_path r <> "" /\ written parsed_files t (p_path r)
        /\ name_in_content (stored_name (built_graph parsed_files) t) content = true
        /\ q <> "" /\ q <> p_path r /\ written parsed_files f q.
Proof.
  rewrite build_has_edge, stored_name_built. split.
  - intros (r & Hr & Hl). apply links_records in Hl.
    destruct Hl as (content & q & Hl). exists r, content, q. tauto.
  - intros (r & content & q & Hr & Hl). exists r. split; [exact Hr|].
    apply links_records. exists content, q. exact Hl.
Qed.


(** * Records that leave no trace in the graph *)

Lemma name_in_content_empty name : name_in_content name "" = false.
Proof. unfold name_in_content. now destruct name. Qed.

Lemma link_entity_empty path g id : link_entity path "" g id = g.
Proof.
  unfold link_entity, link_files.
  generalize (file_entities g) at 1. intros items. revert g.
  induction items as [|[q others] items IH]; intros g; simpl; [reflexivity|].
  destruct (String.eqb q path); [apply IH|].
  assert (H : link_others
                match e_name (get_entity id g) with Some n => n | None => "" end
                "" id others g = g).
  { unfold link_others. rewrite name_in_content_empty.
    clear. induction others; simpl; auto. }
  rewrite H at 1. apply IH.
Qed.

Lemma pass2_file_silent g r :
  has_error r = true \/ p_content r = None \/ p_content r = Some ""
  \/ sget_default (p_path r) (file_entities g) [] = [] ->
  pass2_file g r = g.
Proof.
  unfold pass2_file. intros [H | [H | [H | H]]].
  - rewrite H. now destruct (p_content r).
  - now rewrite H.
  - rewrite H. destruct (has_error r); [reflexivity|].
    induction (sget_default (p_path r) (file_entities g) []) as [|id ids IH];
      simpl; [reflexivity|].
    now rewrite link_entity_empty.
  - rewrite H. destruct (p_content r); [|reflexivity].
    now destruct (has_error r).
Qed.

(** A record that writes no node and cannot scan leaves no trace. *)
Lemma silent_record rs1 r rs2 :
  writes_of r = [] ->
  has_error r = true \/ p_content r = None \/ p_content r = Some ""
  \/ (forall id, ~ written (rs1 ++ rs2) id (p_path r)) ->
  build_code_context_graph (rs1 ++ r :: rs2) = build_code_context_graph (rs1 ++ rs2).
Proof.
  intros Hw Hs. unfold build_code_context_graph. f_equal.
  assert (H1 : pass1 (rs1 ++ r :: rs2) ccg_init = pass1 (rs1 ++ rs2) ccg_init).
  { rewrite !pass1_writes, !flat_map_app. simpl. now rewrite Hw. }
  rewrite H1. unfold pass2. rewrite !fold_left_app. simpl. f_equal.
  fold (pass2 rs1 (pass1 (rs1 ++ rs2) ccg_init)).
  apply pass2_file_silent.
  destruct Hs as [H | [H | [H | H]]]; [tauto | tauto | tauto |].
  right. right. right.
  rewrite (proj2 (pass2_frame rs1 _)).
  destruct (sget_default (p_path r) (file_entities (pass1 (rs1 ++ rs2) ccg_init)) [])
    as [|id ids] eqn:E; [reflexivity|].
  exfalso. apply (H id). apply (pass1_bucket (rs1 ++ rs2) (p_path r) id).
  rewrite E. now left.
Qed.

Section ExtractorRuns.
Context {SO : SetOrder}.
Variable re_findall : string -> string -> list string.
Variable ast_parse : string -> parse_outcome.

(** X12.  A file whose extraction failed leaves no trace in the graph:
    whether reading it raised or [ast.parse] gave no tree, the graph built
    with its record is the graph built without it, wherever the record
    stands in the list, whatever its path, and also when the message of the
    exception is empty (the record is then not skipped as an error). *)
Theorem failed_files_ignored (ext : string) (file : string + string) (path : string)
    (rs1 rs2 : list parsed_file) :
  extraction_failed ast_parse ext file ->
  build_code_context_graph
    (rs1 ++ with_path path (parse_source_file re_findall ast_parse ext file) :: rs2)
  = build_code_context_graph (rs1 ++ rs2).
Proof.
  intros Hf. unfold parse_source_file.
  destruct file as [e | code].
  - apply silent_record; [|now right; right; left].
    unfold writes_of. now destruct (has_error _).
  - destruct Hf as [-> Hf]. simpl. unfold parse_python.
    destruct (ast_parse code) as [tree | m | e] eqn:E.
    + now destruct (Hf tree).
    + apply silent_record; [reflexivity | now left].
    + apply silent_record; [|now right; right; left].
      unfold writes_of. now destruct (has_error _).
Qed.

(** X13.  A file of another type ([.ts], [.jsx], [.tsx], which the file
    tree lists, or any other suffix) goes through [parse_generic] and leaves
    no trace in the graph, provided no other record has its path: it writes
    no node, and as a scanning file it has no entity to link. *)
Theorem other_files_ignored (ext code path : string) (rs1 rs2 : list parsed_file) :
  ext <> ".py" -> ext <> ".js" -> ext <> ".rs" -> ext <> ".jac" ->
  (forall r, In r (rs1 ++ rs2) -> p_path r <> path) ->
  build_code_context_graph
    (rs1 ++ with_path path (parse_source_file re_findall ast_parse ext (inr code)) :: rs2)
  = build_code_context_graph (rs1 ++ rs2).
Proof.
  intros H1 H2 H3 H4 Hp. unfold parse_source_file.
  apply String.eqb_neq in H1, H2, H3, H4. rewrite H1, H2, H3, H4.
  apply silent_record; [reflexivity|].
  right. right. right. intros id (w & Hw & _ & Hwp).
  apply in_flat_map in Hw. destruct Hw as (r & Hr & Hw).
  apply writes_of_path in Hw. apply (Hp r Hr). simpl in Hwp. congruence.
Qed.

End ExtractorRuns.

Lemma failed_files_ignored_witness :
  build_code_context_graph
    [main_py;
     with_path "broken.py"
       (parse_source_file Regex.re_findall (fun _ => SyntaxError "invalid syntax")
          ".py" (inr "def f(:"));
     models_py None]
  = build_code_context_graph [main_py; models_py None].
Proof.
  apply (@failed_files_ignored first_seen_order Regex.re_findall
           (fun _ => SyntaxError "invalid syntax") ".py" (inr "def f(:") "broken.py"
           [main_py] [models_py None]).
  simpl. split; [reflexivity | discriminate].
Defined.

Lemma other_files_ignored_witness :
  build_code_context_graph
    [main_py;
     with_path "app.ts"
       (parse_source_file Regex.re_findall (fun _ => SyntaxError "") ".ts"
          (inr "function init_app() {}"));
     models_py None]
  = build_code_context_graph [main_py; models_py None].
Proof.
  apply (@other_files_ignored first_seen_order Regex.re_findall
           (fun _ => SyntaxError "") ".ts" "function init_app() {}" "app.ts"
           [main_py] [models_py None]); try discriminate.
  intros r [<- | [<- | []]]; discriminate.
Defined.


(** * The extractors and the graph *)

Lemma first_seen_fresh seen l :
  NoDup l -> (forall x, In x l -> ~ In x seen) -> first_seen seen l = l.
Proof.
  revert seen. induction l as [|y l IH]; intros seen Hnd Hf; simpl; [reflexivity|].
  inversion Hnd as [|? ? Hy Hl]; subst.
  rewrite existsb_eqb_in_dec. destruct (in_dec string_dec y seen) as [Hin | _].
  - exfalso. apply (Hf y); [now left | exact Hin].
  - f_equal. apply IH; [exact Hl|].
    intros x Hx [<- | Hs]; [exact (Hy Hx)|]. apply (Hf x); [now right | exact Hs].
Qed.

Lemma entity_id_same_path p k1 k2 n1 n2 :
  entity_id p k1 n1 = entity_id p k2 n2 -> kind_prefix k1 +++ n1 = kind_prefix k2 +++ n2.
Proof.
  unfold entity_id. intros H. apply append_inv_head in H.
  now apply (append_inv_head "::") in H.
Qed.

Lemma NoDup_entity_ids p k names : NoDup names -> NoDup (map (entity_id p k) names).
Proof.
  induction 1 as [|n names Hn _ IH]; simpl; constructor; [|exact IH].
  intros Hin. apply in_map_iff in Hin. destruct Hin as (n' & Heq & Hn').
  apply entity_id_same_path, append_inv_head in Heq. now subst.
Qed.

Lemma jac_ids_NoDup r :
  NoDup (p_nodes r) -> NoDup (p_walkers r) -> NoDup (p_abilities r) -> NoDup (jac_ids r).
Proof.
  intros Hn Hw Ha. unfold jac_ids.
  assert (Hdiff : forall k1 k2 l1 l2 id,
             kind_prefix k1 <> "" -> kind_prefix k2 <> "" ->
             String.get 0 (kind_prefix k1) <> String.get 0 (kind_prefix k2) ->
             In id (map (entity_id (p_path r) k1) l1) ->
             ~ In id (map (entity_id (p_path r) k2) l2)).
  { intros k1 k2 l1 l2 id H1 H2 Hne Hi1 Hi2.
    apply in_map_iff in Hi1, Hi2.
    destruct Hi1 as (n1 & <- & _), Hi2 as (n2 & Heq & _).
    apply entity_id_same_path in Heq. apply Hne.
    destruct (kind_prefix k1) as [|c1 s1]; [contradiction|].
    destruct (kind_prefix k2) as [|c2 s2]; [contradiction|].
    simpl in *. now injection Heq as -> _. }
  apply NoDup_app; [now apply NoDup_entity_ids | |].
  - apply NoDup_app; [now apply NoDup_entity_ids | now apply NoDup_entity_ids |].
    intros id. apply Hdiff; simpl; discriminate.
  - intros id Hi Hin. apply in_app_or in Hin. revert Hi.
    destruct Hin as [Hin | Hin]; intros Hi;
      revert Hin; apply (Hdiff KNode _ (p_nodes r)); simpl; try discriminate; exact Hi.
Qed.

Lemma jac_writes r :
  has_error r = false -> p_type r = "jac" -> map fst (writes_of r) = jac_ids r.
Proof.
  intros He Ht. unfold writes_of, node_fields, jac_ids. rewrite He, Ht. simpl.
  rewrite app_nil_r, !map_app, !map_map. reflexivity.
Qed.

Lemma walk_queue_level q :
  forall fuel pending,
    List.length q <= fuel ->
    walk_queue fuel (q ++ pending)
    = q ++ walk_queue (fuel - List.length q) (pending ++ flat_map ast_children q).
Proof.
  induction q as [|n q IH]; intros fuel pending H; simpl.
  - now rewrite Nat.sub_0_r, app_nil_r.
  - destruct fuel as [|fuel]; [simpl in H; lia|]. simpl. f_equal.
    rewrite <- app_assoc, IH by (simpl in H; lia).
    now rewrite <- !app_assoc.
Qed.

Lemma queue_size_length q : List.length q <= queue_size q.
Proof.
  unfold queue_size. induction q as [|t q IH]; simpl; [lia|].
  rewrite ast_size_children. lia.
Qed.

Lemma ast_nodes_children t : ast_nodes t = t :: flat_map ast_nodes (ast_children t).
Proof. destruct t; reflexivity. Qed.

(** The walk takes every node of every tree in the queue once. *)
Lemma walk_queue_nodes fuel queue :
  queue_size queue <= fuel ->
  Permutation (walk_queue fuel queue) (flat_map ast_nodes queue).
Proof.
  revert queue. induction fuel as [|fuel IH]; intros [|t queue] H.
  - constructor.
  - simpl in H. rewrite ast_size_children in H. lia.
  - constructor.
  - cbn [walk_queue flat_map]. rewrite ast_nodes_children. simpl.
    constructor.
    etransitivity.
    + apply IH. rewrite queue_size_app.
      change (queue_size (t :: queue)) with (ast_size t + queue_size queue) in H.
      rewrite ast_size_children in H. lia.
    + rewrite flat_map_app. apply Permutation_app_comm.
Qed.

Lemma flat_map_perm {A B} (f : A -> list B) l l' :
  Permutation l l' -> Permutation (flat_map f l) (flat_map f l').
Proof.
  induction 1; simpl.
  - constructor.
  - now apply Permutation_app_head.
  - rewrite !app_assoc. apply Permutation_app_tail, Permutation_app_comm.
  - etransitivity; eassumption.
Qed.

Section ExtractorGraph.
Context {SO : SetOrder}.
Variable re_findall : string -> string -> list string.
Variable ast_parse : string -> parse_outcome.

(** X14.  When [ast.parse] returns a tree, [parse_python] lists the name
    of every [FunctionDef] and of every [ClassDef] of the tree, at whatever
    depth (methods, nested functions), once for each definition: a name
    defined twice is listed twice.  The walk is breadth first, so the
    definitions at the top of the tree come first, in their order.  The
    record carries the text and no error. *)
Theorem python_definitions (code : string) (tree : py_ast) (r : parsed_file) :
  ast_parse code = Parsed tree ->
  parse_python ast_parse code = inr r ->
  Permutation (p_funcs r) (flat_map function_name (ast_nodes tree))
  /\ Permutation (p_classes r) (flat_map class_name (ast_nodes tree))
  /\ (exists nested,
        p_funcs r = flat_map function_name (tree :: ast_children tree) ++ nested)
  /\ (exists nested,
        p_classes r = flat_map class_name (tree :: ast_children tree) ++ nested)
  /\ p_type r = "python" /\ has_error r = false /\ p_content r = Some code.
Proof.
  intros Hp. unfold parse_python. rewrite Hp. intros [= <-]. simpl.
  assert (Hperm : Permutation (ast_walk tree) (ast_nodes tree)).
  { unfold ast_walk. etransitivity; [apply walk_queue_nodes; simpl; lia|].
    simpl. now rewrite app_nil_r. }
  assert (Hlevel : exists rest, ast_walk tree = (tree :: ast_children tree) ++ rest).
  { unfold ast_walk. rewrite ast_size_children.
    pose proof (@walk_queue_level (ast_children tree) (queue_size (ast_children tree))
                  [] (queue_size_length _)) as Hl.
    rewrite app_nil_r in Hl.
    change (walk_queue (S (queue_size (ast_children tree))) [tree])
      with (tree :: walk_queue (queue_size (ast_children tree)) (ast_children tree)).
    rewrite Hl. eexists. reflexivity. }
  destruct Hlevel as [rest Hrest].
  split; [exact (flat_map_perm _ Hperm)|].
  split; [exact (flat_map_perm _ Hperm)|].
  split; [|split].
  - exists (flat_map function_name rest).
    change (flat_map function_name (ast_walk tree)
            = flat_map function_name (tree :: ast_children tree)
              ++ flat_map function_name rest).
    now rewrite Hrest, flat_map_app.
  - exists (flat_map class_name rest).
    change (flat_map class_name (ast_walk tree)
            = flat_map class_name (tree :: ast_children tree)
              ++ flat_map class_name rest).
    now rewrite Hrest, flat_map_app.
  - repeat split.
Qed.

(** X15.  The graph of one jac file.  For the record [parse_jac] returns,
    with whatever path, pass 1 writes one node for each extracted node,
    walker and ability: the ids are pairwise distinct, also when a node, a
    walker and an ability share a name, so the node count is the sum of the
    three lists; and a single file has no edge. *)
Theorem jac_file_graph (content path : string) :
  let r := with_path path (parse_jac re_findall content) in
  let ccg := build_code_context_graph [r] in
  PyDict.keys (d_nodes ccg) = jac_ids r
  /\ NoDup (jac_ids r)
  /\ node_count (d_stats ccg)
     = List.length (p_nodes r) + List.length (p_walkers r) + List.length (p_abilities r)
  /\ edge_count (d_stats ccg) = 0.
Proof.
  intros r ccg.
  assert (Hnd : NoDup (jac_ids r))
    by (apply jac_ids_NoDup; simpl; apply set_iter_NoDup).
  assert (Hk : PyDict.keys (d_nodes ccg) = jac_ids r).
  { unfold ccg. rewrite build_nodes, add_nodes_order. simpl.
    rewrite app_nil_r, jac_writes by reflexivity.
    apply first_seen_fresh; [exact Hnd | auto]. }
  split; [exact Hk|]. split; [exact Hnd|]. split.
  - assert (Hc : node_count (d_stats ccg) = List.length (PyDict.keys (d_nodes ccg))).
    { unfold ccg, build_code_context_graph, to_dict, get_stats, PyDict.keys. simpl.
      now rewrite length_map. }
    rewrite Hc, Hk. unfold jac_ids. rewrite !length_app, !length_map. lia.
  - unfold ccg. rewrite build_of_built. unfold to_dict, get_stats. simpl.
    assert (He : edges (built_graph [r]) = []).
    { apply no_edge_nil; [apply (held_consistent (reachable_built [r]))|].
      intros f t Hedge.
      assert (Hb : has_edge (d_edges (build_code_context_graph [r])) f t) by exact Hedge.
      apply build_has_edge in Hb. destruct Hb as (pfile & [<- | []] & Hl).
      destruct Hl as (c & _ & _ & _ & _ & (q & others & Hq & Hne & _) & _).
      rewrite pass1_writes in Hq. apply add_nodes_file_keys in Hq.
      destruct Hq as [[] | (w & Hw & Hwp)].
      apply in_flat_map in Hw. destruct Hw as (r' & [<- | []] & Hw).
      apply writes_of_path in Hw. apply Hne. now rewrite <- Hwp, Hw. }
    now rewrite He.
Qed.

End ExtractorGraph.

Lemma python_definitions_witness :
  exists r,
    parse_python (fun _ => Parsed two_methods) two_methods_code = inr r
    /\ Permutation (p_funcs r) ["run"; "run"]
    /\ Permutation (p_classes r) ["A"; "B"]
    /\ has_error r = false.
Proof.
  eexists. split; [reflexivity|].
  destruct (@python_definitions (fun _ => Parsed two_methods) two_methods_code
              two_methods _ eq_refl eq_refl) as (H1 & H2 & _ & _ & _ & H3 & _).
  split; [exact H1 | split; [exact H2 | exact H3]].
Defined.


(** * Identifiers of the diagram *)

Lemma prefix_char c x s : String.prefix (String c "") (String x s) = Ascii.eqb c x.
Proof.
  cbn [String.prefix]. destruct (ascii_dec c x) as [-> | Hne].
  - rewrite Ascii.eqb_refl. now destruct s.
  - symmetry. now apply Ascii.eqb_neq.
Qed.

(** Replacing one character by ["_"] works character by character. *)
Lemma replace_char_step c x s :
  replace (String c "") "_" (String x s)
  = String (if Ascii.eqb c x then "_"%char else x) (replace (String c "") "_" s).
Proof.
  unfold replace. cbn [replace_from]. rewrite prefix_char.
  destruct (Ascii.eqb c x); reflexivity.
Qed.

Lemma replace_char_removes c s :
  c <> "_"%char -> has_char c (replace (String c "") "_" s) = false.
Proof.
  intros Hc. induction s as [|x s IH]; [reflexivity|].
  rewrite replace_char_step. cbn [has_char]. rewrite IH, orb_false_r.
  destruct (Ascii.eqb_spec c x) as [<- | Hne]; apply Ascii.eqb_neq; auto.
Qed.

Lemma replace_char_keeps_out c d s :
  d <> "_"%char -> has_char d s = false ->
  has_char d (replace (String c "") "_" s) = false.
Proof.
  intros Hd. induction s as [|x s IH]; [reflexivity|].
  rewrite replace_char_step. cbn [has_char]. intros H.
  apply orb_false_iff in H. destruct H as [Hx Hs].
  rewrite (IH Hs), orb_false_r.
  destruct (Ascii.eqb c x); [now apply Ascii.eqb_neq | exact Hx].
Qed.

Lemma replace_char_absent c s :
  has_char c s = false -> replace (String c "") "_" s = s.
Proof.
  induction s as [|x s IH]; [reflexivity|].
  rewrite replace_char_step. cbn [has_char]. intros H.
  apply orb_false_iff in H. destruct H as [Hx Hs].
  now rewrite Hx, (IH Hs).
Qed.

Lemma replace_char_length c s :
  String.length (replace (String c "") "_" s) = String.length s.
Proof.
  induction s as [|x s IH]; [reflexivity|].
  rewrite replace_char_step. simpl. now rewrite IH.
Qed.

Lemma replace_pair_absent s :
  has_char ":" s = false -> replace "::" "_" s = s.
Proof.
  unfold replace. induction s as [|x s IH]; [reflexivity|].
  cbn [has_char replace_from]. intros H.
  apply orb_false_iff in H. destruct H as [Hx Hs].
  assert (Hp : String.prefix "::" (String x s) = false).
  { cbn [String.prefix]. destruct (ascii_dec ":" x) as [<- | _]; [|reflexivity].
    rewrite Ascii.eqb_refl in Hx. discriminate Hx. }
  now rewrite Hp, (IH Hs).
Qed.

Lemma replace_pair_length s skip :
  String.length (replace_from "::" "_" s skip) <= String.length s.
Proof.
  revert skip. induction s as [|x s IH]; intros skip; [simpl; lia|].
  cbn [replace_from]. destruct skip as [|k].
  - destruct (String.prefix "::" (String x s)).
    + specialize (IH 1). simpl in *. lia.
    + specialize (IH 0). simpl. lia.
  - specialize (IH k). simpl. lia.
Qed.

(** X16.  The identifier the diagram uses for a node has none of the
    characters [:], [/] and [.]; an id without them is used as it stands
    (every other character is kept, so cleaning twice changes nothing
    more); the identifier is never longer than the id. *)
Theorem clean_id_clean (node_id : string) :
  has_char ":" (clean_id node_id) = false
  /\ has_char "/" (clean_id node_id) = false
  /\ has_char "." (clean_id node_id) = false
  /\ clean_id (clean_id node_id) = clean_id node_id
  /\ String.length (clean_id node_id) <= String.length node_id.
Proof.
  assert (Hcolon : has_char ":" (clean_id node_id) = false).
  { unfold clean_id. do 2 (apply replace_char_keeps_out; [discriminate|]).
    apply replace_char_removes. discriminate. }
  assert (Hslash : has_char "/" (clean_id node_id) = false).
  { unfold clean_id. apply replace_char_keeps_out; [discriminate|].
    apply replace_char_removes. discriminate. }
  assert (Hdot : has_char "." (clean_id node_id) = false).
  { unfold clean_id. apply replace_char_removes. discriminate. }
  repeat split; try assumption.
  - unfold clean_id at 1.
    rewrite (replace_pair_absent _ Hcolon), (replace_char_absent _ _ Hcolon),
      (replace_char_absent _ _ Hslash), (replace_char_absent _ _ Hdot).
    reflexivity.
  - unfold clean_id. rewrite !replace_char_length. apply replace_pair_length.
Qed.


(** * The order of the records *)

Lemma written_perm rs rs' id p :
  Permutation rs rs' -> written rs id p -> written rs' id p.
Proof.
  intros Hp (w & Hw & H). exists w. split; [|exact H].
  exact (Permutation_in _ (flat_map_perm writes_of Hp) Hw).
Qed.

Lemma clean_names_perm rs rs' : Permutation rs rs' -> clean_names rs -> clean_names rs'.
Proof.
  intros Hp Hc r k names name Hr. apply Hc.
  exact (Permutation_in _ (Permutation_sym Hp) Hr).
Qed.

Lemma same_id_same_name p1 k1 n1 p2 k2 n2 :
  no_colon n1 = true -> no_colon n2 = true ->
  entity_id p1 k1 n1 = entity_id p2 k2 n2 -> n1 = n2.
Proof.
  intros H1 H2 Heq. rewrite !entity_id_stem in Heq.
  now apply split_last_colon in Heq.
Qed.

(** With such names, the name stored for an id is the name of any write of
    that id. *)
Lemma stored_name_write rs id d n :
  clean_names rs -> In (id, d) (flat_map writes_of rs) -> e_name d = Some n ->
  stored_name (pass1 rs ccg_init) id = n.
Proof.
  intros Hc Hw Hn. rewrite pass1_writes.
  assert (Hk : In id (PyDict.keys (nodes (add_nodes (flat_map writes_of rs) ccg_init)))).
  { apply add_nodes_keys. left. now apply (in_map fst) in Hw. }
  destruct (sget id (nodes (add_nodes (flat_map writes_of rs) ccg_init))) as [d'|] eqn:E;
    [|now apply sget_None in E].
  unfold stored_name, get_entity, sget_default, PyDict.get_default.
  unfold sget in E. rewrite E.
  apply add_nodes_values in E. destruct E as [Hw' | E]; [|discriminate E].
  apply in_flat_map in Hw, Hw'.
  destruct Hw as (r & Hr & Hw), Hw' as (r' & Hr' & Hw').
  apply writes_of_In in Hw, Hw'.
  destruct Hw as (_ & k & names & name & Hf & Hin & Hid & ->).
  destruct Hw' as (_ & k' & names' & name' & Hf' & Hin' & Hid' & ->).
  simpl in Hn. injection Hn as <-. rewrite Hid in Hid'. simpl.
  symmetry.
  exact (@same_id_same_name _ _ _ _ _ _ (Hc r k names name Hr Hf Hin)
           (Hc r' k' names' name' Hr' Hf' Hin') Hid').
Qed.

Lemma written_write rs id p :
  written rs id p -> exists d n, In (id, d) (flat_map writes_of rs) /\ e_name d = Some n.
Proof.
  intros ([id' d] & Hw & <- & _). exists d.
  pose proof Hw as Hw'. apply in_flat_map in Hw'. destruct Hw' as (r & _ & Hr).
  apply writes_of_In in Hr. destruct Hr as (_ & k & names & name & _ & _ & _ & ->).
  now exists name.
Qed.

Lemma build_edges_perm rs rs' f t :
  Permutation rs rs' -> clean_names rs ->
  has_edge (d_edges (build_code_context_graph rs)) f t ->
  has_edge (d_edges (build_code_context_graph rs')) f t.
Proof.
  intros Hp Hc. rewrite !build_has_edge. intros (r & Hr & Hl).
  exists r. split; [exact (Permutation_in _ Hp Hr)|].
  apply links_records in Hl. apply links_records.
  destruct Hl as (content & q & H1 & H2 & H3 & Ht & Hn & H4 & H5 & Hf).
  exists content, q.
  destruct (written_write Ht) as (d & n & Hw & Hd).
  rewrite (@stored_name_write rs t d n Hc Hw Hd) in Hn.
  rewrite (@stored_name_write rs' t d n (clean_names_perm Hp Hc)
             (Permutation_in _ (flat_map_perm writes_of Hp) Hw) Hd).
  repeat split; try assumption; eapply written_perm; eassumption.
Qed.

Lemma build_ids rs id :
  In id (PyDict.keys (d_nodes (build_code_context_graph rs)))
  <-> In id (map fst (flat_map writes_of rs)).
Proof. rewrite build_nodes, add_nodes_keys. simpl. tauto. Qed.

(** X17.  The order of the records does not decide what the graph holds.
    When no name holds a colon, two lists with the same records in
    another order give the same edges, the same node ids and the same
    node count. *)
Theorem build_order_independent (rs rs' : list parsed_file) :
  Permutation rs rs' -> clean_names rs ->
  (forall f t, has_edge (d_edges (build_code_context_graph rs)) f t
               <-> has_edge (d_edges (build_code_context_graph rs')) f t)
  /\ (forall id, In id (PyDict.keys (d_nodes (build_code_context_graph rs)))
                 <-> In id (PyDict.keys (d_nodes (build_code_context_graph rs'))))
  /\ node_count (d_stats (build_code_context_graph rs))
     = node_count (d_stats (build_code_context_graph rs')).
Proof.
  intros Hp Hc.
  assert (Hids : forall id,
             In id (PyDict.keys (d_nodes (build_code_context_graph rs)))
             <-> In id (PyDict.keys (d_nodes (build_code_context_graph rs')))).
  { intros id. rewrite !build_ids.
    pose proof (Permutation_map fst (flat_map_perm writes_of Hp)) as Hm.
    split; apply Permutation_in; [exact Hm | exact (Permutation_sym Hm)]. }
  split; [|split; [exact Hids|]].
  - intros f t. split.
    + now apply build_edges_perm.
    + apply build_edges_perm;
        [exact (Permutation_sym Hp) | exact (clean_names_perm Hp Hc)].
  - assert (Hlen : forall l, node_count (d_stats (build_code_context_graph l))
                             = List.length (PyDict.keys (d_nodes (build_code_context_graph l)))).
    { intros l. unfold build_code_context_graph, to_dict, get_stats, PyDict.keys. simpl.
      now rewrite length_map. }
    rewrite !Hlen. apply Permutation_length.
    apply NoDup_Permutation; [| |exact Hids];
      rewrite build_nodes; apply add_nodes_NoDup; constructor.
Qed.

Lemma build_order_independent_witness :
  (has_edge (d_edges (build_code_context_graph [main_py; models_py None]))
     "models.py::init_app" "main.py::run_server"
   <-> has_edge (d_edges (build_code_context_graph [models_py None; main_py]))
         "models.py::init_app" "main.py::run_server")
  /\ node_count (d_stats (build_code_context_graph [main_py; models_py None]))
     = node_count (d_stats (build_code_context_graph [models_py None; main_py])).
Proof.
  destruct (@build_order_independent [main_py; models_py None] [models_py None; main_py])
    as (He & _ & Hn).
  - apply perm_swap.
  - intros r k names name Hr Hf Hin.
    destruct Hr as [<- | [<- | []]]; cbv in Hf;
      destruct Hf as [[= <- <-] | [[= <- <-] | []]]; cbv in Hin;
      try contradiction; destruct Hin as [<- | []]; reflexivity.
  - split; [apply He | exact Hn].
Defined.

(** * The diagram and the iteration order of sets *)

(** Another admissible order: first insertion last. *)
Definition last_seen_order : SetOrder.
Proof.
  refine {| set_iter := fun l => rev (first_seen [] l) |}.
  - intros l. apply NoDup_rev, first_seen_NoDup.
  - intros l x. rewrite <- in_rev, first_seen_In. simpl. tauto.
Defined.

Lemma shown_members (nodes : sdict entity_data) ids (shown : list (string * entity_data)) :
  map fst shown = ids ->
  Forall (fun '(id, d) => sget id nodes = Some d) shown ->
  forall id d, In (id, d) shown <-> In id ids /\ sget id nodes = Some d.
Proof.
  intros Hids Hall id d. rewrite Forall_forall in Hall. split.
  - intros Hin. split; [|exact (Hall (id, d) Hin)].
    rewrite <- Hids. now apply (in_map fst) in Hin.
  - intros [Hin Hget]. rewrite <- Hids in Hin. apply in_map_iff in Hin.
    destruct Hin as ([id' d'] & Heq & Hin). simpl in Heq. subst id'.
    pose proof (Hall (id, d') Hin) as Hget'. simpl in Hget'.
    rewrite Hget in Hget'. now injection Hget' as ->.
Qed.

Lemma shown_NoDup (shown : list (string * entity_data)) :
  NoDup (map fst shown) -> NoDup shown.
Proof.
  induction shown as [|x shown IH]; simpl; intros H; [constructor|].
  inversion H as [|? ? Hx Hs]; subst. constructor; [|now apply IH].
  intros Hin. apply Hx. now apply in_map.
Qed.

(** C7, as the code has it.  [build_code_context_graph] iterates no set:
    equal lists of records give equal graph dictionaries.  The projector
    iterates the set [top_node_ids] twice, so its text depends on the order
    in which sets of strings are iterated.  Two runs that iterate sets in the
    same order (as the runs of one interpreter process do) give the same
    text for equal snapshots and bounds, ties or not; and also for snapshots
    equal as Python compares dictionaries, with keys inserted in different
    orders, when no two nodes are equally connected.  Two runs that iterate
    sets in different orders give, for equal snapshots and for snapshots
    equal as dictionaries without ties, texts with the same header, the same
    blocks of nodes and the same edge lines, each once, in whatever order. *)
Theorem diagram_deterministic (SO SO' : SetOrder) :
  (forall parsed_files parsed_files',
      parsed_files = parsed_files' ->
      build_code_context_graph parsed_files = build_code_context_graph parsed_files')
  /\ (forall ccg ccg' max_nodes max_nodes',
        ccg = ccg' -> max_nodes = max_nodes' ->
        (forall l, @set_iter SO l = @set_iter SO' l) ->
        @generate_mermaid_diagram SO ccg max_nodes
        = @generate_mermaid_diagram SO' ccg' max_nodes')
  /\ (forall ccg ccg' max_nodes,
        snapshot_equal ccg ccg' -> no_ties ccg ->
        (forall l, @set_iter SO l = @set_iter SO' l) ->
        @generate_mermaid_diagram SO ccg max_nodes
        = @generate_mermaid_diagram SO' ccg' max_nodes)
  /\ (forall ccg ccg' max_nodes,
        ccg = ccg' \/ (snapshot_equal ccg ccg' /\ no_ties ccg) ->
        exists shown shown' pairs pairs',
          @generate_mermaid_diagram SO ccg max_nodes
          = Some (mermaid_header
                  +++ String.concat "" (map (fun '(id, d) => node_lines id d) shown)
                  +++ String.concat "" (map pair_line pairs))
          /\ @generate_mermaid_diagram SO' ccg' max_nodes
             = Some (mermaid_header
                     +++ String.concat "" (map (fun '(id, d) => node_lines id d) shown')
                     +++ String.concat "" (map pair_line pairs'))
          /\ Permutation shown shown' /\ Permutation pairs pairs'
          /\ NoDup shown /\ NoDup pairs).
Proof.
  split; [now intros ? ? ->|].
  split.
  { intros ccg ? max_nodes ? <- <- Hsame. unfold generate_mermaid_diagram.
    now rewrite Hsame. }
  split.
  { intros ccg ccg' max_nodes Heq Hties Hsame.
    unfold generate_mermaid_diagram, top_node_ids.
    rewrite <- (top_nodes_equal max_nodes Heq Hties), <- Hsame.
    destruct Heq as ((_ & _ & Hn) & (_ & _ & He) & _).
    rewrite (@emit_nodes_ext (d_nodes ccg) (d_nodes ccg') _ _ Hn).
    destruct (emit_nodes (d_nodes ccg') _ _); [|reflexivity].
    now rewrite (@emit_edges_ext (d_edges ccg) (d_edges ccg') _ _ _ He). }
  intros ccg ccg' max_nodes Heq.
  assert (H : top_node_ids ccg' max_nodes = top_node_ids ccg max_nodes
              /\ (forall k, sget k (d_nodes ccg) = sget k (d_nodes ccg'))
              /\ (forall k, sget k (d_edges ccg) = sget k (d_edges ccg'))).
  { destruct Heq as [<- | [Heq Hties]]; [now repeat split|].
    split; [unfold top_node_ids; now rewrite (top_nodes_equal max_nodes Heq Hties)|].
    destruct Heq as ((_ & _ & Hn) & (_ & _ & He) & _). now split. }
  destruct H as (Htop & Hn & He).
  unfold generate_mermaid_diagram. rewrite Htop.
  rewrite <- (@emit_nodes_ext (d_nodes ccg) (d_nodes ccg') _ _ Hn).
  set (top := top_node_ids ccg max_nodes).
  assert (Hin : forall (O : SetOrder) id,
             In id (@set_iter O top) -> In id (PyDict.keys (d_nodes ccg))).
  { intros O id H. apply (proj1 (@set_iter_In O _ _)) in H.
    now apply top_node_ids_nodes in H. }
  destruct (@emit_nodes_records (d_nodes ccg) (@set_iter SO top) mermaid_header (Hin SO))
    as (shown & H1 & H2 & H3).
  destruct (@emit_nodes_records (d_nodes ccg) (@set_iter SO' top) mermaid_header (Hin SO'))
    as (shown' & H1' & H2' & H3').
  rewrite H1, H1'.
  rewrite <- (@emit_edges_ext (d_edges ccg) (d_edges ccg') _ _ _ He).
  unfold emit_edges. rewrite !emit_edges_pairs. cbn [fst].
  exists shown, shown',
    (all_pairs (d_edges ccg) top (@set_iter SO top) []),
    (all_pairs (d_edges ccg) top (@set_iter SO' top) []).
  destruct (all_pairs_spec (d_edges ccg) top (@set_iter SO top) []) as [Hnd Hp].
  destruct (all_pairs_spec (d_edges ccg) top (@set_iter SO' top) []) as [Hnd' Hp'].
  assert (Hs : NoDup shown) by (apply shown_NoDup; rewrite H2; apply set_iter_NoDup).
  assert (Hs' : NoDup shown') by (apply shown_NoDup; rewrite H2'; apply set_iter_NoDup).
  split; [now rewrite append_assoc|]. split; [now rewrite append_assoc|].
  split; [|split; [|split; [exact Hs | exact Hnd]]].
  - apply NoDup_Permutation; [exact Hs | exact Hs'|].
    intros [id d].
    rewrite (@shown_members (d_nodes ccg) _ shown H2 H3 id d),
      (@shown_members (d_nodes ccg) _ shown' H2' H3' id d).
    rewrite !set_iter_In. tauto.
  - apply NoDup_Permutation; [exact Hnd | exact Hnd'|].
    intros p. rewrite Hp, Hp', !set_iter_In. tauto.
Qed.

Lemma diagram_deterministic_witness :
  generate_mermaid_diagram snapshot_ab 20 = generate_mermaid_diagram snapshot_ba 20.
Proof.
  apply (proj1 (proj2 (proj2 (diagram_deterministic first_seen_order first_seen_order)))).
  - assert (Hswap : forall V (a b : string) (x y : V) k,
               a <> b -> sget k [(a, x); (b, y)] = sget k [(b, y); (a, x)]).
    { intros V a b x y k Hab. simpl.
      destruct (String.eqb_spec a k), (String.eqb_spec b k); congruence. }
    repeat split; try (intros k; reflexivity);
      try (repeat constructor; simpl; intuition discriminate).
    intros k. apply Hswap. discriminate.
  - unfold no_ties. vm_compute. repeat constructor; simpl; intuition discriminate.
  - reflexivity.
Defined.

(** C7 as stated fails: for one snapshot without ties and one bound, two
    runs that iterate the set of selected ids in different orders give
    different texts. *)
Lemma diagram_order_differs :
  ~ (forall (SO SO' : SetOrder) (ccg ccg' : ccg_dict) (max_nodes max_nodes' : Z),
        ccg = ccg' -> max_nodes = max_nodes' -> no_ties ccg ->
        @generate_mermaid_diagram SO ccg max_nodes
        = @generate_mermaid_diagram SO' ccg' max_nodes').
Proof.
  intros H.
  specialize (H first_seen_order last_seen_order snapshot_ab snapshot_ab 20%Z 20%Z
                eq_refl eq_refl).
  assert (Hties : no_ties snapshot_ab).
  { unfold no_ties. vm_compute. repeat constructor; simpl; intuition discriminate. }
  specialize (H Hties). vm_compute in H. discriminate H.
Qed.
